(** * chrono: cron expressions, scheduled tasks and the scheduling engine

    A shallow embedding of [cron.go], [task.go] and [executor.go].

    Conventions of the model.
    - Go's [int] is the 64-bit two's complement integer: values are kept in
      [Z], and a sum or product that can leave the range of [int] is passed
      through [wrap].  [uint64] bit sets are [Z] values below [2^64]; a shift
      by a negative count panics.
    - A Go [string] is its byte sequence, a Rocq [string].
    - A call returns [Ok v], returns a non-nil [error] ([Err msg], with the
      text of the message) or panics ([Panic p]).
    - [time.Time] is the instant it denotes: nanoseconds since
      0001-01-01T00:00:00 UTC (the zero [time.Time]), unbounded, read in UTC.
      [time.Duration] is a number of nanoseconds. *)

From Stdlib Require Import ZArith List String Ascii Bool Lia Sorted Permutation.
Import ListNotations.

Open Scope Z_scope.

(* ------------------------------------------------------------------ *)
(** ** Outcomes of a call *)

Inductive NumError : Type :=
| ErrSyntax
| ErrRange.

Inductive panicValue : Type :=
| PanicNumError (input : string) (e : NumError)   (* panic(err), err from strconv.Atoi *)
| PanicMsg (msg : string)                         (* panic("...") *)
| PanicRuntime (msg : string).                    (* a run-time panic of the language *)

Inductive outcome (A : Type) : Type :=
| Ok (a : A)
| Err (msg : string)
| Panic (p : panicValue).

Arguments Ok {A} a.
Arguments Err {A} msg.
Arguments Panic {A} p.

Definition bind {A B : Type} (m : outcome A) (k : A -> outcome B) : outcome B :=
  match m with
  | Ok a => k a
  | Err msg => Err msg
  | Panic p => Panic p
  end.

Notation "x <- m ;; k" := (bind m (fun x => k))
  (at level 61, m at next level, right associativity).

Definition succeeded {A : Type} (m : outcome A) : bool :=
  match m with Ok _ => true | _ => false end.

Definition returnsError {A : Type} (m : outcome A) : bool :=
  match m with Err _ => true | _ => false end.

Definition panics {A : Type} (m : outcome A) : bool :=
  match m with Panic _ => true | _ => false end.

(* ------------------------------------------------------------------ *)
(** ** Machine integers *)

Definition minInt : Z := - 2 ^ 63.
Definition maxInt : Z := 2 ^ 63 - 1.
Definition maxUint64 : Z := 2 ^ 64 - 1.

(** The value of an [int] expression whose mathematical result is [z]. *)
Definition wrap (z : Z) : Z := (z + 2 ^ 63) mod 2 ^ 64 - 2 ^ 63.

(** [x << n] on [uint64], for a shift count that is not negative. *)
Definition shl64 (x n : Z) : Z := Z.land (Z.shiftl x n) maxUint64.

(** [^x] on [uint64]. *)
Definition not64 (x : Z) : Z := Z.lxor x maxUint64.

(** [bits.TrailingZeros64]: 64 for zero. *)
Fixpoint trailingZeros_from (fuel : nat) (x i : Z) : Z :=
  match fuel with
  | O => i
  | S f => if Z.testbit x i then i else trailingZeros_from f x (i + 1)
  end.

Definition TrailingZeros64 (x : Z) : Z := trailingZeros_from 64 x 0.

(* ------------------------------------------------------------------ *)
(** ** package strings and strconv *)

Section Strings.
Open Scope string_scope.
Open Scope Z_scope.

Definition dquote : string := String (ascii_of_nat 34) EmptyString.

Definition len (s : string) : Z := Z.of_nat (String.length s).

(** [s[lo:hi]] for [0 <= lo <= hi <= len s]. *)
Definition slice (s : string) (lo hi : Z) : string :=
  substring (Z.to_nat lo) (Z.to_nat (hi - lo)) s.

Fixpoint index_from (sub s : string) (i : Z) : Z :=
  if prefix sub s then i
  else match s with
       | EmptyString => -1
       | String _ s' => index_from sub s' (i + 1)
       end.

(** [strings.Index]: the byte offset of the first occurrence, or -1. *)
Definition Index (s sub : string) : Z := index_from sub s 0.

(** [strings.Split] for a non-empty separator.  [skip] counts the bytes of
    a separator occurrence that are still to be dropped. *)
Fixpoint split_aux (sep s : string) (skip : nat) (cur : string) : list string :=
  match s with
  | EmptyString => [cur]
  | String c s' =>
      match skip with
      | S k => split_aux sep s' k cur
      | O => if prefix sep s
             then cur :: split_aux sep s' (String.length sep - 1) EmptyString
             else split_aux sep s' 0 (cur ++ String c EmptyString)
      end
  end.

Definition Split (s sep : string) : list string := split_aux sep s 0 EmptyString.

(** [strings.ReplaceAll] for a non-empty [old]: occurrences are replaced
    from the left and do not overlap. *)
Fixpoint replaceAll_aux (old new s : string) (skip : nat) : string :=
  match s with
  | EmptyString => EmptyString
  | String c s' =>
      match skip with
      | S k => replaceAll_aux old new s' k
      | O => if prefix old s
             then new ++ replaceAll_aux old new s' (String.length old - 1)
             else String c (replaceAll_aux old new s' 0)
      end
  end.

Definition ReplaceAll (s old new : string) : string := replaceAll_aux old new s 0.

Definition upperByte (c : ascii) : ascii :=
  let n := nat_of_ascii c in
  if (97 <=? n)%nat && (n <=? 122)%nat then ascii_of_nat (n - 32) else c.

(** [strings.ToUpper] on ASCII input: bytes 'a'..'z' are mapped to
    'A'..'Z'.  For input outside ASCII, Go consults the Unicode case tables
    (U+017F becomes 'S', U+0131 becomes 'I'); those are not part of the
    model, which keeps such bytes as they are and so agrees with Go on
    ASCII strings only ([isASCII]). *)
Fixpoint ToUpper (s : string) : string :=
  match s with
  | EmptyString => EmptyString
  | String c s' => String (upperByte c) (ToUpper s')
  end.

(** The width in bytes of the white space character (unicode.IsSpace) whose
    UTF-8 encoding starts [s], or 0.  The lead bytes of the encodings below
    are never continuation bytes, so looking for them byte by byte agrees
    with decoding [s] rune by rune. *)
Definition spaceWidth (s : string) : nat :=
  match List.map nat_of_ascii (list_ascii_of_string (substring 0 3 s)) with
  | b0 :: rest =>
      if ((9 <=? b0) && (b0 <=? 13) || (b0 =? 32))%nat then 1%nat
      else match rest with
           | b1 :: rest' =>
               if ((b0 =? 194) && ((b1 =? 133) || (b1 =? 160)))%nat then 2%nat
               else match rest' with
                    | b2 :: _ =>
                        if ((b0 =? 225) && (b1 =? 154) && (b2 =? 128)       (* U+1680 *)
                            || (b0 =? 226) && (b1 =? 128)
                               && ((128 <=? b2) && (b2 <=? 138)            (* U+2000..U+200A *)
                                   || (b2 =? 168) || (b2 =? 169)            (* U+2028, U+2029 *)
                                   || (b2 =? 175))                          (* U+202F *)
                            || (b0 =? 226) && (b1 =? 129) && (b2 =? 159)    (* U+205F *)
                            || (b0 =? 227) && (b1 =? 128) && (b2 =? 128))%nat (* U+3000 *)
                        then 3%nat else 0%nat
                    | [] => 0%nat
                    end
           | [] => 0%nat
           end
  | [] => 0%nat
  end.

(** [strings.Fields]: the maximal runs of bytes that are not white space.
    [cur] is the field being read, if any. *)
Fixpoint fields_aux (s : string) (skip : nat) (cur : option string) : list string :=
  match s with
  | EmptyString => match cur with Some f => [f] | None => [] end
  | String c s' =>
      match skip with
      | S k => fields_aux s' k cur
      | O =>
          match spaceWidth s with
          | O => fields_aux s' 0
                   (Some (match cur with Some f => f | None => EmptyString end
                          ++ String c EmptyString))
          | S w =>
              match cur with
              | Some f => f :: fields_aux s' w None
              | None => fields_aux s' w None
              end
          end
      end
  end.

Definition Fields (s : string) : list string := fields_aux s 0 None.

(** Decimal digits of a number that is not negative. *)
Fixpoint digits_aux (fuel : nat) (n : Z) (acc : string) : string :=
  match fuel with
  | O => acc
  | S f =>
      let acc' := String (ascii_of_nat (48 + Z.to_nat (n mod 10))%nat) acc in
      if n <? 10 then acc' else digits_aux f (n / 10) acc'
  end.

(** [strconv.Itoa] on a 64-bit [int] (at most 19 digits). *)
Definition Itoa (n : Z) : string :=
  if n <? 0 then "-" ++ digits_aux 20 (- n) EmptyString
  else digits_aux 20 n EmptyString.

Definition digitVal (c : ascii) : option Z :=
  let n := Z.of_nat (nat_of_ascii c) in
  if (48 <=? n) && (n <=? 57) then Some (n - 48) else None.

(** The digit loop of [strconv.ParseUint] in base 10 with 64 bits: the
    first offending byte decides between a syntax and a range error. *)
Fixpoint parseUint_aux (s : string) (acc : Z) : Z + NumError :=
  match s with
  | EmptyString => inl acc
  | String c s' =>
      match digitVal c with
      | None => inr ErrSyntax
      | Some d =>
          if maxUint64 <? acc * 10 + d then inr ErrRange
          else parseUint_aux s' (acc * 10 + d)
      end
  end.

(** [strconv.Atoi]: an optional sign, then one or more decimal digits, the
    value within the range of [int]. *)
Definition Atoi (s : string) : Z + NumError :=
  let '(neg, body) :=
    match s with
    | String "-" r => (true, r)
    | String "+" r => (false, r)
    | _ => (false, s)
    end in
  match body with
  | EmptyString => inr ErrSyntax
  | _ =>
      match parseUint_aux body 0 with
      | inr e => inr e
      | inl un =>
          if neg then (if 2 ^ 63 <? un then inr ErrRange else inl (- un))
          else (if maxInt <? un then inr ErrRange else inl un)
      end
  end.

End Strings.

(* ------------------------------------------------------------------ *)
(** ** cron.go: field types and bit sets *)

(** [type cronField string] with its six constants.  No other value of the
    type is ever built, which is why [getTimeValue] and [addTime] end in
    "unreachable code". *)
Inductive cronField : Type :=
| cronFieldSecond
| cronFieldMinute
| cronFieldHour
| cronFieldDayOfMonth
| cronFieldMonth
| cronFieldDayOfWeek.

Definition cronField_eqb (a b : cronField) : bool :=
  match a, b with
  | cronFieldSecond, cronFieldSecond
  | cronFieldMinute, cronFieldMinute
  | cronFieldHour, cronFieldHour
  | cronFieldDayOfMonth, cronFieldDayOfMonth
  | cronFieldMonth, cronFieldMonth
  | cronFieldDayOfWeek, cronFieldDayOfWeek => true
  | _, _ => false
  end.

(** The string behind each constant, as [%s] prints it. *)
Definition cronFieldString (f : cronField) : string :=
  match f with
  | cronFieldSecond => "SECOND"
  | cronFieldMinute => "MINUTE"
  | cronFieldHour => "HOUR"
  | cronFieldDayOfMonth => "DAY_OF_MONTH"
  | cronFieldMonth => "MONTH"
  | cronFieldDayOfWeek => "DAY_OF_WEEK"
  end%string.

Record fieldType : Type := mkFieldType {
  Field : cronField;
  MinValue : Z;
  MaxValue : Z
}.

Definition second : fieldType := mkFieldType cronFieldSecond 0 59.
Definition minute : fieldType := mkFieldType cronFieldMinute 0 59.
Definition hour : fieldType := mkFieldType cronFieldHour 0 23.
Definition dayOfMonth : fieldType := mkFieldType cronFieldDayOfMonth 1 31.
Definition month : fieldType := mkFieldType cronFieldMonth 1 12.
Definition dayOfWeek : fieldType := mkFieldType cronFieldDayOfWeek 0 6.

Definition cronFieldTypes : list fieldType :=
  [second; minute; hour; dayOfMonth; month; dayOfWeek].

Definition months : list string :=
  ["JAN"; "FEB"; "MAR"; "APR"; "MAY"; "JUN"; "JUL"; "AUG"; "SEP"; "OCT"; "NOV"; "DEC"]%string.

Definition days : list string :=
  ["MON"; "TUE"; "WED"; "THU"; "FRI"; "SAT"; "SUN"]%string.

(** [valueRange]; its fields are [MinValue] and [MaxValue] in the source. *)
Record valueRange : Type := newValueRange {
  rangeMin : Z;
  rangeMax : Z
}.

Record cronFieldBits : Type := mkFieldBits {
  Typ : fieldType;
  Bits : Z
}.

Definition newFieldBits (typ : fieldType) : cronFieldBits := mkFieldBits typ 0.

Definition maxAttempts : Z := 366.
Definition mask : Z := maxUint64.

Record CronExpression : Type := mkCronExpression {
  fields : list cronFieldBits
}.

Definition newCronExpression : CronExpression := mkCronExpression [].

(* ------------------------------------------------------------------ *)
(** ** cron.go: parsing *)

Section Parsing.
Open Scope string_scope.
Open Scope Z_scope.

Definition checkValidValue (value : string) (ft : fieldType) : outcome Z :=
  match Atoi value with
  | inr _ =>
      Err ("the value in field " ++ cronFieldString (Field ft)
           ++ " must be number : " ++ value)
  | inl result =>
      if cronField_eqb (Field ft) cronFieldDayOfWeek && (result =? 0) then Ok result
      else if (MinValue ft <=? result) && (result <=? MaxValue ft) then Ok result
      else Err ("the value in field " ++ cronFieldString (Field ft)
                ++ " must be between " ++ Itoa (MinValue ft)
                ++ " and " ++ Itoa (MaxValue ft))
  end.

Definition parseRange (value : string) (ft : fieldType) : outcome valueRange :=
  if String.eqb value "*" then Ok (newValueRange (MinValue ft) (MaxValue ft))
  else
    let hyphenPos := Index value "-" in
    if hyphenPos =? -1 then
      result <- checkValidValue value ft ;;
      Ok (newValueRange result result)
    else
      let maxStr := slice value (hyphenPos + 1) (len value) in
      let minStr := slice value 0 hyphenPos in
      min <- checkValidValue minStr ft ;;
      max <- checkValidValue maxStr ft ;;
      let min := if cronField_eqb (Field ft) cronFieldDayOfWeek && (min =? 7)
                 then 0 else min in
      Ok (newValueRange min max).

Fixpoint replaceOrdinals_from (index : Z) (value : string) (list : list string) : string :=
  match list with
  | [] => value
  | name :: rest =>
      let replacement := Itoa (wrap (index + 1)) in
      replaceOrdinals_from (index + 1) (ReplaceAll value name replacement) rest
  end.

Definition replaceOrdinals (value : string) (list : list string) : string :=
  replaceOrdinals_from 0 (ToUpper value) list.

(** [x << n] with a shift count of type [int]: a negative count panics. *)
Definition shift (x n : Z) : outcome Z :=
  if n <? 0 then Panic (PanicRuntime "negative shift amount")
  else Ok (shl64 x n).

(** [for index := min; index <= max; index += step { Bits |= 1 << index }].
    One unit of [fuel] per iteration.  With [step] at least 1 the loop makes
    at most [max - min + 1] iterations that set a bit, and one more when
    [index += step] overflows; [stepFuel] covers them, and more fuel
    changes nothing ([stepLoop_fuel]). *)
Fixpoint stepLoop (fuel : nat) (bits index max step : Z) : outcome Z :=
  if max <? index then Ok bits
  else
    match fuel with
    | O => Ok bits
    | S f =>
        b <- shift 1 index ;;
        stepLoop f (Z.lor bits b) (wrap (index + step)) max step
    end.

Definition stepFuel (min max : Z) : nat := S (Z.to_nat (max - min + 1)).

(** The body of the loop over the comma separated terms of a field:
    the bit set after the term [field], from the bit set before it. *)
Definition parseTerm (ft : fieldType) (bits : Z) (field : string) : outcome Z :=
  let slashPos := Index field "/" in
  sr <- (if negb (slashPos =? -1) then
           let rangeStr := slice field 0 slashPos in
           vr <- parseRange rangeStr ft ;;
           let vr := if Index rangeStr "-" =? -1
                     then newValueRange (rangeMin vr) (MaxValue ft) else vr in
           let stepStr := slice field (slashPos + 1) (len field) in
           match Atoi stepStr with
           | inr e => Panic (PanicNumError stepStr e)
           | inl step =>
               if step <=? 0 then Panic (PanicMsg "step must be 1 or higher")
               else Ok (step, vr)
           end
         else
           vr <- parseRange field ft ;;
           Ok (-1, vr)) ;;
  let '(step, vr) := sr in
  if 1 <? step then
    stepLoop (stepFuel (rangeMin vr) (rangeMax vr)) bits (rangeMin vr) (rangeMax vr) step
  else if rangeMin vr =? rangeMax vr then
    b <- shift 1 (rangeMin vr) ;;
    Ok (Z.lor bits b)
  else
    hi <- shift maxUint64 (wrap (rangeMax vr + 1)) ;;
    lo <- shift maxUint64 (rangeMin vr) ;;
    Ok (Z.land (not64 hi) lo).

Fixpoint parseTerms (ft : fieldType) (bits : Z) (terms : list string) : outcome Z :=
  match terms with
  | [] => Ok bits
  | field :: rest =>
      bits' <- parseTerm ft bits field ;;
      parseTerms ft bits' rest
  end.

(** The token of a field after the names of months and days are replaced. *)
Definition ordinals (value : string) (ft : fieldType) : string :=
  if cronField_eqb (Field ft) cronFieldMonth then replaceOrdinals value months
  else if cronField_eqb (Field ft) cronFieldDayOfWeek then replaceOrdinals value days
  else value.

Definition parseField (value : string) (ft : fieldType) : outcome cronFieldBits :=
  if len value =? 0 then Err "value must not be empty"
  else
    let value := ordinals value ft in
    bits <- parseTerms ft (Bits (newFieldBits ft)) (Split value ",") ;;
    Ok (mkFieldBits ft bits).

Definition errFieldCount (found : Z) (expression : string) : string :=
  "cron expression must consist of 6 fields : found " ++ Itoa found
  ++ " in " ++ dquote ++ expression ++ dquote.

(** [for index, cronFieldType := range cronFieldTypes]. *)
Fixpoint parseFields (types : list fieldType) (index : nat) (tokens : list string)
    (acc : list cronFieldBits) : outcome CronExpression :=
  match types with
  | [] => Ok (mkCronExpression acc)
  | cronFieldType :: rest =>
      match nth_error tokens index with
      | None => Panic (PanicRuntime "index out of range")
      | Some token =>
          value <- parseField token cronFieldType ;;
          parseFields rest (S index) tokens (acc ++ [value])%list
      end
  end.

Definition ParseCronExpression (expression : string) : outcome CronExpression :=
  if len expression =? 0 then Err "cron expression must not be empty"
  else
    let tokens := Fields expression in
    if negb (Z.of_nat (List.length tokens) =? 6)
    then Err (errFieldCount (Z.of_nat (List.length tokens)) expression)
    else parseFields cronFieldTypes 0 tokens (fields newCronExpression).

End Parsing.

(** The values of a field that a bit set allows. *)
Definition allowed (bits v : Z) : bool := Z.testbit bits v.

Definition bitsOf (values : list Z) : Z :=
  fold_right (fun v acc => Z.lor (Z.shiftl 1 v) acc) 0 values.

(* ------------------------------------------------------------------ *)
(** ** package time *)

(** A [time.Time] is an instant, counted in nanoseconds from
    0001-01-01 00:00:00 UTC, and carries no location: the clock and the
    calendar are read in UTC throughout.  What is proved of seconds, hours
    or days of an instant is proved of values in UTC; in a location that
    changes its offset the readings of the program differ. *)
Module time.

Definition Time : Type := Z.
Definition Duration : Type := Z.

Definition Nanosecond : Duration := 1.
Definition Second : Duration := 1000000000.
Definition Minute : Duration := 60 * Second.
Definition Hour : Duration := 60 * Minute.

(** [time.Time{}] *)
Definition zero : Time := 0.

Definition IsZero (t : Time) : bool := t =? 0.
Definition Equal (t u : Time) : bool := t =? u.
Definition After (t u : Time) : bool := u <? t.
Definition Before (t u : Time) : bool := t <? u.
Definition Add (t : Time) (d : Duration) : Time := t + d.
Definition Sub (t u : Time) : Duration := t - u.

(** Whole seconds and whole days since the zero instant. *)
Definition seconds (t : Time) : Z := t / Second.
Definition daysSince (t : Time) : Z := seconds t / 86400.

Definition Time_Nanosecond (t : Time) : Z := t mod Second.
Definition Time_Second (t : Time) : Z := seconds t mod 60.
Definition Time_Minute (t : Time) : Z := (seconds t / 60) mod 60.
Definition Time_Hour (t : Time) : Z := (seconds t / 3600) mod 24.

(** 0001-01-01 is a Monday; Sunday is 0. *)
Definition Time_Weekday (t : Time) : Z := (daysSince t + 1) mod 7.

(** Year, month and day of the proleptic Gregorian calendar for a number of
    days since 0001-01-01; years are counted from 1 March in between. *)
Definition civil (days : Z) : Z * Z * Z :=
  let z := days + 306 in
  let era := z / 146097 in
  let doe := z mod 146097 in
  let yoe := (doe - doe / 1460 + doe / 36524 - doe / 146096) / 365 in
  let doy := doe - (365 * yoe + yoe / 4 - yoe / 100) in
  let mp := (5 * doy + 2) / 153 in
  let d := doy - (153 * mp + 2) / 5 + 1 in
  let m := if mp <? 10 then mp + 3 else mp - 9 in
  let y := yoe + era * 400 in
  (if m <=? 2 then y + 1 else y, m, d).

Definition Time_Year (t : Time) : Z := fst (fst (civil (daysSince t))).
Definition Time_Month (t : Time) : Z := snd (fst (civil (daysSince t))).
Definition Time_Day (t : Time) : Z := snd (civil (daysSince t)).

(** Days since 0001-01-01 of day [d] of month [m] (1..12) of year [y];
    [d] may lie outside the month. *)
Definition daysFromCivil (y m d : Z) : Z :=
  let y' := if m <=? 2 then y - 1 else y in
  let era := y' / 400 in
  let yoe := y' mod 400 in
  let mp := if 2 <? m then m - 3 else m + 9 in
  let doy := (153 * mp + 2) / 5 + d - 1 in
  let doe := yoe * 365 + yoe / 4 - yoe / 100 + doy in
  era * 146097 + doe - 306.

(** [time.Date] in UTC: values outside their usual ranges are normalised. *)
Definition Date (year mon day hour min sec nsec : Z) : Time :=
  let m0 := mon - 1 in
  let days := daysFromCivil (year + m0 / 12) (m0 mod 12 + 1) day in
  (((days * 24 + hour) * 60 + min) * 60 + sec) * Second + nsec.

Definition AddDate (t : Time) (years months days : Z) : Time :=
  Date (wrap (Time_Year t + years)) (wrap (Time_Month t + months))
       (wrap (Time_Day t + days))
       (Time_Hour t) (Time_Minute t) (Time_Second t) (Time_Nanosecond t).

End time.

(* ------------------------------------------------------------------ *)
(** ** cron.go: the next instant *)

(** The readings are those of [t] in UTC. *)
Definition getTimeValue (t : time.Time) (field : cronField) : Z :=
  match field with
  | cronFieldSecond => time.Time_Second t
  | cronFieldMinute => time.Time_Minute t
  | cronFieldHour => time.Time_Hour t
  | cronFieldDayOfMonth => time.Time_Day t
  | cronFieldMonth => time.Time_Month t
  | cronFieldDayOfWeek => time.Time_Weekday t
  end.

Definition addTime (t : time.Time) (field : cronField) (value : Z) : time.Time :=
  match field with
  | cronFieldSecond => time.Add t (wrap (value * time.Second))
  | cronFieldMinute => time.Add t (wrap (value * time.Minute))
  | cronFieldHour => time.Add t (wrap (value * time.Hour))
  | cronFieldDayOfMonth => time.AddDate t 0 0 value
  | cronFieldMonth => time.AddDate t 0 value 0
  | cronFieldDayOfWeek => time.AddDate t 0 0 value
  end.

(** [index] is 0 or a value read by [getTimeValue], never negative
    ([getTimeValue_nonneg]), so the shift does not panic. *)
Definition setNextBit (bitsValue index : Z) : Z :=
  let result := Z.land bitsValue (shl64 mask index) in
  if negb (result =? 0) then TrailingZeros64 result else -1.

(** [for ; current != next && count < maxAttempts; count++ { }]: the value
    of [count] after the loop, whose body is empty.  The loop makes at most
    [maxAttempts] iterations ([spin_differ], [spin_agree]). *)
Fixpoint spin (fuel : nat) (current next count : Z) : Z :=
  match fuel with
  | O => count
  | S f =>
      if negb (current =? next) && (count <? maxAttempts)
      then spin f current next (wrap (count + 1))
      else count
  end.

(** [CronExpression.next], by recursion on the fields still to visit. *)
Fixpoint next_from (fs : list cronFieldBits) (t : time.Time) : time.Time :=
  match fs with
  | [] => time.zero
  | field :: rest =>
      let temp := t in
      let current := getTimeValue temp (Field (Typ field)) in
      let next := setNextBit (Bits field) current in
      let '(temp, next) :=
        if next =? -1 then
          let amount := wrap (wrap (MaxValue (Typ field) - current) + 1) in
          (addTime temp (Field (Typ field)) amount, setNextBit (Bits field) 0)
        else (temp, next) in
      if next =? current then t
      else
        let count := 0 in
        let current := getTimeValue temp (Field (Typ field)) in
        let count := spin (S (Z.to_nat maxAttempts)) current next count in
        if maxAttempts <=? count then time.zero
        else next_from rest t
  end.

Definition next (expression : CronExpression) (t : time.Time) : time.Time :=
  next_from (fields expression) t.

(** [for i := 0; i < maxAttempts; i++]: [attempts] iterations are left. *)
Fixpoint NextTime_loop (attempts : nat) (expression : CronExpression)
    (t : time.Time) : time.Time :=
  match attempts with
  | O => time.zero
  | S n =>
      let result := next expression t in
      if time.IsZero result || time.Equal result t then result
      else NextTime_loop n expression result
  end.

Definition NextTime (expression : CronExpression) (t : time.Time) : time.Time :=
  let t := time.Add t (1 * time.Second - time.Time_Nanosecond t * time.Nanosecond) in
  NextTime_loop (Z.to_nat maxAttempts) expression t.

(** An instant satisfies a field when the bit of its value is set. *)
Definition fieldMatches (field : cronFieldBits) (t : time.Time) : bool :=
  allowed (Bits field) (getTimeValue t (Field (Typ field))).

Definition matchesAll (expression : CronExpression) (t : time.Time) : bool :=
  forallb (fun field => fieldMatches field t) (fields expression).

(* ------------------------------------------------------------------ *)
(** ** task.go *)

(** A [Task] is a function value: [None] is nil, [Some n] the callable
    named [n], whose body the scheduler never looks into. *)
Definition Task : Type := option nat.

Record ScheduledTask : Type := mkScheduledTask {
  id : Z;
  task : Task;
  triggerTime : time.Time;
  period : time.Duration;
  fixedRate : bool
}.

(** The composite literal leaves [id] out: it gets the zero value. *)
Definition NewScheduledTask (task : Task) (triggerTime : time.Time)
    (period : time.Duration) (fixedRate : bool) : ScheduledTask :=
  let period := if period <? 0 then 0 else period in
  mkScheduledTask 0 task triggerTime period fixedRate.

Definition IsPeriodic (scheduledTask : ScheduledTask) : bool :=
  negb (period scheduledTask =? 0).

Definition IsFixedRate (scheduledTask : ScheduledTask) : bool :=
  fixedRate scheduledTask.

Definition GetDelay (scheduledTask : ScheduledTask) (now : time.Time) : time.Duration :=
  time.Sub (triggerTime scheduledTask) now.

(** A [*ScheduledTask] is an address in the store of allocated tasks; the
    queue, the channels and the workers all hold such addresses, so a write
    through one of them is seen through the others. *)
Definition ptr : Type := nat.
Definition store : Type := list ScheduledTask.

Definition deref (h : store) (p : ptr) : outcome ScheduledTask :=
  match nth_error h p with
  | Some scheduledTask => Ok scheduledTask
  | None => Panic (PanicRuntime "invalid memory address or nil pointer dereference")
  end.

Fixpoint assign (h : store) (p : ptr) (scheduledTask : ScheduledTask) : store :=
  match h, p with
  | [], _ => []
  | _ :: rest, O => scheduledTask :: rest
  | x :: rest, S p' => x :: assign rest p' scheduledTask
  end.

Definition setTriggerTime (scheduledTask : ScheduledTask) (t : time.Time) : ScheduledTask :=
  mkScheduledTask (id scheduledTask) (task scheduledTask) t
                  (period scheduledTask) (fixedRate scheduledTask).

(** [ScheduledTaskQueue]: a slice of task addresses. *)
Definition ScheduledTaskQueue : Type := list ptr.

Definition IsEmpty (queue : ScheduledTaskQueue) : bool :=
  Z.of_nat (List.length queue) =? 0.

Definition triggerOf (h : store) (p : ptr) : time.Time :=
  match nth_error h p with
  | Some scheduledTask => triggerTime scheduledTask
  | None => time.zero
  end.

(** [Less(i, j)] *)
Definition Less (h : store) (p q : ptr) : bool :=
  time.Before (triggerOf h p) (triggerOf h q).

Fixpoint insertByTriggerTime (h : store) (p : ptr) (queue : ScheduledTaskQueue)
    : ScheduledTaskQueue :=
  match queue with
  | [] => [p]
  | q :: rest =>
      if Less h q p then q :: insertByTriggerTime h p rest else p :: q :: rest
  end.

(** [sort.Sort(queue)] leaves some permutation of the queue that is ordered
    by [Less]; the model picks the one that keeps tasks with equal trigger
    times in their order.  [sort.Sort] does not promise that order: among
    equal trigger times the queue of the program may differ. *)
Definition SorByTriggerTime (h : store) (queue : ScheduledTaskQueue) : ScheduledTaskQueue :=
  fold_right (insertByTriggerTime h) [] queue.

Section Reschedulable.

(** The interfaces [ScheduledExecutor] and [Trigger]: a value of an
    interface type is nil ([None]) or holds an implementation. *)
Variable ScheduledExecutorImpl : Type.
Variable TriggerImpl : Type.

Record ReschedulableTask : Type := mkReschedulableTask {
  executor : option ScheduledExecutorImpl;
  trigger : option TriggerImpl
}.

Definition NewReschedulableTask (executor : option ScheduledExecutorImpl)
    (trigger : option TriggerImpl) : outcome ReschedulableTask :=
  match executor with
  | None => Panic (PanicMsg "executor cannot be nil")
  | Some _ =>
      match trigger with
      | Some _ => Panic (PanicMsg "trigger cannot be nil")
      | None => Ok (mkReschedulableTask executor trigger)
      end
  end.

(** The receiver is a pointer, possibly nil; the result is a
    [*ScheduledTask]. *)
Definition ReschedulableTask_Schedule (task : option ReschedulableTask) : option ptr :=
  None.

End Reschedulable.

Arguments executor {ScheduledExecutorImpl TriggerImpl} r.
Arguments trigger {ScheduledExecutorImpl TriggerImpl} r.
Arguments NewReschedulableTask {ScheduledExecutorImpl TriggerImpl} executor trigger.
Arguments ReschedulableTask_Schedule {ScheduledExecutorImpl TriggerImpl} task.

(* ------------------------------------------------------------------ *)
(** ** executor.go *)

(** The executor together with what surrounds its control loop.  The first
    two fields are those of [ScheduledTaskExecutor] that the code reads or
    writes; [lastClock] is the local variable of [run]; the others are the
    memory, the goroutines and the clock of the program.  The timer is not
    kept: it is armed on the head of the queue at the top of each turn of
    the loop, which [enabled] accounts for. *)
Record system : Type := mkSystem {
  nextSequence : Z;
  taskQueue : ScheduledTaskQueue;
  lastClock : time.Time;
  heap : store;
  sending : list ptr;    (* goroutines blocked in [newTaskChannel <- p] *)
  running : list ptr;    (* workers inside [scheduledTask.task(nil)] *)
  started : list ptr;    (* the calls of [startTask] so far, in order *)
  now : time.Time        (* what [time.Now()] returns *)
}.

(** [NewScheduledTaskExecutor], and [run] up to its loop, at instant [t].
    The goroutine of [run] is taken to read [lastClock := time.Now()] at
    the instant the executor is created; in the program it does so when it
    first runs, which may be later. *)
Definition NewScheduledTaskExecutor (t : time.Time) : system :=
  mkSystem 0 [] t [] [] [] [] t.

Definition calculateTriggerTime (w : system) (delay : time.Duration) : time.Time :=
  let delay := if delay <? 0 then 0 else delay in
  time.Add (now w) delay.

(** [addNewTask]: the caller offers the address on [newTaskChannel] and
    waits there until the loop takes it. *)
Definition addNewTask (w : system) (p : ptr) : system :=
  mkSystem (nextSequence w) (taskQueue w) (lastClock w) (heap w)
           (sending w ++ [p]) (running w) (started w) (now w).

Definition allocate (w : system) (scheduledTask : ScheduledTask) : system * ptr :=
  (mkSystem (nextSequence w) (taskQueue w) (lastClock w) (heap w ++ [scheduledTask])
            (sending w) (running w) (started w) (now w),
   List.length (heap w)).

Definition Schedule (w : system) (task : Task) (delay : time.Duration)
    : outcome (system * ptr) :=
  match task with
  | None => Panic (PanicMsg "task cannot be nil")
  | Some _ =>
      let scheduledTask := NewScheduledTask task (calculateTriggerTime w delay) 0 false in
      let '(w', p) := allocate w scheduledTask in
      Ok (addNewTask w' p, p)
  end.

Definition ScheduleWithFixedDelay (w : system) (task : Task)
    (initialDelay delay : time.Duration) : outcome (system * ptr) :=
  match task with
  | None => Panic (PanicMsg "task cannot be nil")
  | Some _ =>
      let scheduledTask :=
        NewScheduledTask task (calculateTriggerTime w initialDelay) delay false in
      let '(w', p) := allocate w scheduledTask in
      Ok (addNewTask w' p, p)
  end.

Definition ScheduleAtWithRate (w : system) (task : Task)
    (initialDelay period : time.Duration) : outcome (system * ptr) :=
  match task with
  | None => Panic (PanicMsg "task cannot be nil")
  | Some _ =>
      let scheduledTask :=
        NewScheduledTask task (calculateTriggerTime w initialDelay) period true in
      let '(w', p) := allocate w scheduledTask in
      Ok (addNewTask w' p, p)
  end.

(** [append(queue[:index], queue[index+1:]...)] on the slice of length
    [qlen] over the array [arr]: the tail moves down inside the same array,
    whose last slots keep their old content.  [queue[index+1:]] panics when
    [index+1] exceeds the length; so does [queue[:index]] for a negative
    [index]. *)
Definition removeAt (arr : list ptr) (qlen : nat) (index : Z) : outcome (list ptr * nat) :=
  if index <? 0 then Panic (PanicRuntime "slice bounds out of range [:-1]")
  else if Z.of_nat qlen <? index + 1
       then Panic (PanicRuntime ("slice bounds out of range ["
                                 ++ Itoa (index + 1) ++ ":" ++ Itoa (Z.of_nat qlen) ++ "]")%string)
  else
    let i := Z.to_nat index in
    Ok ((firstn i arr ++ firstn (qlen - i - 1) (skipn (S i) arr) ++ skipn (qlen - 1) arr)%list,
        (qlen - 1)%nat).

(** The state of the loop over the queue on a timer event: the store, the
    array under the queue, the length of [executor.taskQueue], the workers
    and the log of [startTask]. *)
Record scan : Type := mkScan {
  scanHeap : store;
  scanArr : list ptr;
  scanLen : nat;
  scanRunning : list ptr;
  scanStarted : list ptr
}.

(** [for index, scheduledTask := range executor.taskQueue]: the range
    expression is read once, so the loop visits the indices of the queue as
    it was, and reads each element from the array as it now is. *)
Fixpoint scanQueue (indices : list nat) (lastClock clock : time.Time) (s : scan)
    : outcome scan :=
  match indices with
  | [] => Ok s
  | index :: rest =>
      match nth_error (scanArr s) index with
      | None => Ok s
      | Some p =>
          scheduledTask <- deref (scanHeap s) p ;;
          if time.After lastClock (triggerTime scheduledTask) then
            scanQueue rest lastClock clock s
          else if time.After (triggerTime scheduledTask) clock
                  || time.IsZero (triggerTime scheduledTask) then
            Ok s
          else
            let scheduledTask' :=
              if IsFixedRate scheduledTask
              then setTriggerTime scheduledTask
                     (time.Add (triggerTime scheduledTask) (period scheduledTask))
              else scheduledTask in
            let h := assign (scanHeap s) p scheduledTask' in
            q <- (if negb (IsPeriodic scheduledTask') || negb (IsFixedRate scheduledTask')
                  then removeAt (scanArr s) (scanLen s) (Z.of_nat index)
                  else Ok (scanArr s, scanLen s)) ;;
            (* startTask *)
            scanQueue rest lastClock clock
              (mkScan h (fst q) (snd q) (scanRunning s ++ [p]) (scanStarted s ++ [p]))
      end
  end.

(** [case clock := <-executor.timer.C] *)
Definition onTimer (w : system) (clock : time.Time) : outcome system :=
  s <- scanQueue (seq 0 (List.length (taskQueue w))) (lastClock w) clock
         (mkScan (heap w) (taskQueue w) (List.length (taskQueue w))
                 (running w) (started w)) ;;
  Ok (mkSystem (nextSequence w)
               (SorByTriggerTime (scanHeap s) (firstn (scanLen s) (scanArr s)))
               clock (scanHeap s) (sending w) (scanRunning s) (scanStarted s) (now w)).

Fixpoint removeFirst (p : ptr) (l : list ptr) : list ptr :=
  match l with
  | [] => []
  | x :: rest => if Nat.eqb x p then rest else x :: removeFirst p rest
  end.

(** [case newScheduledTask := <-executor.newTaskChannel] *)
Definition onNewTask (w : system) (newScheduledTask : ptr) : outcome system :=
  Ok (mkSystem (nextSequence w)
               (SorByTriggerTime (heap w) (taskQueue w ++ [newScheduledTask]))
               (lastClock w) (heap w) (removeFirst newScheduledTask (sending w))
               (running w) (started w) (now w)).

(** The loop that looks for the task to remove: the index of the first
    task of the queue whose [id] is that of [task], or -1. *)
Fixpoint findTaskIndex (h : store) (queue : ScheduledTaskQueue) (task : ptr) (index : Z)
    : outcome Z :=
  match queue with
  | [] => Ok (-1)
  | p :: rest =>
      scheduledTask <- deref h p ;;
      wanted <- deref h task ;;
      if id scheduledTask =? id wanted then Ok index
      else findTaskIndex h rest task (index + 1)
  end.

(** [case task := <-executor.removeTaskChannel] *)
Definition onRemoveTask (w : system) (task : ptr) : outcome system :=
  taskIndex <- findTaskIndex (heap w) (taskQueue w) task 0 ;;
  q <- removeAt (taskQueue w) (List.length (taskQueue w)) taskIndex ;;
  Ok (mkSystem (nextSequence w) (firstn (snd q) (fst q)) (lastClock w) (heap w)
               (sending w) (running w) (started w) (now w)).

(** The deferred function of the worker started by [startTask], run when
    the body of the task returns. *)
Definition onTaskDone (w : system) (p : ptr) : outcome system :=
  scheduledTask <- deref (heap w) p ;;
  let scheduledTask' :=
    setTriggerTime scheduledTask (calculateTriggerTime w (period scheduledTask)) in
  let h := assign (heap w) p scheduledTask' in
  Ok (mkSystem (nextSequence w) (taskQueue w) (lastClock w) h
               (if negb (IsFixedRate scheduledTask') then sending w ++ [p] else sending w)
               (removeFirst p (running w)) (started w) (now w)).

(** What can happen next in the program. *)
Inductive action : Type :=
| Elapse (d : time.Duration)                     (* time passes *)
| CallSchedule (task : Task) (delay : time.Duration)
| CallScheduleWithFixedDelay (task : Task) (initialDelay delay : time.Duration)
| CallScheduleAtWithRate (task : Task) (initialDelay period : time.Duration)
| TimerFires                                     (* the loop reads timer.C *)
| ReceiveNewTask (p : ptr)                       (* the loop reads newTaskChannel *)
| ReceiveRemoveTask (p : ptr)                    (* the loop reads removeTaskChannel *)
| TaskReturns (p : ptr).                         (* a task body returns *)

Definition member (p : ptr) (l : list ptr) : bool := existsb (Nat.eqb p) l.

(** The timer is armed only on a queue that is not empty, for the delay of
    its head, and so fires no earlier than the head is due; the loop takes
    from the channel only what a sender offers; a body returns only in a
    worker that runs it.  Nothing in these files sends on
    [removeTaskChannel]: a remove event is whatever address a caller in the
    package sends. *)
Definition enabled (w : system) (a : action) : bool :=
  match a with
  | Elapse d => 0 <=? d
  | TimerFires =>
      match taskQueue w with
      | [] => false
      | p :: _ => triggerOf (heap w) p <=? now w
      end
  | ReceiveNewTask p => member p (sending w)
  | ReceiveRemoveTask p => (p <? List.length (heap w))%nat
  | TaskReturns p => member p (running w)
  | _ => true
  end.

Definition step (w : system) (a : action) : outcome system :=
  match a with
  | Elapse d =>
      Ok (mkSystem (nextSequence w) (taskQueue w) (lastClock w) (heap w)
                   (sending w) (running w) (started w) (time.Add (now w) d))
  | CallSchedule task delay => r <- Schedule w task delay ;; Ok (fst r)
  | CallScheduleWithFixedDelay task initialDelay delay =>
      r <- ScheduleWithFixedDelay w task initialDelay delay ;; Ok (fst r)
  | CallScheduleAtWithRate task initialDelay period =>
      r <- ScheduleAtWithRate w task initialDelay period ;; Ok (fst r)
  | TimerFires => onTimer w (now w)
  | ReceiveNewTask p => onNewTask w p
  | ReceiveRemoveTask p => onRemoveTask w p
  | TaskReturns p => onTaskDone w p
  end.

(** An execution: [None] when some action could not happen where it
    stands, otherwise the state reached or the panic that ended it. *)
Fixpoint execute (w : system) (trace : list action) : option (outcome system) :=
  match trace with
  | [] => Some (Ok w)
  | a :: rest =>
      if enabled w a then
        match step w a with
        | Ok w' => execute w' rest
        | Err msg => Some (Err msg)
        | Panic p => Some (Panic p)
        end
      else None
  end.

(** How many times the task at [p] has been handed to [startTask]. *)
Definition timesStarted (w : system) (p : ptr) : nat :=
  List.length (filter (Nat.eqb p) (started w)).

(* ------------------------------------------------------------------ *)
(** ** task.go: scheduler tasks and their options *)

Section SchedulerTasks.

(** [*time.Location], [time.Local] and [time.LoadLocation], which answers
    with a location or with an error, of which the text is kept. *)
Variable Location : Type.
Variable Local : Location.
Variable LoadLocation : string -> Location + string.

(** [TimeFunction] is declared in another file of the package; [WithStartTime]
    calls it without arguments and stores the result as a [time.Time]. *)
Definition TimeFunction : Type := unit -> time.Time.

(** The field [task] is called [body] here, [task] being taken by
    [ScheduledTask]. *)
Record SchedulerTask : Type := mkSchedulerTask {
  body : Task;
  startTime : time.Time;
  location : Location
}.

(** [type Option func(task *SchedulerTask)]: an option changes the task it
    is given, or panics. *)
Definition Option : Type := SchedulerTask -> outcome SchedulerTask.

Definition WithStartTime (startTime : TimeFunction) : Option :=
  fun task => Ok (mkSchedulerTask (body task) (startTime tt) (location task)).

Definition WithLocation (location : string) : Option :=
  fun task =>
    match LoadLocation location with
    | inr err => Panic (PanicMsg err)
    | inl loadedLocation =>
        Ok (mkSchedulerTask (body task) (startTime task) loadedLocation)
    end.

(** [for _, option := range options { option(runnableTask) }] *)
Fixpoint applyOptions (options : list Option) (runnableTask : SchedulerTask)
    : outcome SchedulerTask :=
  match options with
  | [] => Ok runnableTask
  | option :: rest =>
      runnableTask' <- option runnableTask ;;
      applyOptions rest runnableTask'
  end.

Definition NewSchedulerTask (task : Task) (options : list Option)
    : outcome SchedulerTask :=
  match task with
  | None => Panic (PanicMsg "task cannot be nil")
  | Some _ => applyOptions options (mkSchedulerTask task time.zero Local)
  end.

(** The options that the package offers. *)
Inductive packageOption : Option -> Prop :=
| isWithStartTime (startTime : TimeFunction) : packageOption (WithStartTime startTime)
| isWithLocation (location : string) : packageOption (WithLocation location).

End SchedulerTasks.

Arguments body {Location} s.
Arguments startTime {Location} s.
Arguments location {Location} s.
Arguments mkSchedulerTask {Location} body startTime location.
Arguments WithStartTime {Location} startTime.
Arguments WithLocation {Location} LoadLocation location.
Arguments applyOptions {Location} options runnableTask.
Arguments NewSchedulerTask {Location} Local task options.
Arguments packageOption {Location} LoadLocation _.

(* ================================================================== *)
(** * Vocabulary of the properties *)

Section Vocabulary.
Open Scope string_scope.
Open Scope Z_scope.

(** The expression that a string parses to, for strings that do parse. *)
Definition parsed (s : string) : CronExpression :=
  match ParseCronExpression s with
  | Ok expression => expression
  | _ => newCronExpression
  end.

(** *** Terms with a step *)

(** The two parts of a term that has a slash. *)
Definition rangePart (field : string) : string := slice field 0 (Index field "/").

Definition stepPart (field : string) : option string :=
  if Index field "/" =? -1 then None
  else Some (slice field (Index field "/" + 1) (len field)).

(** The step is not a number that [strconv.Atoi] reads, or is not positive. *)
Definition badStep (stepStr : string) : bool :=
  match Atoi stepStr with
  | inr _ => true
  | inl step => step <=? 0
  end.

(** Every byte of the string is an ASCII character. *)
Fixpoint isASCII (s : string) : bool :=
  match s with
  | EmptyString => true
  | String c s' => (nat_of_ascii c <? 128)%nat && isASCII s'
  end.

(** What [parseField] panics with on such a step. *)
Definition stepPanic (stepStr : string) : panicValue :=
  match Atoi stepStr with
  | inr e => PanicNumError stepStr e
  | inl _ => PanicMsg "step must be 1 or higher"
  end.

(** *** Terms written with digits and a slash only *)

Definition isDigit (c : ascii) : bool :=
  match digitVal c with Some _ => true | None => false end.

Fixpoint allDigits (s : string) : bool :=
  match s with
  | EmptyString => true
  | String c s' => isDigit c && allDigits s'
  end.

Definition plainByte (c : ascii) : bool := isDigit c || Ascii.eqb c "/".

Fixpoint plain (s : string) : bool :=
  match s with
  | EmptyString => true
  | String c s' => plainByte c && plain s'
  end.

(** The names of months and days all start with a capital letter. *)
Definition startsWithLetter (name : string) : bool :=
  match name with
  | EmptyString => false
  | String c _ => (65 <=? nat_of_ascii c)%nat && (nat_of_ascii c <=? 90)%nat
  end.

(** The values that the loop over a step visits: [index], [index + step],
    and so on up to [max]. *)
Definition onStep (index max step v : Z) : bool :=
  (index <=? v) && (v <=? max) && ((v - index) mod step =? 0).

(** *** Executions of the engine *)

(** [time.Millisecond] *)
Definition Millisecond : time.Duration := 1000000.

(** A fresh executor, created at 2021-01-01 00:00:00 UTC, and the state
    that an execution from it ends in. *)
Definition freshExecutor : system := NewScheduledTaskExecutor (time.Date 2021 1 1 0 0 0 0).

Definition stateAfter (trace : list action) : system :=
  match execute freshExecutor trace with
  | Some (Ok w) => w
  | _ => freshExecutor
  end.

(** [Schedule(task, 0)] 5ms after the executor is created; the loop takes
    the task, which lies at address 0; the timer fires and the task is
    started; 50ms later its body returns. *)
Definition oneShotRun (task : Task) : list action :=
  [ Elapse (5 * Millisecond);
    CallSchedule task 0;
    ReceiveNewTask 0%nat;
    TimerFires;
    Elapse (50 * Millisecond);
    TaskReturns 0%nat ].

(** Two tasks are scheduled, the first due after 10s and the second after
    20s, and the loop takes both. *)
Definition twoTasksRun : list action :=
  [ CallSchedule (Some 1%nat) (10 * time.Second);
    CallSchedule (Some 2%nat) (20 * time.Second);
    ReceiveNewTask 0%nat;
    ReceiveNewTask 1%nat ].

(** No task of the queue carries the [id] wanted. *)
Definition idAbsent (h : store) (queue : ScheduledTaskQueue) (wanted : Z) : bool :=
  forallb (fun p => match nth_error h p with
                    | Some scheduledTask => negb (id scheduledTask =? wanted)
                    | None => false
                    end) queue.

End Vocabulary.

(** ** Vocabulary of the further properties *)

Section MoreVocabulary.
Open Scope string_scope.
Open Scope Z_scope.

(** *** Bytes of a string *)

(** The byte [c] occurs in [s]. *)
Fixpoint occurs (c : ascii) (s : string) : bool :=
  match s with
  | EmptyString => false
  | String d s' => Ascii.eqb d c || occurs c s'
  end.

(** *** Instants *)

(** The start of the second that follows the one [t] lies in. *)
Definition nextSecond (t : time.Time) : time.Time :=
  (time.seconds t + 1) * time.Second.

(** The length of the unit that [addTime] adds for a field, in UTC: a
    second, a minute, an hour, or a day for the two fields of days.  For
    the month there is none (months differ in length). *)
Definition unitOf (field : cronField) : option time.Duration :=
  match field with
  | cronFieldSecond => Some time.Second
  | cronFieldMinute => Some time.Minute
  | cronFieldHour => Some time.Hour
  | cronFieldDayOfMonth => Some (24 * time.Hour)
  | cronFieldMonth => None
  | cronFieldDayOfWeek => Some (24 * time.Hour)
  end.

(** The instant that [next] moves to when a field has no bit at or after
    its current value. *)
Definition carry (t : time.Time) (ft : fieldType) : time.Time :=
  addTime t (Field ft)
          (wrap (wrap (MaxValue ft - getTimeValue t (Field ft)) + 1)).

(** *** Bit sets of fields *)

(** Every value of the bit set lies within the legal range of the field. *)
Definition withinRange (ft : fieldType) (bits : Z) : Prop :=
  forall v, Z.testbit bits v = true -> MinValue ft <= v <= MaxValue ft.

(** *** Tokens without letters *)

Definition isLetter (c : ascii) : bool :=
  let n := nat_of_ascii c in
  ((65 <=? n) && (n <=? 90) || (97 <=? n) && (n <=? 122))%nat.

Fixpoint noLetters (s : string) : bool :=
  match s with
  | EmptyString => true
  | String c s' => negb (isLetter c) && noLetters s'
  end.

(** *** Tasks at a timer event *)

(** The three cases of the loop over the queue, for the previous timer
    event at [lastClock] and the present one at [clock]: the task is passed
    over, the loop stops at it, or the task is started. *)
Definition passedOver (lastClock : time.Time) (scheduledTask : ScheduledTask) : bool :=
  time.After lastClock (triggerTime scheduledTask).

Definition notYetDue (clock : time.Time) (scheduledTask : ScheduledTask) : bool :=
  time.After (triggerTime scheduledTask) clock
  || time.IsZero (triggerTime scheduledTask).

Definition due (lastClock clock : time.Time) (scheduledTask : ScheduledTask) : bool :=
  negb (passedOver lastClock scheduledTask) && negb (notYetDue clock scheduledTask).

(** The task leaves the queue when it is started. *)
Definition leavesQueue (scheduledTask : ScheduledTask) : bool :=
  negb (IsPeriodic scheduledTask) || negb (IsFixedRate scheduledTask).

(** The queue is in the order of the trigger times. *)
Definition ordered (h : store) (queue : ScheduledTaskQueue) : Prop :=
  StronglySorted (fun p q => triggerOf h p <= triggerOf h q) queue.

(** *** Scheduling calls *)

(** The call returns the next free address, at which [scheduledTask] now
    lies, and has offered that address to the loop; the queue is as it
    was. *)
Definition handedOver (w : system) (r : outcome (system * ptr))
    (scheduledTask : ScheduledTask) : Prop :=
  exists w',
    r = Ok (w', List.length (heap w))
    /\ heap w' = (heap w ++ [scheduledTask])%list
    /\ taskQueue w' = taskQueue w
    /\ sending w' = (sending w ++ [List.length (heap w)])%list.

(** *** More executions *)

(** One task submitted with no delay and taken by the loop. *)
Definition oneDueRun : list action :=
  [ CallSchedule (Some 1%nat) 0; ReceiveNewTask 0%nat ].

(** The same with a fixed-rate task of period one second. *)
Definition fixedRateRun : list action :=
  [ CallScheduleAtWithRate (Some 1%nat) 0 time.Second; ReceiveNewTask 0%nat ].

(** Two tasks submitted with no delay, both taken by the loop. *)
Definition twoDueRun : list action :=
  [ CallSchedule (Some 1%nat) 0; CallSchedule (Some 2%nat) 0;
    ReceiveNewTask 0%nat; ReceiveNewTask 1%nat ].

(** Two tasks with no delay and one due in ten seconds, all taken. *)
Definition threeTasksRun : list action :=
  [ CallSchedule (Some 1%nat) 0; CallSchedule (Some 2%nat) 0;
    CallSchedule (Some 3%nat) (10 * time.Second);
    ReceiveNewTask 0%nat; ReceiveNewTask 1%nat; ReceiveNewTask 2%nat ].

(** The instant at which [freshExecutor] is created. *)
Definition startOfYear : time.Time := time.Date 2021 1 1 0 0 0 0.

(** Three tasks as in [threeTasksRun], then a timer event one millisecond
    later: it starts the first task only and sets [lastClock] past the
    trigger time of the second. *)
Definition lostTaskRun : list action :=
  (threeTasksRun ++ [Elapse Millisecond; TimerFires])%list.

(** The state after a timer event that does not panic. *)
Definition afterTimer (w : system) (clock : time.Time) : system :=
  match onTimer w clock with
  | Ok w' => w'
  | _ => w
  end.

(** The state in which time has gone on by [d]. *)
Definition elapsed (w : system) (d : time.Duration) : system :=
  mkSystem (nextSequence w) (taskQueue w) (lastClock w) (heap w)
           (sending w) (running w) (started w) (time.Add (now w) d).

(** No task has been given an identity and the sequence counter has not
    moved. *)
Definition noIdentity (w : system) : Prop :=
  nextSequence w = 0 /\ Forall (fun scheduledTask => id scheduledTask = 0) (heap w).

(** *** Names of months and days *)

Definition lowerByte (c : ascii) : ascii :=
  let n := nat_of_ascii c in
  if (65 <=? n)%nat && (n <=? 90)%nat then ascii_of_nat (n + 32) else c.

(** The spellings of a name in capital and small letters. *)
Fixpoint casings (name : string) : list string :=
  match name with
  | EmptyString => [EmptyString]
  | String c rest =>
      flat_map (fun t => [String c t; String (lowerByte c) t]) (casings rest)
  end.

(** The field parses to the set that holds [value] alone. *)
Definition parsesTo (ft : fieldType) (token : string) (value : Z) : bool :=
  match parseField token ft with
  | Ok fb => (Bits fb =? bitsOf [value]) && cronField_eqb (Field (Typ fb)) (Field ft)
  | _ => false
  end.

(** Every spelling of every name of the list parses, in the field, to the
    number of the name, counted from 1. *)
Definition namesParse (ft : fieldType) (names : list string) : bool :=
  forallb (fun i => forallb (fun s => parsesTo ft s (Z.of_nat i + 1))
                            (casings (nth i names EmptyString)))
          (seq 0 (List.length names)).

End MoreVocabulary.

(* ================================================================== *)
(** * Properties *)

(** ** Instants and calendar values *)

Lemma Time_Nanosecond_range (t : time.Time) :
  0 <= time.Time_Nanosecond t < time.Second.
Proof.
  unfold time.Time_Nanosecond, time.Second. apply Z.mod_pos_bound. lia.
Qed.

Lemma civil_month_day (days : Z) :
  1 <= snd (fst (time.civil days)) <= 12 /\ 1 <= snd (time.civil days) <= 31.
Proof.
  unfold time.civil.
  set (doe := (days + 306) mod 146097).
  assert (Hdoe : 0 <= doe < 146097) by (apply Z.mod_pos_bound; lia).
  set (yoe := (doe - doe / 1460 + doe / 36524 - doe / 146096) / 365).
  set (doy := doe - (365 * yoe + yoe / 4 - yoe / 100)).
  set (mp := (5 * doy + 2) / 153).
  assert (Hyoe : 0 <= yoe <= 399).
  { unfold yoe.
    pose proof (Z.div_mod doe 1460 ltac:(lia)).
    pose proof (Z.mod_pos_bound doe 1460 ltac:(lia)).
    pose proof (Z.div_mod doe 36524 ltac:(lia)).
    pose proof (Z.mod_pos_bound doe 36524 ltac:(lia)).
    pose proof (Z.div_mod doe 146096 ltac:(lia)).
    pose proof (Z.mod_pos_bound doe 146096 ltac:(lia)).
    split.
    - apply Z.div_pos; lia.
    - apply Z.lt_succ_r, Z.div_lt_upper_bound; lia. }
  assert (Hdoy : 0 <= doy <= 365).
  { unfold doy, yoe.
    pose proof (Z.div_mod doe 1460 ltac:(lia)).
    pose proof (Z.mod_pos_bound doe 1460 ltac:(lia)).
    pose proof (Z.div_mod doe 36524 ltac:(lia)).
    pose proof (Z.mod_pos_bound doe 36524 ltac:(lia)).
    pose proof (Z.div_mod doe 146096 ltac:(lia)).
    pose proof (Z.mod_pos_bound doe 146096 ltac:(lia)).
    fold yoe.
    pose proof (Z.div_mod (doe - doe / 1460 + doe / 36524 - doe / 146096) 365 ltac:(lia)).
    pose proof (Z.mod_pos_bound (doe - doe / 1460 + doe / 36524 - doe / 146096) 365 ltac:(lia)).
    fold yoe in H5.
    pose proof (Z.div_mod yoe 4 ltac:(lia)).
    pose proof (Z.mod_pos_bound yoe 4 ltac:(lia)).
    pose proof (Z.div_mod yoe 100 ltac:(lia)).
    pose proof (Z.mod_pos_bound yoe 100 ltac:(lia)).
    lia. }
  assert (Hmp : 0 <= mp <= 11).
  { unfold mp. split.
    - apply Z.div_pos; lia.
    - apply Z.lt_succ_r, Z.div_lt_upper_bound; lia. }
  cbn [fst snd].
  split.
  - destruct (mp <? 10) eqn:E; [apply Z.ltb_lt in E | apply Z.ltb_ge in E]; lia.
  - pose proof (Z.div_mod (5 * doy + 2) 153 ltac:(lia)).
    pose proof (Z.mod_pos_bound (5 * doy + 2) 153 ltac:(lia)).
    fold mp in H, H0.
    pose proof (Z.div_mod (153 * mp + 2) 5 ltac:(lia)).
    pose proof (Z.mod_pos_bound (153 * mp + 2) 5 ltac:(lia)).
    lia.
Qed.

(** Every calendar value is a legal shift count. *)
Lemma getTimeValue_nonneg (t : time.Time) (field : cronField) :
  0 <= getTimeValue t field.
Proof.
  destruct field; cbn [getTimeValue];
    unfold time.Time_Second, time.Time_Minute, time.Time_Hour, time.Time_Weekday,
           time.Time_Day, time.Time_Month.
  1-3, 6: apply Z.mod_pos_bound; lia.
  - pose proof (civil_month_day (time.daysSince t)); lia.
  - pose proof (civil_month_day (time.daysSince t)); lia.
Qed.

(** ** The next instant *)

(** The counting loop of [next] has an empty body: it leaves [count] at 0
    when the two values agree and runs it up to [maxAttempts] otherwise. *)
Lemma spin_differ (fuel : nat) (current next count : Z) :
  current <> next -> 0 <= count <= maxAttempts ->
  (Z.to_nat (maxAttempts - count) <= fuel)%nat ->
  spin fuel current next count = maxAttempts.
Proof.
  unfold maxAttempts. revert count.
  induction fuel as [|fuel IH]; intros count Hne Hc Hf; cbn [spin].
  - lia.
  - apply Z.eqb_neq in Hne. rewrite Hne. cbn [negb andb].
    unfold maxAttempts.
    destruct (count <? 366) eqn:E.
    + apply Z.ltb_lt in E.
      assert (Hw : wrap (count + 1) = count + 1).
      { unfold wrap. rewrite Z.mod_small; lia. }
      rewrite Hw. apply IH; try lia.
    + apply Z.ltb_ge in E. lia.
Qed.

Lemma spin_agree (fuel : nat) (current count : Z) :
  spin fuel current current count = count.
Proof.
  destruct fuel; cbn [spin]; [reflexivity|].
  now rewrite Z.eqb_refl.
Qed.

(** [next] never builds an instant: it hands back its argument or the zero
    instant. *)
Lemma next_from_cases (fs : list cronFieldBits) (t : time.Time) :
  next_from fs t = t \/ next_from fs t = time.zero.
Proof.
  induction fs as [|field rest IH]; cbn [next_from].
  - now right.
  - destruct (setNextBit (Bits field) (getTimeValue t (Field (Typ field))) =? -1).
    + destruct (setNextBit (Bits field) 0 =? getTimeValue t (Field (Typ field)));
        [now left|].
      destruct (maxAttempts <=? _); [now right | exact IH].
    + destruct (_ =? getTimeValue t (Field (Typ field))); [now left|].
      destruct (maxAttempts <=? _); [now right | exact IH].
Qed.

Lemma NextTime_loop_cases (attempts : nat) (expression : CronExpression) (t : time.Time) :
  NextTime_loop attempts expression t = t
  \/ NextTime_loop attempts expression t = time.zero.
Proof.
  destruct attempts as [|n]; cbn [NextTime_loop]; [now right|].
  unfold next.
  destruct (next_from_cases (fields expression) t) as [E|E]; rewrite E.
  - unfold time.Equal. rewrite Z.eqb_refl, orb_true_r. now left.
  - cbn. now right.
Qed.

(** [NextTime] answers with the start of the second that follows [t], or
    with the zero instant. *)
Lemma NextTime_cases (expression : CronExpression) (t : time.Time) :
  NextTime expression t
    = time.Add t (1 * time.Second - time.Time_Nanosecond t * time.Nanosecond)
  \/ NextTime expression t = time.zero.
Proof.
  unfold NextTime. apply NextTime_loop_cases.
Qed.

(** C7.  For every cron expression (parsed or not) and every instant [t],
    [NextTime t] is the zero instant, which stands for "no next instant",
    or is after [t]; and when it is not the zero instant, [NextTime] of it
    is again the zero instant or is not before it. *)
Theorem NextTime_monotonic (expression : CronExpression) (t : time.Time) :
  (time.IsZero (NextTime expression t) = true
   \/ time.After (NextTime expression t) t = true)
  /\ (time.IsZero (NextTime expression t) = false ->
      time.IsZero (NextTime expression (NextTime expression t)) = true
      \/ time.Before (NextTime expression (NextTime expression t))
                     (NextTime expression t) = false).
Proof.
  assert (Hstep : forall u,
             time.IsZero (NextTime expression u) = true
             \/ time.After (NextTime expression u) u = true).
  { intros u. destruct (NextTime_cases expression u) as [E|E]; rewrite E.
    - right. unfold time.After, time.Add, time.Nanosecond.
      pose proof (Time_Nanosecond_range u). apply Z.ltb_lt. lia.
    - now left. }
  split; [apply Hstep|].
  intros _. destruct (Hstep (NextTime expression t)) as [H|H]; [now left|right].
  unfold time.After in H. unfold time.Before.
  apply Z.ltb_lt in H. apply Z.ltb_ge. lia.
Qed.

(** C2.  The expression "* 5 * * * *" asks for minute 5.  From
    2021-01-01 00:00:00 UTC, [NextTime] answers 00:00:01 of the same day,
    an instant that is not the zero instant and whose minute is 0: the
    field for the seconds matches, and [next] returns at the first field
    that matches without looking at the others. *)
Theorem NextTime_ignores_later_fields :
  exists expression,
    ParseCronExpression "* 5 * * * *" = Ok expression
    /\ NextTime expression (time.Date 2021 1 1 0 0 0 0) = time.Date 2021 1 1 0 0 1 0
    /\ time.IsZero (NextTime expression (time.Date 2021 1 1 0 0 0 0)) = false
    /\ getTimeValue (NextTime expression (time.Date 2021 1 1 0 0 0 0)) cronFieldMinute = 0
    /\ matchesAll expression (NextTime expression (time.Date 2021 1 1 0 0 0 0)) = false.
Proof.
  eexists. split; [vm_compute; reflexivity|].
  repeat split; vm_compute; reflexivity.
Qed.

Lemma NextTime_monotonic_witness :
  time.IsZero (NextTime (parsed "* * * * * *") (time.Date 2021 1 1 0 0 0 0)) = false
  /\ (time.IsZero (NextTime (parsed "* * * * * *")
                     (NextTime (parsed "* * * * * *") (time.Date 2021 1 1 0 0 0 0))) = true
      \/ time.Before (NextTime (parsed "* * * * * *")
                        (NextTime (parsed "* * * * * *") (time.Date 2021 1 1 0 0 0 0)))
                     (NextTime (parsed "* * * * * *") (time.Date 2021 1 1 0 0 0 0)) = false).
Proof.
  split.
  - vm_compute; reflexivity.
  - apply (proj2 (NextTime_monotonic (parsed "* * * * * *") (time.Date 2021 1 1 0 0 0 0))).
    vm_compute; reflexivity.
Defined.

(** ** Parsing: the number of fields *)

Lemma len_zero (s : string) : (len s =? 0) = true <-> s = EmptyString.
Proof.
  unfold len. destruct s; cbn [String.length]; split; intros H;
    try reflexivity; discriminate.
Qed.

(** C9.  [ParseCronExpression] returns an error for the empty string and
    for every string that [strings.Fields] does not split into exactly six
    fields; the message of the second error gives the number of fields
    found.  For "* * * *" it reads: cron expression must consist of 6
    fields : found 4 in "* * * *". *)
Theorem ParseCronExpression_field_count :
  (forall expression : string,
      (expression = EmptyString ->
       ParseCronExpression expression = Err "cron expression must not be empty")
      /\ (expression <> EmptyString ->
          List.length (Fields expression) <> 6%nat ->
          ParseCronExpression expression
            = Err (errFieldCount (Z.of_nat (List.length (Fields expression))) expression)))
  /\ ParseCronExpression "* * * *"
       = Err ("cron expression must consist of 6 fields : found 4 in "
              ++ dquote ++ "* * * *" ++ dquote)%string.
Proof.
  split; [|vm_compute; reflexivity].
  intros expression. split.
  - intros ->. reflexivity.
  - intros Hne Hcount. unfold ParseCronExpression.
    destruct (len expression =? 0) eqn:E.
    + apply len_zero in E. contradiction.
    + destruct (Z.of_nat (List.length (Fields expression)) =? 6) eqn:E6.
      * apply Z.eqb_eq in E6. lia.
      * reflexivity.
Qed.

Lemma ParseCronExpression_field_count_witness :
  ParseCronExpression EmptyString = Err "cron expression must not be empty"
  /\ ParseCronExpression "0 0 12 * *"
       = Err (errFieldCount (Z.of_nat (List.length (Fields "0 0 12 * *"))) "0 0 12 * *").
Proof.
  split.
  - apply (proj1 (proj1 ParseCronExpression_field_count EmptyString)). reflexivity.
  - apply (proj2 (proj1 ParseCronExpression_field_count "0 0 12 * *"%string)).
    + discriminate.
    + vm_compute. lia.
Defined.

(** ** Parsing: day of week *)

(** C6.  In the day-of-week field the token "7" is refused with an error,
    while "0" parses to the set that holds 0 alone; "SUN", which
    [replaceOrdinals] rewrites to "7", is refused as well, and so is an
    expression whose last field is 7.  [checkValidValue] tests the value
    against the range 0..6 of the field before [parseRange] reaches its
    line that turns a 7 into 0. *)
Theorem dayOfWeek_seven_is_refused :
  parseField "7" dayOfWeek
    = Err "the value in field DAY_OF_WEEK must be between 0 and 6"
  /\ parseField "0" dayOfWeek = Ok (mkFieldBits dayOfWeek (bitsOf [0]))
  /\ parseField "SUN" dayOfWeek
     = Err "the value in field DAY_OF_WEEK must be between 0 and 6"
  /\ ParseCronExpression "0 0 12 * * 7"
     = Err "the value in field DAY_OF_WEEK must be between 0 and 6".
Proof.
  repeat split; vm_compute; reflexivity.
Qed.

(** ** Reschedulable tasks *)

(** C10.  [NewReschedulableTask] panics whenever its trigger is not nil,
    so every task it returns has a nil trigger; and [Schedule] returns nil
    for every receiver. *)
Theorem NewReschedulableTask_refuses_trigger (E T : Type) :
  (forall (ex : option E) (tr : option T),
      tr <> None -> panics (NewReschedulableTask ex tr) = true)
  /\ (forall (ex : option E) (tr : option T) (r : ReschedulableTask E T),
         NewReschedulableTask ex tr = Ok r -> trigger r = None)
  /\ (forall task : option (ReschedulableTask E T),
         ReschedulableTask_Schedule task = None).
Proof.
  repeat split.
  - intros [e|] [t|] H; try reflexivity; contradiction.
  - intros [e|] [t|] r H; cbn in H; try discriminate.
    injection H as <-. reflexivity.
Qed.

Lemma NewReschedulableTask_refuses_trigger_witness :
  panics (NewReschedulableTask (Some tt) (Some 1%nat)) = true
  /\ trigger (mkReschedulableTask unit nat (Some tt) None) = None.
Proof.
  split.
  - apply (proj1 (NewReschedulableTask_refuses_trigger unit nat)). discriminate.
  - apply (proj1 (proj2 (NewReschedulableTask_refuses_trigger unit nat))
             (Some tt) None).
    reflexivity.
Defined.

(** ** The scheduling engine *)

(** The deferred function of a worker sends every task that is not
    fixed-rate back to the loop, whether it is periodic or not. *)
Lemma onTaskDone_sends_again (w : system) (p : ptr) (scheduledTask : ScheduledTask) :
  nth_error (heap w) p = Some scheduledTask ->
  fixedRate scheduledTask = false ->
  exists w', onTaskDone w p = Ok w' /\ sending w' = (sending w ++ [p])%list.
Proof.
  intros Hp Hfr. unfold onTaskDone, deref. rewrite Hp. cbn [bind].
  unfold IsFixedRate, setTriggerTime. cbn [fixedRate]. rewrite Hfr. cbn [negb].
  eexists. split; reflexivity.
Qed.

(** C1.  For every task that is not nil: after [Schedule(task, 0)] the
    task is started once and leaves the queue; but when its body returns,
    its worker sends it to the loop again, although its period is 0; the
    loop puts it back in the queue, the timer fires and the task is started
    a second time. *)
Theorem one_shot_task_fires_again (body : nat) :
  exists w1 w2 w3,
    execute freshExecutor (oneShotRun (Some body)) = Some (Ok w1)
    /\ map IsPeriodic (heap w1) = [false]
    /\ timesStarted w1 0%nat = 1%nat /\ taskQueue w1 = [] /\ sending w1 = [0%nat]
    /\ execute w1 [ReceiveNewTask 0%nat] = Some (Ok w2)
    /\ taskQueue w2 = [0%nat]
    /\ execute w2 [TimerFires] = Some (Ok w3)
    /\ timesStarted w3 0%nat = 2%nat.
Proof.
  do 3 eexists.
  split; [vm_compute; reflexivity|].
  do 4 (split; [vm_compute; reflexivity|]).
  split; [vm_compute; reflexivity|].
  split; [vm_compute; reflexivity|].
  split; vm_compute; reflexivity.
Qed.

Lemma findTaskIndex_absent (h : store) (queue : ScheduledTaskQueue) (task : ptr)
    (wanted : ScheduledTask) (index : Z) :
  nth_error h task = Some wanted ->
  idAbsent h queue (id wanted) = true ->
  findTaskIndex h queue task index = Ok (-1).
Proof.
  intros Htask. revert index.
  induction queue as [|p rest IH]; intros index H; cbn [findTaskIndex].
  - reflexivity.
  - cbn [idAbsent forallb] in H. apply andb_true_iff in H as [Hp Hrest].
    unfold deref. rewrite Htask.
    destruct (nth_error h p) as [scheduledTask|]; [|discriminate].
    cbn [bind]. apply negb_true_iff in Hp. rewrite Hp. now apply IH.
Qed.

(** C3.  In every state, a remove event for a task whose [id] no task of
    the queue carries makes the control loop panic: the index searched for
    stays at -1 and is used as a slice bound.  The queue is not left
    unchanged and the loop does not go on; the execution ends there. *)
Theorem remove_of_unknown_task_panics (w : system) (task : ptr) (wanted : ScheduledTask) :
  nth_error (heap w) task = Some wanted ->
  idAbsent (heap w) (taskQueue w) (id wanted) = true ->
  onRemoveTask w task = Panic (PanicRuntime "slice bounds out of range [:-1]")
  /\ execute w [ReceiveRemoveTask task]
     = Some (Panic (PanicRuntime "slice bounds out of range [:-1]")).
Proof.
  intros Htask Habsent.
  assert (Hpanic : onRemoveTask w task
                   = Panic (PanicRuntime "slice bounds out of range [:-1]")).
  { unfold onRemoveTask.
    rewrite (findTaskIndex_absent _ _ _ _ 0 Htask Habsent). reflexivity. }
  split; [exact Hpanic|].
  cbn [execute enabled step]. rewrite Hpanic.
  assert (Hlt : (task <? List.length (heap w))%nat = true).
  { apply Nat.ltb_lt. apply nth_error_Some. rewrite Htask. discriminate. }
  rewrite Hlt. reflexivity.
Qed.

(** A one-shot task that has fired is no longer in the queue; removing it
    then is the removal of an unknown task. *)
Lemma remove_of_unknown_task_panics_witness :
  onRemoveTask (stateAfter (oneShotRun (Some 1%nat))) 0%nat
    = Panic (PanicRuntime "slice bounds out of range [:-1]")
  /\ execute (stateAfter (oneShotRun (Some 1%nat))) [ReceiveRemoveTask 0%nat]
     = Some (Panic (PanicRuntime "slice bounds out of range [:-1]")).
Proof.
  apply (remove_of_unknown_task_panics (stateAfter (oneShotRun (Some 1%nat))) 0%nat
           (mkScheduledTask 0 (Some 1%nat)
              (time.Date 2021 1 1 0 0 0 55000000) 0 false)).
  - vm_compute; reflexivity.
  - vm_compute; reflexivity.
Defined.

(** When the head of the queue carries the [id] wanted, the remove event
    takes the head away, whichever task was sent. *)
Lemma onRemoveTask_takes_head (w : system) (task head : ptr) (rest : list ptr)
    (wanted first : ScheduledTask) :
  nth_error (heap w) task = Some wanted ->
  taskQueue w = head :: rest ->
  nth_error (heap w) head = Some first ->
  id first = id wanted ->
  exists w', onRemoveTask w task = Ok w' /\ taskQueue w' = rest.
Proof.
  intros Htask Hq Hhead Hid.
  exists (mkSystem (nextSequence w) rest (lastClock w) (heap w)
                   (sending w) (running w) (started w) (now w)).
  split; [|reflexivity].
  unfold onRemoveTask.
  rewrite Hq. cbn [findTaskIndex]. unfold deref. rewrite Hhead, Htask.
  cbn [bind]. rewrite Hid, Z.eqb_refl. cbn [bind].
  unfold removeAt. cbn [List.length].
  change (0 <? 0) with false. change (Z.to_nat 0) with 0%nat.
  replace (Z.of_nat (S (List.length rest)) <? 0 + 1) with false
    by (symmetry; apply Z.ltb_ge; lia).
  cbn [bind fst snd firstn skipn app].
  replace (S (List.length rest) - 0 - 1)%nat with (List.length rest) by lia.
  replace (S (List.length rest) - 1)%nat with (List.length rest) by lia.
  rewrite firstn_all.
  rewrite firstn_app, firstn_all, Nat.sub_diag. cbn [firstn].
  now rewrite app_nil_r.
Qed.

(** C4.  [NewScheduledTask] gives every task the [id] 0, so the [id] tells
    no task from another.  With two tasks in the queue, the remove event
    for the second one takes the first one away and leaves the second:
    the search by [id] stops at the head of the queue. *)
Theorem remove_takes_another_task :
  (forall (task : Task) (triggerTime : time.Time) (period : time.Duration)
          (fixedRate : bool),
      id (NewScheduledTask task triggerTime period fixedRate) = 0)
  /\ exists w1 w2,
       execute freshExecutor twoTasksRun = Some (Ok w1)
       /\ taskQueue w1 = [0%nat; 1%nat]
       /\ map id (heap w1) = [0; 0]
       /\ map task (heap w1) = [Some 1%nat; Some 2%nat]
       /\ execute w1 [ReceiveRemoveTask 1%nat] = Some (Ok w2)
       /\ taskQueue w2 = [1%nat].
Proof.
  split; [reflexivity|].
  do 2 eexists.
  split; [vm_compute; reflexivity|].
  do 3 (split; [vm_compute; reflexivity|]).
  split; vm_compute; reflexivity.
Qed.

(** ** Parsing: steps *)

Section Steps.
Open Scope string_scope.
Open Scope Z_scope.

Lemma parseTerm_bad_step (ft : fieldType) (bits : Z) (field stepStr : string) :
  stepPart field = Some stepStr ->
  badStep stepStr = true ->
  parseTerm ft bits field
  = match parseRange (rangePart field) ft with
    | Ok _ => Panic (stepPanic stepStr)
    | Err msg => Err msg
    | Panic p => Panic p
    end.
Proof.
  unfold stepPart, badStep, stepPanic, rangePart, parseTerm.
  destruct (Index field "/" =? -1) eqn:Eslash; [discriminate|].
  intros [= <-] Hbad. cbn [negb].
  destruct (parseRange (slice field 0 (Index field "/")) ft) as [vr|msg|p];
    cbn [bind]; try reflexivity.
  destruct (Atoi (slice field (Index field "/" + 1) (len field))) as [step|e];
    [|reflexivity].
  rewrite Hbad. reflexivity.
Qed.

Lemma parseTerms_bad_step (ft : fieldType) (terms : list string) (bits : Z)
    (field stepStr : string) :
  In field terms ->
  stepPart field = Some stepStr ->
  badStep stepStr = true ->
  succeeded (parseTerms ft bits terms) = false.
Proof.
  intros Hin Hstep Hbad. revert bits.
  induction terms as [|term rest IH]; intros bits; [contradiction|].
  cbn [parseTerms].
  destruct Hin as [->|Hin].
  - rewrite (parseTerm_bad_step ft bits field stepStr Hstep Hbad).
    destruct (parseRange (rangePart field) ft); reflexivity.
  - destruct (parseTerm ft bits term); cbn [bind]; try reflexivity.
    now apply IH.
Qed.

Lemma parseTerms_panic (ft : fieldType) (pre post : list string) (bits bits' : Z)
    (field : string) (p : panicValue) :
  parseTerms ft bits pre = Ok bits' ->
  parseTerm ft bits' field = Panic p ->
  parseTerms ft bits (pre ++ field :: post) = Panic p.
Proof.
  revert bits. induction pre as [|term pre IH]; intros bits Hpre Hterm.
  - cbn in Hpre. injection Hpre as ->. cbn [app parseTerms]. now rewrite Hterm.
  - cbn [app parseTerms] in *.
    destruct (parseTerm ft bits term); cbn [bind] in *; try discriminate.
    now apply IH.
Qed.

Lemma parseFields_not_ok (types : list fieldType) (tokens : list string) (k index : nat)
    (acc : list cronFieldBits) (ft : fieldType) (token : string) :
  nth_error types k = Some ft ->
  nth_error tokens (index + k) = Some token ->
  succeeded (parseField token ft) = false ->
  succeeded (parseFields types index tokens acc) = false.
Proof.
  revert k index acc.
  induction types as [|ty types IH]; intros k index acc Hty Htok Hfail.
  - destruct k; discriminate.
  - cbn [parseFields].
    destruct k as [|k].
    + cbn in Hty. injection Hty as ->. rewrite Nat.add_0_r in Htok. rewrite Htok.
      destruct (parseField token ft); [discriminate | reflexivity | reflexivity].
    + destruct (nth_error tokens index); [|reflexivity].
      destruct (parseField s ty); cbn [bind]; try reflexivity.
      apply (IH k); [exact Hty | | exact Hfail].
      now rewrite Nat.add_succ_l, <- Nat.add_succ_r.
Qed.

Lemma parseFields_panic (types : list fieldType) (tokens : list string) (k index : nat)
    (acc : list cronFieldBits) (ft : fieldType) (token : string) (p : panicValue) :
  nth_error types k = Some ft ->
  nth_error tokens (index + k) = Some token ->
  (forall j ftj tokj, (j < k)%nat ->
      nth_error types j = Some ftj ->
      nth_error tokens (index + j) = Some tokj ->
      succeeded (parseField tokj ftj) = true) ->
  parseField token ft = Panic p ->
  parseFields types index tokens acc = Panic p.
Proof.
  revert k index acc.
  induction types as [|ty types IH]; intros k index acc Hty Htok Hbefore Hpanic.
  - destruct k; discriminate.
  - cbn [parseFields].
    destruct k as [|k].
    + cbn in Hty. injection Hty as ->. rewrite Nat.add_0_r in Htok.
      now rewrite Htok, Hpanic.
    + destruct (nth_error tokens index) as [tok0|] eqn:E0.
      * pose proof (Hbefore 0%nat ty tok0 ltac:(lia) eq_refl) as H0.
        rewrite Nat.add_0_r in H0. specialize (H0 E0).
        destruct (parseField tok0 ty); try discriminate. cbn [bind].
        apply (IH k); [exact Hty | | | exact Hpanic].
        -- now rewrite Nat.add_succ_l, <- Nat.add_succ_r.
        -- intros j ftj tokj Hj Hftj Htokj.
           apply (Hbefore (S j) ftj tokj); [lia | exact Hftj |].
           now rewrite Nat.add_succ_r, <- Nat.add_succ_l.
      * exfalso.
        assert (Hlen : (index + S k < List.length tokens)%nat).
        { apply nth_error_Some. rewrite Htok. discriminate. }
        apply nth_error_None in E0. lia.
Qed.

End Steps.

Section StepClaim.
Open Scope string_scope.
Open Scope Z_scope.

Lemma append_char_nonempty (s : string) (c : ascii) :
  s ++ String c EmptyString <> EmptyString.
Proof.
  destruct s; discriminate.
Qed.

Lemma fields_aux_nonempty (s : string) (skip : nat) (cur : option string) :
  (forall f, cur = Some f -> f <> EmptyString) ->
  forall f, In f (fields_aux s skip cur) -> f <> EmptyString.
Proof.
  revert skip cur.
  induction s as [|c s IH]; intros skip cur Hcur f Hin; cbn [fields_aux] in Hin.
  - destruct cur as [g|]; [|contradiction].
    destruct Hin as [<-|[]]. now apply Hcur.
  - destruct skip as [|k].
    + destruct (spaceWidth (String c s)) as [|w].
      * apply (IH _ _) in Hin; [exact Hin|].
        intros g [= <-]. apply append_char_nonempty.
      * destruct cur as [g|].
        -- destruct Hin as [<-|Hin]; [now apply Hcur|].
           apply (IH _ _) in Hin; [exact Hin | discriminate].
        -- apply (IH _ _) in Hin; [exact Hin | discriminate].
    + now apply (IH _ _) in Hin.
Qed.

(** [strings.Fields] returns no empty field. *)
Lemma Fields_nonempty (s f : string) : In f (Fields s) -> f <> EmptyString.
Proof.
  apply fields_aux_nonempty. discriminate.
Qed.

Lemma parseField_bad_step (ft : fieldType) (token field stepStr : string) :
  In field (Split (ordinals token ft) ",") ->
  stepPart field = Some stepStr ->
  badStep stepStr = true ->
  succeeded (parseField token ft) = false.
Proof.
  intros Hin Hstep Hbad. unfold parseField.
  destruct (len token =? 0); [reflexivity|].
  pose proof (parseTerms_bad_step ft _ (Bits (newFieldBits ft)) _ _ Hin Hstep Hbad) as H.
  destruct (parseTerms ft (Bits (newFieldBits ft)) (Split (ordinals token ft) ","));
    [discriminate | reflexivity | reflexivity].
Qed.

Lemma parseField_panic (ft : fieldType) (token field stepStr : string)
    (pre post : list string) :
  token <> EmptyString ->
  Split (ordinals token ft) "," = (pre ++ field :: post)%list ->
  succeeded (parseTerms ft 0 pre) = true ->
  succeeded (parseRange (rangePart field) ft) = true ->
  stepPart field = Some stepStr ->
  badStep stepStr = true ->
  parseField token ft = Panic (stepPanic stepStr).
Proof.
  intros Hne Hsplit Hpre Hrange Hstep Hbad. unfold parseField.
  destruct (len token =? 0) eqn:E; [apply len_zero in E; contradiction|].
  rewrite Hsplit. cbn [newFieldBits Bits].
  destruct (parseTerms ft 0 pre) as [bits'| |] eqn:Epre; try discriminate.
  rewrite (parseTerms_panic ft pre post 0 bits' field (stepPanic stepStr) Epre);
    [reflexivity|].
  rewrite (parseTerm_bad_step ft bits' field stepStr Hstep Hbad).
  destruct (parseRange (rangePart field) ft); [reflexivity | discriminate | discriminate].
Qed.

(** C5 does not hold of the code.  Take an expression of ASCII characters
    in which a term of a field has a step that is not a number or is not
    positive.  [ParseCronExpression] never succeeds on it; but when the
    expression has six fields and all that is read before the step is valid
    (the fields before, the terms before in the same field, the range in
    front of the slash), it fails by panicking, with the error of
    [strconv.Atoi] or with "step must be 1 or higher", where the claim asks
    for an error value returned to the caller. *)
Theorem bad_step_makes_parsing_panic (expression : string) (index : nat)
    (ft : fieldType) (token field stepStr : string) (pre post : list string) :
  isASCII expression = true ->
  nth_error cronFieldTypes index = Some ft ->
  nth_error (Fields expression) index = Some token ->
  Split (ordinals token ft) "," = (pre ++ field :: post)%list ->
  stepPart field = Some stepStr ->
  badStep stepStr = true ->
  succeeded (ParseCronExpression expression) = false
  /\ (List.length (Fields expression) = 6%nat ->
      (forall j ftj tokj, (j < index)%nat ->
          nth_error cronFieldTypes j = Some ftj ->
          nth_error (Fields expression) j = Some tokj ->
          succeeded (parseField tokj ftj) = true) ->
      succeeded (parseTerms ft 0 pre) = true ->
      succeeded (parseRange (rangePart field) ft) = true ->
      ParseCronExpression expression = Panic (stepPanic stepStr)).
Proof.
  intros _ Hft Htok Hsplit Hstep Hbad.
  assert (Hin : In field (Split (ordinals token ft) ",")).
  { rewrite Hsplit. apply in_or_app. right. now left. }
  assert (Hne : expression <> EmptyString).
  { intros ->. destruct index; discriminate. }
  split.
  - unfold ParseCronExpression.
    destruct (len expression =? 0); [reflexivity|].
    destruct (negb _); [reflexivity|].
    apply (parseFields_not_ok cronFieldTypes (Fields expression) index 0 _ ft token);
      [exact Hft | exact Htok |].
    exact (parseField_bad_step ft token field stepStr Hin Hstep Hbad).
  - intros Hsix Hbefore Hpre Hrange. unfold ParseCronExpression.
    destruct (len expression =? 0) eqn:E; [apply len_zero in E; contradiction|].
    rewrite Hsix. cbn [Z.of_nat Z.eqb negb Pos.of_succ_nat Pos.succ Pos.eqb].
    apply (parseFields_panic cronFieldTypes (Fields expression) index 0 _ ft token);
      [exact Hft | exact Htok | exact Hbefore |].
    apply (parseField_panic ft token field stepStr pre post); try assumption.
    apply (Fields_nonempty expression). eapply nth_error_In. exact Htok.
Qed.

Lemma bad_step_makes_parsing_panic_witness :
  succeeded (ParseCronExpression "* 10-20/0,5 * * * *") = false
  /\ ParseCronExpression "* 10-20/0,5 * * * *" = Panic (stepPanic "0").
Proof.
  pose proof (bad_step_makes_parsing_panic "* 10-20/0,5 * * * *" 1 minute
                "10-20/0,5" "10-20/0" "0" [] ["5"]
                eq_refl eq_refl eq_refl eq_refl eq_refl eq_refl) as [Hfail Hpanic].
  split; [exact Hfail|].
  apply Hpanic.
  - reflexivity.
  - intros [|j] ftj tokj Hj Hftj Htokj; [|lia].
    injection Hftj as <-. injection Htokj as <-. reflexivity.
  - reflexivity.
  - reflexivity.
Defined.

(** Two expressions with a bad step, one of 0 and one that is not a
    number: [ParseCronExpression] panics on both and returns no error. *)
Lemma bad_step_returns_no_error :
  ParseCronExpression "* 0/0 * * * *" = Panic (PanicMsg "step must be 1 or higher")
  /\ returnsError (ParseCronExpression "* 0/0 * * * *") = false
  /\ ParseCronExpression "* 0/x * * * *" = Panic (PanicNumError "x" ErrSyntax)
  /\ returnsError (ParseCronExpression "* 0/x * * * *") = false.
Proof.
  repeat split; vm_compute; reflexivity.
Qed.

End StepClaim.

(** ** Parsing: terms made of digits and a slash *)

Section PlainTerms.
Open Scope string_scope.
Open Scope Z_scope.

Ltac by_bytes c :=
  destruct c as [[] [] [] [] [] [] [] []]; try discriminate; try reflexivity.

Lemma upperByte_plain (c : ascii) : plainByte c = true -> upperByte c = c.
Proof. by_bytes c. Qed.

Lemma plainByte_not_letter (c : ascii) :
  plainByte c = true ->
  (65 <=? nat_of_ascii c)%nat && (nat_of_ascii c <=? 90)%nat = false.
Proof. by_bytes c. Qed.

Lemma plainByte_not_comma (c : ascii) : plainByte c = true -> c <> ","%char.
Proof. by_bytes c. Qed.

Lemma isDigit_plainByte (c : ascii) : isDigit c = true -> plainByte c = true.
Proof. unfold plainByte. now intros ->. Qed.

Lemma isDigit_not_slash (c : ascii) : isDigit c = true -> c <> "/"%char.
Proof. by_bytes c. Qed.

Lemma isDigit_not_hyphen (c : ascii) : isDigit c = true -> c <> "-"%char.
Proof. by_bytes c. Qed.

Lemma isDigit_not_star (c : ascii) : isDigit c = true -> Ascii.eqb c "*" = false.
Proof. by_bytes c. Qed.

Lemma allDigits_plain (s : string) : allDigits s = true -> plain s = true.
Proof.
  induction s as [|c s IH]; cbn [allDigits plain]; [reflexivity|].
  intros H. apply andb_true_iff in H as [Hc Hs].
  now rewrite (isDigit_plainByte c Hc), IH.
Qed.

Lemma plain_app (s u : string) :
  plain s = true -> plain u = true -> plain (s ++ u) = true.
Proof.
  induction s as [|c s IH]; cbn [append plain]; [easy|].
  intros H Hu. apply andb_true_iff in H as [Hc Hs].
  now rewrite Hc, IH.
Qed.

Lemma ToUpper_plain (s : string) : plain s = true -> ToUpper s = s.
Proof.
  induction s as [|c s IH]; cbn [plain ToUpper]; [reflexivity|].
  intros H. apply andb_true_iff in H as [Hc Hs].
  now rewrite (upperByte_plain c Hc), IH.
Qed.

Lemma prefix_letter_plain (name : string) (c : ascii) (s : string) :
  startsWithLetter name = true -> plainByte c = true ->
  prefix name (String c s) = false.
Proof.
  destruct name as [|c0 r]; [discriminate|]. cbn [startsWithLetter prefix].
  intros Hletter Hplain.
  destruct (ascii_dec c0 c) as [->|]; [|reflexivity].
  rewrite (plainByte_not_letter c Hplain) in Hletter. discriminate.
Qed.

Lemma ReplaceAll_plain (s name new : string) :
  startsWithLetter name = true -> plain s = true -> ReplaceAll s name new = s.
Proof.
  intros Hletter. unfold ReplaceAll.
  induction s as [|c s IH]; cbn [plain replaceAll_aux]; [reflexivity|].
  intros H. apply andb_true_iff in H as [Hc Hs].
  now rewrite (prefix_letter_plain name c s Hletter Hc), IH.
Qed.

Lemma replaceOrdinals_from_plain (list : list string) (index : Z) (s : string) :
  forallb startsWithLetter list = true -> plain s = true ->
  replaceOrdinals_from index s list = s.
Proof.
  revert index. induction list as [|name rest IH]; intros index Hl Hs;
    cbn [replaceOrdinals_from]; [reflexivity|].
  cbn [forallb] in Hl. apply andb_true_iff in Hl as [Hname Hrest].
  rewrite (ReplaceAll_plain s name _ Hname Hs). now apply IH.
Qed.

(** A token without letters is left as it is. *)
Lemma ordinals_plain (s : string) (ft : fieldType) : plain s = true -> ordinals s ft = s.
Proof.
  intros Hs. unfold ordinals, replaceOrdinals.
  rewrite (ToUpper_plain s Hs).
  destruct (cronField_eqb (Field ft) cronFieldMonth);
    [now apply replaceOrdinals_from_plain|].
  destruct (cronField_eqb (Field ft) cronFieldDayOfWeek);
    [now apply replaceOrdinals_from_plain | reflexivity].
Qed.

Lemma append_assoc_char (s : string) (c : ascii) (u : string) :
  (s ++ String c EmptyString) ++ u = s ++ String c u.
Proof.
  induction s as [|d s IH]; cbn [append]; [reflexivity|]. now rewrite IH.
Qed.

Lemma append_empty_r (s : string) : s ++ EmptyString = s.
Proof.
  induction s as [|d s IH]; cbn [append]; [reflexivity|]. now rewrite IH.
Qed.

Lemma split_aux_plain (s cur : string) :
  plain s = true -> split_aux "," s 0 cur = [cur ++ s].
Proof.
  revert cur. induction s as [|c s IH]; intros cur; cbn [plain split_aux].
  - intros _. now rewrite append_empty_r.
  - intros H. apply andb_true_iff in H as [Hc Hs].
    cbn [prefix]. destruct (ascii_dec "," c) as [<-|_].
    + now apply plainByte_not_comma in Hc.
    + rewrite (IH _ Hs). now rewrite append_assoc_char.
Qed.

(** A token without a comma is a single term. *)
Lemma Split_plain (s : string) : plain s = true -> Split s "," = [s].
Proof.
  intros Hs. unfold Split. now rewrite (split_aux_plain s EmptyString Hs).
Qed.

Lemma index_from_slash (sa ss : string) (i : Z) :
  allDigits sa = true ->
  index_from "/" (sa ++ String "/" ss) i = i + len sa.
Proof.
  revert i. induction sa as [|c sa IH]; intros i; cbn [allDigits append index_from].
  - intros _. cbn [prefix]. destruct (ascii_dec "/" "/"); [|contradiction].
    destruct ss; unfold len; cbn; lia.
  - intros H. apply andb_true_iff in H as [Hc Hs].
    cbn [prefix]. destruct (ascii_dec "/" c) as [<-|_].
    + now apply isDigit_not_slash in Hc.
    + rewrite (IH _ Hs). unfold len. cbn [String.length]. lia.
Qed.

Lemma index_from_hyphen (sa : string) (i : Z) :
  allDigits sa = true -> index_from "-" sa i = -1.
Proof.
  revert i. induction sa as [|c sa IH]; intros i; cbn [allDigits index_from].
  - reflexivity.
  - intros H. apply andb_true_iff in H as [Hc Hs].
    cbn [prefix]. destruct (ascii_dec "-" c) as [<-|_].
    + now apply isDigit_not_hyphen in Hc.
    + now apply IH.
Qed.

Lemma eqb_star (sa : string) : allDigits sa = true -> String.eqb sa "*" = false.
Proof.
  destruct sa as [|c sa]; [reflexivity|]. cbn [allDigits String.eqb].
  intros H. apply andb_true_iff in H as [Hc _].
  now rewrite (isDigit_not_star c Hc).
Qed.

Lemma substring_front (sa rest : string) :
  substring 0 (String.length sa) (sa ++ rest) = sa.
Proof.
  induction sa as [|c sa IH]; cbn [String.length append substring].
  - now destruct rest.
  - now rewrite IH.
Qed.

Lemma substring_whole (s : string) : substring 0 (String.length s) s = s.
Proof.
  induction s as [|c s IH]; cbn [String.length substring]; [reflexivity|].
  now rewrite IH.
Qed.

Lemma substring_back (sa ss : string) (c : ascii) :
  substring (S (String.length sa)) (String.length ss) (sa ++ String c ss) = ss.
Proof.
  induction sa as [|d sa IH]; cbn [String.length append substring].
  - apply substring_whole.
  - exact IH.
Qed.

Lemma length_append_char (sa ss : string) (c : ascii) :
  String.length (sa ++ String c ss) = S (String.length sa + String.length ss).
Proof.
  induction sa as [|d sa IH]; cbn [String.length append]; [reflexivity|].
  now rewrite IH.
Qed.

(** The parts of the term [sa/ss]. *)
Lemma term_parts (sa ss : string) :
  allDigits sa = true ->
  Index (sa ++ String "/" ss) "/" = len sa
  /\ slice (sa ++ String "/" ss) 0 (len sa) = sa
  /\ slice (sa ++ String "/" ss) (len sa + 1) (len (sa ++ String "/" ss)) = ss.
Proof.
  intros Hsa. unfold Index. rewrite (index_from_slash sa ss 0 Hsa).
  split; [lia|]. unfold slice, len. split.
  - rewrite Z.sub_0_r, Nat2Z.id. cbn [Z.to_nat]. apply substring_front.
  - rewrite length_append_char.
    replace (Z.to_nat (Z.of_nat (String.length sa) + 1)) with (S (String.length sa)) by lia.
    replace (Z.to_nat (Z.of_nat (S (String.length sa + String.length ss))
                       - (Z.of_nat (String.length sa) + 1)))
      with (String.length ss) by lia.
    apply substring_back.
Qed.

End PlainTerms.

(** ** Parsing: the bits that a step sets *)

Section StepBits.
Open Scope Z_scope.

Lemma testbit_one (k : Z) : Z.testbit 1 k = (k =? 0).
Proof. destruct k; reflexivity. Qed.

Lemma testbit_maxUint64 (v : Z) : 0 <= v -> Z.testbit maxUint64 v = (v <? 64).
Proof.
  intros Hv. change maxUint64 with (Z.ones 64).
  rewrite Z.testbit_ones by lia.
  replace (0 <=? v) with true by (symmetry; apply Z.leb_le; lia). reflexivity.
Qed.

Lemma testbit_shl64 (x n v : Z) :
  0 <= v -> Z.testbit (shl64 x n) v = Z.testbit x (v - n) && (v <? 64).
Proof.
  intros Hv. unfold shl64.
  now rewrite Z.land_spec, Z.shiftl_spec, testbit_maxUint64 by lia.
Qed.

Lemma testbit_shl64_one (n v : Z) :
  0 <= v -> 0 <= n < 64 -> Z.testbit (shl64 1 n) v = (v =? n).
Proof.
  intros Hv Hn. rewrite testbit_shl64, testbit_one by lia.
  destruct (v =? n) eqn:E.
  - apply Z.eqb_eq in E. subst v. rewrite Z.sub_diag. cbn.
    apply Z.ltb_lt. lia.
  - apply Z.eqb_neq in E.
    replace (v - n =? 0) with false by (symmetry; apply Z.eqb_neq; lia).
    reflexivity.
Qed.

Lemma testbit_shl64_mask (n v : Z) :
  0 <= v -> 0 <= n ->
  Z.testbit (shl64 maxUint64 n) v = (n <=? v) && (v <? 64).
Proof.
  intros Hv Hn. rewrite testbit_shl64 by lia.
  destruct (n <=? v) eqn:E.
  - apply Z.leb_le in E. rewrite testbit_maxUint64 by lia.
    destruct (v <? 64) eqn:E64; [|now rewrite andb_false_r].
    apply Z.ltb_lt in E64.
    replace (v - n <? 64) with true by (symmetry; apply Z.ltb_lt; lia).
    reflexivity.
  - apply Z.leb_gt in E. now rewrite Z.testbit_neg_r by lia.
Qed.

(** [^(MaxUint64 << (max+1)) & (MaxUint64 << min)] holds the values from
    [min] to [max]. *)
Lemma testbit_range_mask (min max v : Z) :
  0 <= v -> 0 <= min -> 0 <= max < 64 ->
  Z.testbit (Z.land (not64 (shl64 maxUint64 (max + 1))) (shl64 maxUint64 min)) v
  = (min <=? v) && (v <=? max).
Proof.
  intros Hv Hmin Hmax. unfold not64.
  rewrite Z.land_spec, Z.lxor_spec, !testbit_shl64_mask, testbit_maxUint64 by lia.
  destruct (min <=? v) eqn:E1, (v <=? max) eqn:E2, (max + 1 <=? v) eqn:E3,
           (v <? 64) eqn:E4; try reflexivity; exfalso;
    repeat match goal with
           | H : (_ <=? _) = true |- _ => apply Z.leb_le in H
           | H : (_ <=? _) = false |- _ => apply Z.leb_gt in H
           | H : (_ <? _) = true |- _ => apply Z.ltb_lt in H
           | H : (_ <? _) = false |- _ => apply Z.ltb_ge in H
           end; lia.
Qed.

Lemma wrap_small (z : Z) : minInt <= z <= maxInt -> wrap z = z.
Proof.
  unfold wrap, minInt, maxInt. intros H. rewrite Z.mod_small; lia.
Qed.

Lemma onStep_unfold (index max step v : Z) :
  0 < step -> index <= max ->
  onStep index max step v = (v =? index) || onStep (index + step) max step v.
Proof.
  intros Hstep Hle. unfold onStep.
  destruct (v =? index) eqn:E.
  - apply Z.eqb_eq in E. subst v. rewrite Z.sub_diag, Z.mod_0_l by lia.
    rewrite Z.leb_refl. replace (index <=? max) with true
      by (symmetry; apply Z.leb_le; lia). reflexivity.
  - apply Z.eqb_neq in E. cbn [orb].
    replace (v - (index + step)) with (v - index + (-1) * step) by lia.
    rewrite Z.mod_add by lia.
    destruct (index + step <=? v) eqn:E1.
    + apply Z.leb_le in E1.
      replace (index <=? v) with true by (symmetry; apply Z.leb_le; lia).
      reflexivity.
    + apply Z.leb_gt in E1. cbn [andb].
      destruct (index <=? v) eqn:E2; [|reflexivity].
      apply Z.leb_le in E2.
      rewrite Z.mod_small by lia.
      replace (v - index =? 0) with false by (symmetry; apply Z.eqb_neq; lia).
      now rewrite andb_false_r.
Qed.

(** The loop over a step ends within [stepFuel]: with that much fuel or
    more, the result is the same, be it a bit set or a panic. *)
Lemma stepLoop_fuel_any (fuel1 fuel2 : nat) (bits index max step : Z) :
  1 <= step <= maxInt -> index <= maxInt ->
  (stepFuel index max <= fuel1)%nat -> (stepFuel index max <= fuel2)%nat ->
  stepLoop fuel1 bits index max step = stepLoop fuel2 bits index max step.
Proof.
  unfold stepFuel, maxInt. revert fuel2 bits index.
  induction fuel1 as [|fuel1 IH]; intros fuel2 bits index Hstep Hindex H1 H2; [lia|].
  destruct fuel2 as [|fuel2]; [lia|].
  cbn [stepLoop].
  destruct (max <? index) eqn:Edone; [reflexivity|].
  apply Z.ltb_ge in Edone. unfold shift.
  destruct (index <? 0) eqn:Eneg; [reflexivity|].
  apply Z.ltb_ge in Eneg. cbn [bind].
  destruct (Z.leb (index + step) (2 ^ 63 - 1)) eqn:Eover.
  - apply Z.leb_le in Eover.
    rewrite (wrap_small (index + step)) by (unfold minInt, maxInt; lia).
    apply IH; lia.
  - apply Z.leb_gt in Eover.
    assert (Hw : wrap (index + step) = index + step - 2 ^ 64).
    { unfold wrap.
      replace (index + step + 2 ^ 63) with (index + step - 2 ^ 63 + 1 * 2 ^ 64) by lia.
      rewrite Z.mod_add, Z.mod_small by lia. lia. }
    rewrite Hw.
    destruct fuel1 as [|fuel1]; [lia|]. destruct fuel2 as [|fuel2]; [lia|].
    cbn [stepLoop].
    destruct (max <? index + step - 2 ^ 64); [reflexivity|].
    unfold shift.
    replace (index + step - 2 ^ 64 <? 0) with true by (symmetry; apply Z.ltb_lt; lia).
    reflexivity.
Qed.

Lemma stepLoop_fuel (fuel : nat) (bits index max step : Z) :
  1 <= step <= maxInt -> index <= maxInt ->
  (stepFuel index max <= fuel)%nat ->
  stepLoop fuel bits index max step
  = stepLoop (stepFuel index max) bits index max step.
Proof.
  intros Hstep Hindex Hfuel. now apply stepLoop_fuel_any.
Qed.

(** With a step that does not carry [index] past the largest [int], the
    loop ends within its fuel, does not panic, and adds the values on the
    step to the bit set. *)
Lemma stepLoop_bits (fuel : nat) (bits index max step : Z) :
  0 <= index -> 0 < step -> max < 64 ->
  (index <= max -> index + step <= maxInt) ->
  (Z.to_nat (max - index + 1) <= fuel)%nat ->
  exists bits',
    stepLoop fuel bits index max step = Ok bits'
    /\ forall v, 0 <= v ->
         Z.testbit bits' v = Z.testbit bits v || onStep index max step v.
Proof.
  revert bits index.
  induction fuel as [|fuel IH]; intros bits index Hindex Hstep Hmax Hover Hfuel;
    cbn [stepLoop].
  - replace (max <? index) with true by (symmetry; apply Z.ltb_lt; lia).
    exists bits. split; [reflexivity|]. intros v Hv. unfold onStep.
    destruct (index <=? v) eqn:E1, (v <=? max) eqn:E2; cbn [andb];
      rewrite ?orb_false_r; try reflexivity.
    apply Z.leb_le in E1, E2. lia.
  - destruct (max <? index) eqn:Edone.
    + apply Z.ltb_lt in Edone.
      exists bits. split; [reflexivity|]. intros v Hv. unfold onStep.
      destruct (index <=? v) eqn:E1, (v <=? max) eqn:E2; cbn [andb];
        rewrite ?orb_false_r; try reflexivity.
      apply Z.leb_le in E1, E2. lia.
    + apply Z.ltb_ge in Edone. unfold shift.
      replace (index <? 0) with false by (symmetry; apply Z.ltb_ge; lia).
      cbn [bind].
      rewrite (wrap_small (index + step)) by (unfold minInt, maxInt in *; lia).
      destruct (IH (Z.lor bits (shl64 1 index)) (index + step)) as [bits' [Hrun Hbits]];
        try lia.
      { intros Hnext. unfold maxInt. lia. }
      exists bits'. split; [exact Hrun|].
      intros v Hv. rewrite (Hbits v Hv), Z.lor_spec.
      rewrite testbit_shl64_one by lia.
      rewrite (onStep_unfold index max step v Hstep Edone).
      now rewrite orb_assoc.
Qed.

End StepBits.

Section StepTerms.
Open Scope string_scope.
Open Scope Z_scope.

Lemma checkValidValue_in_range (value : string) (ft : fieldType) (a : Z) :
  Atoi value = inl a -> MinValue ft <= a <= MaxValue ft ->
  checkValidValue value ft = Ok a.
Proof.
  intros Ha Hrange. unfold checkValidValue. rewrite Ha.
  destruct (cronField_eqb (Field ft) cronFieldDayOfWeek && (a =? 0)); [reflexivity|].
  replace (MinValue ft <=? a) with true by (symmetry; apply Z.leb_le; lia).
  replace (a <=? MaxValue ft) with true by (symmetry; apply Z.leb_le; lia).
  reflexivity.
Qed.

Lemma parseRange_number (sa : string) (ft : fieldType) (a : Z) :
  allDigits sa = true -> Atoi sa = inl a -> MinValue ft <= a <= MaxValue ft ->
  parseRange sa ft = Ok (newValueRange a a).
Proof.
  intros Hsa Ha Hrange. unfold parseRange, Index.
  rewrite (eqb_star sa Hsa), (index_from_hyphen sa 0 Hsa). cbn [Z.eqb].
  now rewrite (checkValidValue_in_range sa ft a Ha Hrange).
Qed.

(** What is left of [parseTerm] on the term [sa/ss] once its two numbers
    are read. *)
Lemma parseTerm_step (ft : fieldType) (bits : Z) (sa ss : string) (a step : Z) :
  allDigits sa = true ->
  Atoi sa = inl a -> Atoi ss = inl step ->
  MinValue ft <= a <= MaxValue ft -> 1 <= step ->
  parseTerm ft bits (sa ++ String "/" ss)
  = if 1 <? step then
      stepLoop (stepFuel a (MaxValue ft)) bits a (MaxValue ft) step
    else if a =? MaxValue ft then
      b <- shift 1 a ;; Ok (Z.lor bits b)
    else
      hi <- shift maxUint64 (wrap (MaxValue ft + 1)) ;;
      lo <- shift maxUint64 a ;;
      Ok (Z.land (not64 hi) lo).
Proof.
  intros Hsa Ha Hs Hrange Hstep. unfold parseTerm.
  destruct (term_parts sa ss Hsa) as [Hidx [Hfront Hback]].
  rewrite Hidx, Hfront, Hback.
  replace (len sa =? -1) with false by (symmetry; apply Z.eqb_neq; unfold len; lia).
  cbn [negb]. rewrite (parseRange_number sa ft a Hsa Ha Hrange). cbn [bind].
  unfold Index. rewrite (index_from_hyphen sa 0 Hsa). cbn [Z.eqb rangeMin].
  rewrite Hs.
  replace (step <=? 0) with false by (symmetry; apply Z.leb_gt; lia).
  cbn [bind rangeMin rangeMax]. reflexivity.
Qed.

Lemma cronFieldTypes_bounds (ft : fieldType) :
  In ft cronFieldTypes -> 0 <= MinValue ft /\ MaxValue ft <= 59.
Proof.
  unfold cronFieldTypes. cbn [In].
  intros [<-|[<-|[<-|[<-|[<-|[<-|[]]]]]]]; cbn; lia.
Qed.

(** For each of the six fields, a term [a/step] made of two numbers, [a]
    legal for the field and [step] at least 1, parses to the set of the
    values [a], [a + step], ... up to the maximum of the field, as long as
    [a + step] does not exceed the largest [int]. *)
Lemma parseField_step (ft : fieldType) (sa ss : string) (a step : Z) :
  In ft cronFieldTypes ->
  allDigits sa = true -> allDigits ss = true ->
  Atoi sa = inl a -> Atoi ss = inl step ->
  MinValue ft <= a <= MaxValue ft ->
  1 <= step -> a + step <= maxInt ->
  exists bits,
    parseField (sa ++ String "/" ss) ft = Ok (mkFieldBits ft bits)
    /\ forall v, 0 <= v -> Z.testbit bits v = onStep a (MaxValue ft) step v.
Proof.
  intros Hft Hsa Hss Ha Hs Hrange Hstep Hover.
  destruct (cronFieldTypes_bounds ft Hft) as [Hmin Hmax].
  assert (Hplain : plain (sa ++ String "/" ss) = true).
  { apply plain_app; [now apply allDigits_plain|].
    cbn [plain]. now rewrite (allDigits_plain ss Hss). }
  unfold parseField.
  replace (len (sa ++ String "/" ss) =? 0) with false
    by (symmetry; apply Z.eqb_neq; unfold len; rewrite length_append_char; lia).
  rewrite (ordinals_plain _ ft Hplain), (Split_plain _ Hplain).
  cbn [parseTerms newFieldBits Bits].
  rewrite (parseTerm_step ft 0 sa ss a step Hsa Ha Hs Hrange Hstep).
  destruct (1 <? step) eqn:Estep.
  - apply Z.ltb_lt in Estep.
    destruct (stepLoop_bits (stepFuel a (MaxValue ft)) 0 a (MaxValue ft) step)
      as [bits [Hrun Hbits]]; try lia.
    { unfold stepFuel. lia. }
    rewrite Hrun. cbn [bind]. exists bits. split; [reflexivity|].
    intros v Hv. rewrite (Hbits v Hv). now rewrite Z.testbit_0_l.
  - apply Z.ltb_ge in Estep. assert (step = 1) by lia. subst step.
    unfold shift.
    replace (a <? 0) with false by (symmetry; apply Z.ltb_ge; lia).
    rewrite (wrap_small (MaxValue ft + 1)) by (unfold minInt, maxInt; lia).
    replace (MaxValue ft + 1 <? 0) with false by (symmetry; apply Z.ltb_ge; lia).
    destruct (a =? MaxValue ft) eqn:Eq; cbn [bind]; eexists; (split; [reflexivity|]);
      intros v Hv; unfold onStep; rewrite Z.mod_1_r, Z.eqb_refl, andb_true_r.
    + apply Z.eqb_eq in Eq. rewrite Z.lor_0_l, testbit_shl64_one by lia.
      rewrite <- Eq.
      destruct (v =? a) eqn:E.
      * apply Z.eqb_eq in E. subst v. now rewrite Z.leb_refl.
      * apply Z.eqb_neq in E.
        destruct (a <=? v) eqn:E1, (v <=? a) eqn:E2; try reflexivity.
        apply Z.leb_le in E1, E2. lia.
    + rewrite testbit_range_mask by lia. reflexivity.
Qed.

(** The quarters of an hour, as an instance. *)
Example quarter_hours :
  exists bits,
    parseField "0/15" minute = Ok (mkFieldBits minute bits)
    /\ forall v, 0 <= v -> Z.testbit bits v = onStep 0 59 15 v.
Proof.
  apply (parseField_step minute "0" "15" 0 15); try reflexivity.
  - right. now left.
  - cbn. lia.
  - lia.
  - unfold maxInt. lia.
Qed.

(** C8.  In the minute field "0/15" parses to the set of 0, 15, 30 and 45.
    But "1/9223372036854775807", with the largest [int] as step, makes
    [parseField] panic where the set of 1 alone is expected: after the bit
    of 1 is set, [index += step] overflows to a negative [index], which is
    still at most 59 and is then used as a shift count. *)
Theorem step_overflow_panics :
  parseField "0/15" minute = Ok (mkFieldBits minute (bitsOf [0; 15; 30; 45]))
  /\ Atoi "9223372036854775807" = inl maxInt
  /\ parseField "1/9223372036854775807" minute
     = Panic (PanicRuntime "negative shift amount")
  /\ ParseCronExpression "* 1/9223372036854775807 * * * *"
     = Panic (PanicRuntime "negative shift amount").
Proof.
  repeat split; vm_compute; reflexivity.
Qed.

End StepTerms.

(* ================================================================== *)
(** * Further properties *)

(** ** The search for the next set bit *)

Section NextBit.
Open Scope Z_scope.

Lemma trailingZeros_from_spec (fuel : nat) (x i : Z) :
  i <= trailingZeros_from fuel x i <= i + Z.of_nat fuel
  /\ (forall v, i <= v < trailingZeros_from fuel x i -> Z.testbit x v = false)
  /\ (trailingZeros_from fuel x i < i + Z.of_nat fuel ->
      Z.testbit x (trailingZeros_from fuel x i) = true).
Proof.
  revert i. induction fuel as [|fuel IH]; intros i; cbn [trailingZeros_from].
  - repeat split; intros; lia.
  - destruct (Z.testbit x i) eqn:E.
    + repeat split; intros; try lia. exact E.
    + destruct (IH (i + 1)) as [Hr [Hlow Hbit]].
      repeat split; try lia.
      * intros v Hv. destruct (Z.eq_dec v i) as [->|Hne]; [exact E|].
        apply Hlow. lia.
      * intros Hlt. apply Hbit. lia.
Qed.

Lemma testbit_masked (bits index v : Z) :
  0 <= index -> 0 <= v ->
  Z.testbit (Z.land bits (shl64 mask index)) v
  = Z.testbit bits v && ((index <=? v) && (v <? 64)).
Proof.
  intros Hi Hv. unfold mask. now rewrite Z.land_spec, testbit_shl64_mask.
Qed.

Lemma masked_zero (bits index : Z) :
  0 <= index -> Z.land bits (shl64 mask index) = 0 ->
  forall v, index <= v < 64 -> Z.testbit bits v = false.
Proof.
  intros Hi Hz v Hv.
  pose proof (testbit_masked bits index v Hi ltac:(lia)) as H.
  rewrite Hz, Z.testbit_0_l in H.
  replace (index <=? v) with true in H by (symmetry; apply Z.leb_le; lia).
  replace (v <? 64) with true in H by (symmetry; apply Z.ltb_lt; lia).
  now rewrite andb_true_r in H.
Qed.

End NextBit.

Section NextBitSpec.
Open Scope Z_scope.

Lemma setNextBit_spec (bitsValue index : Z) :
  0 <= index ->
  (setNextBit bitsValue index = -1
   /\ forall v, index <= v < 64 -> Z.testbit bitsValue v = false)
  \/ (index <= setNextBit bitsValue index < 64
      /\ Z.testbit bitsValue (setNextBit bitsValue index) = true
      /\ forall v, index <= v < setNextBit bitsValue index ->
           Z.testbit bitsValue v = false).
Proof.
  intros Hindex. unfold setNextBit.
  set (result := Z.land bitsValue (shl64 mask index)).
  destruct (result =? 0) eqn:Ezero; cbn [negb].
  - left. split; [reflexivity|]. apply Z.eqb_eq in Ezero.
    now apply masked_zero.
  - right. apply Z.eqb_neq in Ezero. unfold TrailingZeros64.
    destruct (trailingZeros_from_spec 64 result 0) as [Hr [Hlow Hbit]].
    set (r := trailingZeros_from 64 result 0) in *.
    change (Z.of_nat 64) with 64 in *.
    assert (Hlt : r < 64).
    { destruct (Z.eq_dec r 64) as [E64|]; [|lia].
      exfalso. apply Ezero. apply Z.bits_inj_0. intros v.
      destruct (Z.ltb_spec v 0) as [Hneg|Hpos]; [now apply Z.testbit_neg_r|].
      destruct (Z.ltb_spec v 64) as [Hin|Hout]; [apply Hlow; lia|].
      unfold result. rewrite testbit_masked by lia.
      replace (v <? 64) with false by (symmetry; apply Z.ltb_ge; lia).
      now rewrite !andb_false_r. }
    specialize (Hbit ltac:(lia)).
    unfold result in Hbit. rewrite testbit_masked in Hbit by lia.
    apply andb_true_iff in Hbit as [Hset Hrange].
    apply andb_true_iff in Hrange as [Hge _]. apply Z.leb_le in Hge.
    repeat split; try lia; [exact Hset|].
    intros v Hv. specialize (Hlow v ltac:(lia)).
    unfold result in Hlow. rewrite testbit_masked in Hlow by lia.
    replace (index <=? v) with true in Hlow by (symmetry; apply Z.leb_le; lia).
    replace (v <? 64) with true in Hlow by (symmetry; apply Z.ltb_lt; lia).
    now rewrite andb_true_r in Hlow.
Qed.

(** X1.  [setNextBit] finds the smallest value at or after [index] whose
    bit is set: it answers -1 when no bit from [index] to 63 is set, and
    otherwise a value from [index] to 63 whose bit is set while none of the
    bits between [index] and it is. *)
Theorem setNextBit_finds_next (bitsValue index : Z) :
  0 <= index ->
  (setNextBit bitsValue index = -1
   /\ forall v, index <= v < 64 -> Z.testbit bitsValue v = false)
  \/ (index <= setNextBit bitsValue index < 64
      /\ Z.testbit bitsValue (setNextBit bitsValue index) = true
      /\ forall v, index <= v < setNextBit bitsValue index ->
           Z.testbit bitsValue v = false).
Proof.
  exact (setNextBit_spec bitsValue index).
Qed.

Lemma setNextBit_finds_next_witness :
  (setNextBit (bitsOf [0; 15; 30; 45]) 16 = -1
   /\ forall v, 16 <= v < 64 -> Z.testbit (bitsOf [0; 15; 30; 45]) v = false)
  \/ (16 <= setNextBit (bitsOf [0; 15; 30; 45]) 16 < 64
      /\ Z.testbit (bitsOf [0; 15; 30; 45]) (setNextBit (bitsOf [0; 15; 30; 45]) 16) = true
      /\ forall v, 16 <= v < setNextBit (bitsOf [0; 15; 30; 45]) 16 ->
           Z.testbit (bitsOf [0; 15; 30; 45]) v = false).
Proof.
  apply (setNextBit_finds_next (bitsOf [0; 15; 30; 45]) 16). lia.
Defined.

Lemma setNextBit_at_set_bit (bitsValue index : Z) :
  0 <= index < 64 -> Z.testbit bitsValue index = true ->
  setNextBit bitsValue index = index.
Proof.
  intros Hindex Hset.
  destruct (setNextBit_spec bitsValue index ltac:(lia))
    as [[_ Hnone]|[Hrange [_ Hlow]]].
  - rewrite (Hnone index ltac:(lia)) in Hset. discriminate.
  - destruct (Z.eq_dec (setNextBit bitsValue index) index) as [E|Hne]; [exact E|].
    rewrite (Hlow index ltac:(lia)) in Hset. discriminate.
Qed.

Lemma setNextBit_empty (index : Z) : setNextBit 0 index = -1.
Proof.
  unfold setNextBit. now rewrite Z.land_0_l.
Qed.

End NextBitSpec.

(** ** Calendar values and carries *)

Section Calendar.
Open Scope Z_scope.

Lemma getTimeValue_bounds (t : time.Time) :
  Forall (fun ft => MinValue ft <= getTimeValue t (Field ft) <= MaxValue ft)
         cronFieldTypes.
Proof.
  pose proof (civil_month_day (time.daysSince t)) as [Hm Hd].
  unfold cronFieldTypes.
  repeat constructor; cbn [Field MinValue MaxValue second minute hour dayOfMonth month
                             dayOfWeek getTimeValue];
    unfold time.Time_Second, time.Time_Minute, time.Time_Hour, time.Time_Weekday,
           time.Time_Day, time.Time_Month;
    try (match goal with
         | |- _ <= ?a mod ?b => pose proof (Z.mod_pos_bound a b ltac:(lia)); lia
         | |- ?a mod ?b <= _ => pose proof (Z.mod_pos_bound a b ltac:(lia)); lia
         end); lia.
Qed.

(** X2.  For each of the six fields, the value that [getTimeValue] reads
    from an instant lies within the legal range of the field. *)
Theorem getTimeValue_in_field_range (t : time.Time) :
  Forall (fun ft => MinValue ft <= getTimeValue t (Field ft) <= MaxValue ft)
         cronFieldTypes.
Proof.
  exact (getTimeValue_bounds t).
Qed.

Lemma getTimeValue_below_64 (t : time.Time) (field : cronField) :
  0 <= getTimeValue t field < 64.
Proof.
  pose proof (getTimeValue_bounds t) as H.
  unfold cronFieldTypes in H.
  repeat match goal with
         | H : Forall _ (_ :: _) |- _ => inversion H; subst; clear H
         end.
  destruct field; cbn [Field MinValue MaxValue second minute hour dayOfMonth month
                         dayOfWeek] in *; lia.
Qed.

End Calendar.

Section Carries.
Open Scope Z_scope.

Lemma civil_yoe_range (doe : Z) :
  0 <= doe < 146097 ->
  0 <= (doe - doe / 1460 + doe / 36524 - doe / 146096) / 365 <= 399.
Proof.
  intros Hdoe.
  pose proof (Z.div_mod doe 1460 ltac:(lia)).
  pose proof (Z.mod_pos_bound doe 1460 ltac:(lia)).
  pose proof (Z.div_mod doe 36524 ltac:(lia)).
  pose proof (Z.mod_pos_bound doe 36524 ltac:(lia)).
  pose proof (Z.div_mod doe 146096 ltac:(lia)).
  pose proof (Z.mod_pos_bound doe 146096 ltac:(lia)).
  split.
  - apply Z.div_pos; lia.
  - apply Z.lt_succ_r, Z.div_lt_upper_bound; lia.
Qed.

Lemma civil_doy_range (doe : Z) :
  0 <= doe < 146097 ->
  let yoe := (doe - doe / 1460 + doe / 36524 - doe / 146096) / 365 in
  0 <= doe - (365 * yoe + yoe / 4 - yoe / 100) <= 365.
Proof.
  intros Hdoe yoe.
  pose proof (civil_yoe_range doe Hdoe) as Hyoe. fold yoe in Hyoe.
  pose proof (Z.div_mod (doe - doe / 1460 + doe / 36524 - doe / 146096) 365 ltac:(lia)) as Hd.
  pose proof (Z.mod_pos_bound (doe - doe / 1460 + doe / 36524 - doe / 146096) 365
                ltac:(lia)) as Hm.
  fold yoe in Hd.
  pose proof (Z.div_mod doe 1460 ltac:(lia)).
  pose proof (Z.mod_pos_bound doe 1460 ltac:(lia)).
  pose proof (Z.div_mod doe 36524 ltac:(lia)).
  pose proof (Z.mod_pos_bound doe 36524 ltac:(lia)).
  pose proof (Z.div_mod doe 146096 ltac:(lia)).
  pose proof (Z.mod_pos_bound doe 146096 ltac:(lia)).
  pose proof (Z.div_mod yoe 4 ltac:(lia)).
  pose proof (Z.mod_pos_bound yoe 4 ltac:(lia)).
  pose proof (Z.div_mod yoe 100 ltac:(lia)).
  pose proof (Z.mod_pos_bound yoe 100 ltac:(lia)).
  lia.
Qed.

(** From a date back to its day number; the day of the month may be moved
    by any amount. *)
Lemma daysFromCivil_civil (days v : Z) :
  time.daysFromCivil (fst (fst (time.civil days))) (snd (fst (time.civil days)))
                     (snd (time.civil days) + v)
  = days + v.
Proof.
  unfold time.civil, time.daysFromCivil.
  set (era := (days + 306) / 146097).
  set (doe := (days + 306) mod 146097).
  assert (Hdoe : 0 <= doe < 146097) by (apply Z.mod_pos_bound; lia).
  assert (Hdays : days + 306 = 146097 * era + doe)
    by (apply Z.div_mod; lia).
  pose proof (civil_yoe_range doe Hdoe) as Hyoe.
  set (yoe := (doe - doe / 1460 + doe / 36524 - doe / 146096) / 365) in *.
  set (doy := doe - (365 * yoe + yoe / 4 - yoe / 100)).
  set (mp := (5 * doy + 2) / 153).
  cbn [fst snd].
  set (m := if mp <? 10 then mp + 3 else mp - 9).
  assert (Hy : (if m <=? 2 then (if m <=? 2 then yoe + era * 400 + 1 else yoe + era * 400) - 1
                else (if m <=? 2 then yoe + era * 400 + 1 else yoe + era * 400))
               = yoe + era * 400).
  { destruct (m <=? 2); lia. }
  rewrite Hy.
  pose proof (civil_doy_range doe Hdoe) as Hdoy. cbv zeta in Hdoy.
  fold yoe in Hdoy. fold doy in Hdoy.
  assert (Hmpr : 0 <= mp <= 11).
  { unfold mp. split.
    - apply Z.div_pos; lia.
    - apply Z.lt_succ_r, Z.div_lt_upper_bound; lia. }
  assert (Hmp : (if 2 <? m then m - 3 else m + 9) = mp).
  { unfold m. destruct (mp <? 10) eqn:E.
    - apply Z.ltb_lt in E.
      replace (2 <? mp + 3) with true by (symmetry; apply Z.ltb_lt; lia). lia.
    - apply Z.ltb_ge in E.
      replace (2 <? mp - 9) with false by (symmetry; apply Z.ltb_ge; lia). lia. }
  rewrite Hmp.
  replace ((yoe + era * 400) / 400) with era
    by (symmetry; rewrite Z.div_add by lia; rewrite Z.div_small; lia).
  replace ((yoe + era * 400) mod 400) with yoe
    by (symmetry; rewrite Z.mod_add by lia; apply Z.mod_small; lia).
  unfold doy. lia.
Qed.

End Carries.

Section AddTime.
Open Scope Z_scope.

Lemma seconds_split (t : time.Time) :
  time.seconds t
  = ((time.daysSince t * 24 + time.Time_Hour t) * 60 + time.Time_Minute t) * 60
    + time.Time_Second t.
Proof.
  unfold time.daysSince, time.Time_Hour, time.Time_Minute, time.Time_Second.
  set (S := time.seconds t).
  pose proof (Z.div_mod S 60 ltac:(lia)).
  pose proof (Z.div_mod (S / 60) 60 ltac:(lia)).
  pose proof (Z.div_mod (S / 3600) 24 ltac:(lia)).
  replace (S / 3600) with (S / 60 / 60) in * by (rewrite Z.div_div by lia; reflexivity).
  replace (S / 86400) with (S / 60 / 60 / 24)
    by (rewrite !Z.div_div by lia; reflexivity).
  lia.
Qed.

Lemma year_in_int (t : time.Time) :
  minInt <= time.seconds t <= maxInt ->
  minInt <= time.Time_Year t <= maxInt.
Proof.
  unfold minInt, maxInt, time.Time_Year, time.civil, time.daysSince.
  intros HS. set (S := time.seconds t) in *.
  set (days := S / 86400).
  pose proof (Z.div_mod S 86400 ltac:(lia)) as Hdays.
  pose proof (Z.mod_pos_bound S 86400 ltac:(lia)).
  fold days in Hdays.
  set (era := (days + 306) / 146097).
  set (doe := (days + 306) mod 146097).
  assert (Hdoe : 0 <= doe < 146097) by (apply Z.mod_pos_bound; lia).
  assert (Hera : days + 306 = 146097 * era + doe) by (apply Z.div_mod; lia).
  pose proof (civil_yoe_range doe Hdoe) as Hyoe.
  set (yoe := (doe - doe / 1460 + doe / 36524 - doe / 146096) / 365) in *.
  cbn [fst snd].
  match goal with |- _ <= (if ?c then _ else _) <= _ => destruct c end; lia.
Qed.

Lemma AddDate_days (t : time.Time) (v : Z) :
  minInt <= time.seconds t <= maxInt ->
  -1000000 <= v <= 1000000 ->
  time.AddDate t 0 0 v = time.Add t (v * (24 * time.Hour)).
Proof.
  intros HS Hv. unfold time.AddDate, time.Date, time.Add.
  pose proof (year_in_int t HS) as Hy.
  pose proof (civil_month_day (time.daysSince t)) as [Hm Hd].
  fold (time.Time_Month t) in Hm. fold (time.Time_Day t) in Hd.
  rewrite Z.add_0_r, Z.add_0_r.
  rewrite (wrap_small (time.Time_Year t)) by exact Hy.
  rewrite (wrap_small (time.Time_Month t)) by (unfold minInt, maxInt; lia).
  rewrite (wrap_small (time.Time_Day t + v)) by (unfold minInt, maxInt; lia).
  replace ((time.Time_Month t - 1) / 12) with 0
    by (symmetry; apply Z.div_small; lia).
  replace ((time.Time_Month t - 1) mod 12 + 1) with (time.Time_Month t)
    by (rewrite Z.mod_small; lia).
  rewrite Z.add_0_r.
  unfold time.Time_Year, time.Time_Month, time.Time_Day.
  rewrite daysFromCivil_civil.
  pose proof (seconds_split t) as Hsplit.
  assert (Ht : t = time.seconds t * time.Second + time.Time_Nanosecond t).
  { unfold time.seconds, time.Time_Nanosecond, time.Second.
    pose proof (Z.div_mod t 1000000000 ltac:(lia)). lia. }
  unfold time.Hour, time.Minute, time.Second in *. lia.
Qed.

Lemma addTime_units (t : time.Time) (field : cronField) (value : Z)
    (unit : time.Duration) :
  unitOf field = Some unit ->
  minInt <= time.seconds t <= maxInt ->
  -1000000 <= value <= 1000000 ->
  addTime t field value = time.Add t (value * unit).
Proof.
  intros Hunit HS Hv.
  destruct field; cbn [unitOf] in Hunit; try discriminate;
    injection Hunit as <-; cbn [addTime];
    try (rewrite wrap_small;
         [reflexivity
         | unfold minInt, maxInt, time.Hour, time.Minute, time.Second; lia]);
    now apply AddDate_days.
Qed.

(** X3.  In UTC, for an instant that a [time.Time] can hold and a value of
    at most a million in size, [addTime] moves the instant by that many
    seconds, minutes, hours or days, according to the field; the two fields
    of days both add days of 24 hours. *)
Theorem addTime_adds_units (t : time.Time) (field : cronField) (value : Z)
    (unit : time.Duration) :
  unitOf field = Some unit ->
  minInt <= time.seconds t <= maxInt ->
  -1000000 <= value <= 1000000 ->
  addTime t field value = time.Add t (value * unit).
Proof.
  exact (addTime_units t field value unit).
Qed.

Lemma addTime_adds_units_witness :
  addTime (time.Date 2024 2 28 23 0 0 0) cronFieldDayOfMonth 2
  = time.Add (time.Date 2024 2 28 23 0 0 0) (2 * (24 * time.Hour)).
Proof.
  apply (addTime_adds_units (time.Date 2024 2 28 23 0 0 0) cronFieldDayOfMonth 2
           (24 * time.Hour)).
  - reflexivity.
  - vm_compute. split; discriminate.
  - lia.
Defined.

End AddTime.

Section CarryLands.
Open Scope Z_scope.

Lemma seconds_Add (t : time.Time) (k : Z) :
  time.seconds (time.Add t (k * time.Second)) = time.seconds t + k.
Proof.
  unfold time.seconds, time.Add, time.Second. now rewrite Z.div_add by lia.
Qed.

Lemma mod_carry (a n : Z) : 0 < n -> (a + (n - a mod n)) mod n = 0.
Proof.
  intros Hn. pose proof (Z.div_mod a n ltac:(lia)).
  replace (a + (n - a mod n)) with ((a / n + 1) * n) by lia.
  apply Z.mod_mul. lia.
Qed.

Lemma Time_Second_Add (t : time.Time) (k : Z) :
  time.Time_Second (time.Add t (k * time.Second)) = (time.seconds t + k) mod 60.
Proof.
  unfold time.Time_Second. now rewrite seconds_Add.
Qed.

Lemma Time_Minute_Add (t : time.Time) (k : Z) :
  time.Time_Minute (time.Add t (k * time.Minute)) = (time.seconds t / 60 + k) mod 60.
Proof.
  unfold time.Time_Minute, time.Minute.
  rewrite Z.mul_assoc, seconds_Add. now rewrite Z.div_add by lia.
Qed.

Lemma Time_Hour_Add (t : time.Time) (k : Z) :
  time.Time_Hour (time.Add t (k * time.Hour)) = (time.seconds t / 3600 + k) mod 24.
Proof.
  unfold time.Time_Hour, time.Hour, time.Minute.
  rewrite !Z.mul_assoc, seconds_Add.
  replace (k * 60 * 60) with (k * 3600) by lia. now rewrite Z.div_add by lia.
Qed.

Lemma Time_Weekday_Add (t : time.Time) (k : Z) :
  time.Time_Weekday (time.Add t (k * (24 * time.Hour)))
  = (time.daysSince t + 1 + k) mod 7.
Proof.
  unfold time.Time_Weekday, time.daysSince, time.Hour, time.Minute.
  rewrite !Z.mul_assoc, seconds_Add.
  replace (k * 24 * 60 * 60) with (k * 86400) by lia.
  rewrite Z.div_add by lia. f_equal. lia.
Qed.

Lemma carry_amount (t : time.Time) (ft : fieldType) :
  In ft cronFieldTypes ->
  wrap (wrap (MaxValue ft - getTimeValue t (Field ft)) + 1)
  = MaxValue ft - getTimeValue t (Field ft) + 1
  /\ 1 <= MaxValue ft - getTimeValue t (Field ft) + 1 <= 60.
Proof.
  intros Hft.
  pose proof (getTimeValue_bounds t) as Hall.
  rewrite Forall_forall in Hall. specialize (Hall ft Hft).
  destruct (cronFieldTypes_bounds ft Hft) as [Hmin Hmax].
  rewrite !wrap_small by (unfold minInt, maxInt; rewrite ?wrap_small;
                          unfold minInt, maxInt; lia).
  lia.
Qed.

Lemma carry_lands (t : time.Time) :
  minInt <= time.seconds t <= maxInt ->
  Forall (fun ft => getTimeValue (carry t ft) (Field ft) = MinValue ft)
         [second; minute; hour; dayOfWeek]
  /\ carry t dayOfMonth
     = time.Add t ((32 - time.Time_Day t) * (24 * time.Hour)).
Proof.
  intros HS.
  assert (Hcarry : forall ft unit, In ft cronFieldTypes ->
             unitOf (Field ft) = Some unit ->
             carry t ft
             = time.Add t ((MaxValue ft - getTimeValue t (Field ft) + 1) * unit)).
  { intros ft unit Hft Hunit. unfold carry.
    destruct (carry_amount t ft Hft) as [-> Hk].
    apply addTime_units; [exact Hunit | exact HS | lia]. }
  split.
  - repeat constructor.
    + rewrite (Hcarry second time.Second) by (cbn; auto).
      cbn [Field MaxValue MinValue second getTimeValue].
      rewrite Time_Second_Add.
      replace (59 - time.Time_Second t + 1) with (60 - time.seconds t mod 60)
        by (unfold time.Time_Second; lia).
      now apply mod_carry.
    + rewrite (Hcarry minute time.Minute) by (cbn; auto).
      cbn [Field MaxValue MinValue minute getTimeValue].
      rewrite Time_Minute_Add.
      replace (59 - time.Time_Minute t + 1) with (60 - (time.seconds t / 60) mod 60)
        by (unfold time.Time_Minute; lia).
      now apply mod_carry.
    + rewrite (Hcarry hour time.Hour) by (cbn; auto).
      cbn [Field MaxValue MinValue hour getTimeValue].
      rewrite Time_Hour_Add.
      replace (23 - time.Time_Hour t + 1) with (24 - (time.seconds t / 3600) mod 24)
        by (unfold time.Time_Hour; lia).
      now apply mod_carry.
    + rewrite (Hcarry dayOfWeek (24 * time.Hour)) by (cbn; auto 10).
      cbn [Field MaxValue MinValue dayOfWeek getTimeValue].
      rewrite Time_Weekday_Add.
      replace (6 - time.Time_Weekday t + 1) with (7 - (time.daysSince t + 1) mod 7)
        by (unfold time.Time_Weekday; lia).
      now apply mod_carry.
  - rewrite (Hcarry dayOfMonth (24 * time.Hour)) by (cbn; auto 10).
    cbn [Field MaxValue dayOfMonth getTimeValue].
    f_equal. lia.
Qed.

(** X4.  In UTC: when [next] carries on the seconds, the minutes, the hours
    or the day of the week, the instant it moves to has the value 0 in that
    field, the minimum of the field; on the day of the month it moves
    [32 - day] days of 24 hours ahead, whatever the length of the month.
    (In a location that changes its offset the added hours and days are
    the same but the local reading after them need not be 0.) *)
Theorem carry_lands_on_minimum (t : time.Time) :
  minInt <= time.seconds t <= maxInt ->
  Forall (fun ft => getTimeValue (carry t ft) (Field ft) = MinValue ft)
         [second; minute; hour; dayOfWeek]
  /\ carry t dayOfMonth
     = time.Add t ((32 - time.Time_Day t) * (24 * time.Hour)).
Proof.
  exact (carry_lands t).
Qed.

Lemma carry_lands_on_minimum_witness :
  Forall (fun ft => getTimeValue (carry (time.Date 2021 4 10 17 42 13 0) ft) (Field ft)
                    = MinValue ft)
         [second; minute; hour; dayOfWeek]
  /\ carry (time.Date 2021 4 10 17 42 13 0) dayOfMonth
     = time.Add (time.Date 2021 4 10 17 42 13 0)
                ((32 - time.Time_Day (time.Date 2021 4 10 17 42 13 0)) * (24 * time.Hour)).
Proof.
  apply (carry_lands_on_minimum (time.Date 2021 4 10 17 42 13 0)).
  vm_compute. split; discriminate.
Defined.

End CarryLands.

(** ** What [NextTime] answers *)

Section NextTimeAnswers.
Open Scope Z_scope.

Lemma Add_nextSecond (t : time.Time) :
  time.Add t (1 * time.Second - time.Time_Nanosecond t * time.Nanosecond)
  = nextSecond t.
Proof.
  unfold time.Add, nextSecond, time.seconds, time.Time_Nanosecond, time.Second,
         time.Nanosecond.
  pose proof (Z.div_mod t 1000000000 ltac:(lia)). lia.
Qed.

(** X5.  [NextTime] has only two answers: the start of the second after
    the one [t] lies in, or the zero instant.  Either way the answer has no
    fraction of a second. *)
Theorem NextTime_next_second_or_zero (expression : CronExpression) (t : time.Time) :
  (NextTime expression t = nextSecond t \/ NextTime expression t = time.zero)
  /\ time.Time_Nanosecond (NextTime expression t) = 0.
Proof.
  assert (H : NextTime expression t = nextSecond t \/ NextTime expression t = time.zero).
  { rewrite <- Add_nextSecond. apply NextTime_cases. }
  split; [exact H|].
  destruct H as [-> | ->].
  - unfold nextSecond, time.Time_Nanosecond. apply Z.mod_mul. discriminate.
  - reflexivity.
Qed.

Lemma next_from_first_match (field : cronFieldBits) (rest : list cronFieldBits)
    (t : time.Time) :
  fieldMatches field t = true -> next_from (field :: rest) t = t.
Proof.
  unfold fieldMatches, allowed. intros Hset. cbn [next_from].
  pose proof (getTimeValue_below_64 t (Field (Typ field))) as Hrange.
  rewrite (setNextBit_at_set_bit _ _ Hrange Hset).
  replace (getTimeValue t (Field (Typ field)) =? -1) with false
    by (symmetry; apply Z.eqb_neq; lia).
  now rewrite Z.eqb_refl.
Qed.

Lemma NextTime_loop_first (expression : CronExpression) (t : time.Time) :
  NextTime expression t = next expression (nextSecond t).
Proof.
  unfold NextTime. rewrite Add_nextSecond.
  change (Z.to_nat maxAttempts) with (S 365). cbn [NextTime_loop].
  unfold next.
  destruct (next_from_cases (fields expression) (nextSecond t)) as [E|E]; rewrite E.
  - unfold time.Equal. now rewrite Z.eqb_refl, orb_true_r.
  - reflexivity.
Qed.

(** X6.  When the first field of an expression, the one of the seconds in
    a parsed expression, allows the second that follows [t], [NextTime]
    answers the start of that second, whatever the other fields allow. *)
Theorem NextTime_first_field_decides (expression : CronExpression)
    (field : cronFieldBits) (rest : list cronFieldBits) (t : time.Time) :
  fields expression = field :: rest ->
  fieldMatches field (nextSecond t) = true ->
  NextTime expression t = nextSecond t.
Proof.
  intros Hfields Hmatch. rewrite NextTime_loop_first. unfold next.
  rewrite Hfields. now apply next_from_first_match.
Qed.

Lemma NextTime_first_field_decides_witness :
  NextTime (parsed "*/10 0 0 1 1 *") (time.Date 2021 6 15 9 30 19 500)
  = nextSecond (time.Date 2021 6 15 9 30 19 500).
Proof.
  apply (NextTime_first_field_decides (parsed "*/10 0 0 1 1 *")
           (mkFieldBits second (bitsOf [0; 10; 20; 30; 40; 50]))
           (tl (fields (parsed "*/10 0 0 1 1 *")))).
  - vm_compute; reflexivity.
  - vm_compute; reflexivity.
Defined.

(** X7.  An expression whose first field allows no value never fires:
    [NextTime] answers the zero instant from every instant. *)
Theorem NextTime_never_on_empty_field (expression : CronExpression)
    (field : cronFieldBits) (rest : list cronFieldBits) (t : time.Time) :
  fields expression = field :: rest ->
  Bits field = 0 ->
  NextTime expression t = time.zero.
Proof.
  intros Hfields Hempty. rewrite NextTime_loop_first. unfold next.
  rewrite Hfields. cbn [next_from]. rewrite Hempty, !setNextBit_empty.
  change (-1 =? -1) with true. cbv beta iota.
  pose proof (getTimeValue_below_64 (nextSecond t) (Field (Typ field))) as Hcur.
  replace (-1 =? getTimeValue (nextSecond t) (Field (Typ field))) with false
    by (symmetry; apply Z.eqb_neq; lia).
  rewrite spin_differ.
  - reflexivity.
  - pose proof (getTimeValue_below_64
                  (addTime (nextSecond t) (Field (Typ field))
                     (wrap (wrap (MaxValue (Typ field)
                                  - getTimeValue (nextSecond t) (Field (Typ field))) + 1)))
                  (Field (Typ field))). lia.
  - unfold maxAttempts. lia.
  - unfold maxAttempts. lia.
Qed.

Lemma NextTime_never_on_empty_field_witness :
  NextTime (parsed "30-10 * * * * *") (time.Date 2021 6 15 9 30 19 0) = time.zero.
Proof.
  apply (NextTime_never_on_empty_field (parsed "30-10 * * * * *")
           (mkFieldBits second 0) (tl (fields (parsed "30-10 * * * * *")))).
  - vm_compute; reflexivity.
  - reflexivity.
Defined.

End NextTimeAnswers.

(** ** Parsing: the values of a field stay within its range *)

Section WithinRange.
Open Scope string_scope.
Open Scope Z_scope.

Lemma parseUint_aux_nonneg (s : string) (acc un : Z) :
  0 <= acc -> parseUint_aux s acc = inl un -> 0 <= un.
Proof.
  revert acc. induction s as [|c s IH]; intros acc Hacc; cbn [parseUint_aux].
  - now intros [= <-].
  - unfold digitVal.
    destruct ((48 <=? Z.of_nat (nat_of_ascii c)) && (Z.of_nat (nat_of_ascii c) <=? 57))
      eqn:Ed; [|discriminate].
    apply andb_true_iff in Ed as [Hlo _]. apply Z.leb_le in Hlo.
    destruct (maxUint64 <? acc * 10 + (Z.of_nat (nat_of_ascii c) - 48)); [discriminate|].
    apply IH. lia.
Qed.

(** What [strconv.Atoi] returns is an [int]. *)
Lemma Atoi_int (s : string) (n : Z) : Atoi s = inl n -> minInt <= n <= maxInt.
Proof.
  unfold Atoi, minInt, maxInt.
  set (p := match s with
            | String "-" r => (true, r)
            | String "+" r => (false, r)
            | _ => (false, s)
            end).
  destruct p as [neg body].
  destruct body as [|c body]; [discriminate|].
  destruct (parseUint_aux (String c body) 0) as [un|e] eqn:Eun; [|discriminate].
  pose proof (parseUint_aux_nonneg _ 0 un ltac:(lia) Eun) as Hun.
  destruct neg.
  - destruct (2 ^ 63 <? un) eqn:E; [discriminate|].
    apply Z.ltb_ge in E. intros [= <-]. lia.
  - destruct (2 ^ 63 - 1 <? un) eqn:E; [discriminate|].
    apply Z.ltb_ge in E. intros [= <-]. lia.
Qed.

Lemma checkValidValue_bounds (value : string) (ft : fieldType) (result : Z) :
  In ft cronFieldTypes ->
  checkValidValue value ft = Ok result ->
  MinValue ft <= result <= MaxValue ft.
Proof.
  intros Hft. unfold checkValidValue.
  destruct (Atoi value) as [n|e]; [|discriminate].
  destruct (cronField_eqb (Field ft) cronFieldDayOfWeek && (n =? 0)) eqn:Edow.
  - intros [= <-]. apply andb_true_iff in Edow as [Hf Hz]. apply Z.eqb_eq in Hz.
    subst n. unfold cronFieldTypes in Hft. cbn [In] in Hft.
    destruct Hft as [<-|[<-|[<-|[<-|[<-|[<-|[]]]]]]]; cbn in Hf |- *;
      try discriminate; lia.
  - destruct ((MinValue ft <=? n) && (n <=? MaxValue ft)) eqn:Ein; [|discriminate].
    intros [= <-]. apply andb_true_iff in Ein as [H1 H2].
    apply Z.leb_le in H1, H2. lia.
Qed.

Lemma parseRange_bounds (value : string) (ft : fieldType) (vr : valueRange) :
  In ft cronFieldTypes ->
  parseRange value ft = Ok vr ->
  MinValue ft <= rangeMin vr <= MaxValue ft
  /\ MinValue ft <= rangeMax vr <= MaxValue ft.
Proof.
  intros Hft. unfold parseRange.
  destruct (String.eqb value "*").
  - intros [= <-]. cbn [rangeMin rangeMax].
    destruct (cronFieldTypes_bounds ft Hft).
    unfold cronFieldTypes in Hft. cbn [In] in Hft.
    destruct Hft as [<-|[<-|[<-|[<-|[<-|[<-|[]]]]]]]; cbn; lia.
  - destruct (Index value "-" =? -1).
    + destruct (checkValidValue value ft) as [r| |] eqn:Er; cbn [bind]; try discriminate.
      intros [= <-]. cbn [rangeMin rangeMax].
      pose proof (checkValidValue_bounds _ _ _ Hft Er). lia.
    + destruct (checkValidValue (slice value 0 (Index value "-")) ft)
        as [lo| |] eqn:Elo; cbn [bind]; try discriminate.
      destruct (checkValidValue (slice value (Index value "-" + 1) (len value)) ft)
        as [hi| |] eqn:Ehi; cbn [bind]; try discriminate.
      intros [= <-]. cbn [rangeMin rangeMax].
      pose proof (checkValidValue_bounds _ _ _ Hft Elo).
      pose proof (checkValidValue_bounds _ _ _ Hft Ehi).
      destruct (cronField_eqb (Field ft) cronFieldDayOfWeek && (lo =? 7)) eqn:Edow;
        [|lia].
      apply andb_true_iff in Edow as [Hf Hz]. apply Z.eqb_eq in Hz. subst lo.
      unfold cronFieldTypes in Hft. cbn [In] in Hft.
      destruct Hft as [<-|[<-|[<-|[<-|[<-|[<-|[]]]]]]]; cbn in *;
        try discriminate; lia.
Qed.

(** [parseRange] returns a range or an error; it never panics. *)
Lemma parseRange_no_panic (value : string) (ft : fieldType) :
  panics (parseRange value ft) = false.
Proof.
  assert (Hc : forall v, panics (checkValidValue v ft) = false).
  { intros v. unfold checkValidValue.
    destruct (Atoi v); [|reflexivity].
    destruct (_ && _); [reflexivity|]. destruct (_ && _); reflexivity. }
  unfold parseRange.
  destruct (String.eqb value "*"); [reflexivity|].
  destruct (Index value "-" =? -1).
  - pose proof (Hc value). destruct (checkValidValue value ft); [reflexivity..|discriminate].
  - pose proof (Hc (slice value 0 (Index value "-"))) as H1.
    destruct (checkValidValue (slice value 0 (Index value "-")) ft);
      cbn [bind]; [|reflexivity|discriminate].
    pose proof (Hc (slice value (Index value "-" + 1) (len value))) as H2.
    destruct (checkValidValue (slice value (Index value "-" + 1) (len value)) ft);
      cbn [bind]; [reflexivity|reflexivity|discriminate].
Qed.

Lemma testbit_shl64_one_inv (n v : Z) :
  0 <= n -> Z.testbit (shl64 1 n) v = true -> v = n.
Proof.
  intros Hn Hbit.
  destruct (Z.ltb_spec v 0) as [Hneg|Hpos];
    [rewrite Z.testbit_neg_r in Hbit by lia; discriminate|].
  rewrite testbit_shl64, testbit_one in Hbit by lia.
  apply andb_true_iff in Hbit as [Hz _]. apply Z.eqb_eq in Hz. lia.
Qed.

(** The bits that the loop over a step adds lie between its start and
    [max], also when [index += step] overflows. *)
Lemma stepLoop_within (fuel : nat) (bits index max step lo bits' : Z) :
  1 <= step <= maxInt -> index <= maxInt -> 0 <= lo ->
  lo <= index \/ index < 0 ->
  stepLoop fuel bits index max step = Ok bits' ->
  forall v, Z.testbit bits' v = true -> Z.testbit bits v = true \/ lo <= v <= max.
Proof.
  unfold maxInt. revert bits index.
  induction fuel as [|fuel IH]; intros bits index Hstep Hindex Hlo Hinv; cbn [stepLoop].
  - destruct (max <? index); intros [= <-] v Hv; now left.
  - destruct (max <? index) eqn:Edone; [intros [= <-] v Hv; now left|].
    apply Z.ltb_ge in Edone. unfold shift.
    destruct (index <? 0) eqn:Eneg; [discriminate|].
    apply Z.ltb_ge in Eneg. cbn [bind]. intros Hrun v Hv.
    assert (Hnext : lo <= wrap (index + step) \/ wrap (index + step) < 0).
    { destruct (Z.leb_spec (index + step) (2 ^ 63 - 1)) as [Hok|Hover].
      - rewrite wrap_small by (unfold minInt, maxInt; lia). left. lia.
      - right. unfold wrap.
        replace (index + step + 2 ^ 63) with (index + step - 2 ^ 63 + 1 * 2 ^ 64) by lia.
        rewrite Z.mod_add, Z.mod_small by lia. lia. }
    assert (Hnext_int : wrap (index + step) <= 2 ^ 63 - 1).
    { unfold wrap. pose proof (Z.mod_pos_bound (index + step + 2 ^ 63) (2 ^ 64) ltac:(lia)).
      lia. }
    destruct (IH _ _ Hstep Hnext_int Hlo Hnext Hrun v Hv) as [Hold|Hin]; [|now right].
    rewrite Z.lor_spec in Hold. apply orb_true_iff in Hold as [Hold|Hnew]; [now left|].
    apply testbit_shl64_one_inv in Hnew; [|lia]. right. lia.
Qed.

Lemma parseTerm_withinRange (ft : fieldType) (bits bits' : Z) (field : string) :
  In ft cronFieldTypes ->
  withinRange ft bits ->
  parseTerm ft bits field = Ok bits' ->
  withinRange ft bits'.
Proof.
  intros Hft Hbits. destruct (cronFieldTypes_bounds ft Hft) as [Hmin Hmax].
  unfold parseTerm.
  set (sr := if negb (Index field "/" =? -1) then _ else _).
  assert (Hsr : forall step vr, sr = Ok (step, vr) ->
             (step = -1 \/ 1 <= step <= maxInt)
             /\ MinValue ft <= rangeMin vr <= MaxValue ft
             /\ MinValue ft <= rangeMax vr <= MaxValue ft).
  { intros step vr. unfold sr.
    destruct (negb (Index field "/" =? -1)).
    - destruct (parseRange (slice field 0 (Index field "/")) ft) as [vr0| |] eqn:Er;
        cbn [bind]; try discriminate.
      pose proof (parseRange_bounds _ _ _ Hft Er) as [Hlo Hhi].
      destruct (Atoi (slice field (Index field "/" + 1) (len field))) as [n|e] eqn:Ea;
        [|discriminate].
      pose proof (Atoi_int _ _ Ea) as Hn.
      destruct (n <=? 0) eqn:En; [discriminate|]. apply Z.leb_gt in En.
      intros [= <- <-]. split; [right; lia|].
      destruct (Index (slice field 0 (Index field "/")) "-" =? -1);
        cbn [rangeMin rangeMax]; lia.
    - destruct (parseRange field ft) as [vr0| |] eqn:Er; cbn [bind]; try discriminate.
      pose proof (parseRange_bounds _ _ _ Hft Er) as [Hlo Hhi].
      intros [= <- <-]. split; [now left | lia]. }
  destruct sr as [[step vr]| |]; cbn [bind]; try discriminate.
  destruct (Hsr step vr eq_refl) as [Hstep [Hlo Hhi]].
  destruct (1 <? step) eqn:E1.
  - apply Z.ltb_lt in E1. intros Hrun v Hv.
    assert (H1 : 1 <= step <= maxInt) by lia.
    assert (H2 : rangeMin vr <= maxInt) by (unfold maxInt; lia).
    assert (H3 : 0 <= rangeMin vr) by lia.
    assert (H4 : rangeMin vr <= rangeMin vr \/ rangeMin vr < 0) by lia.
    destruct (stepLoop_within _ _ _ _ _ _ _ H1 H2 H3 H4 Hrun v Hv) as [Hold|Hnew].
    + now apply Hbits.
    + lia.
  - unfold shift.
    destruct (rangeMin vr =? rangeMax vr).
    + replace (rangeMin vr <? 0) with false by (symmetry; apply Z.ltb_ge; lia).
      cbn [bind]. intros [= <-] v Hv.
      rewrite Z.lor_spec in Hv. apply orb_true_iff in Hv as [Hold|Hnew].
      * now apply Hbits.
      * apply testbit_shl64_one_inv in Hnew; lia.
    + rewrite (wrap_small (rangeMax vr + 1)) by (unfold minInt, maxInt; lia).
      replace (rangeMax vr + 1 <? 0) with false by (symmetry; apply Z.ltb_ge; lia).
      replace (rangeMin vr <? 0) with false by (symmetry; apply Z.ltb_ge; lia).
      cbn [bind]. intros [= <-] v Hv.
      destruct (Z.ltb_spec v 0) as [Hneg|Hpos];
        [rewrite Z.testbit_neg_r in Hv by lia; discriminate|].
      rewrite testbit_range_mask in Hv by lia.
      apply andb_true_iff in Hv as [H1 H2]. apply Z.leb_le in H1, H2. lia.
Qed.

Lemma parseTerms_withinRange (ft : fieldType) (terms : list string) (bits bits' : Z) :
  In ft cronFieldTypes ->
  withinRange ft bits ->
  parseTerms ft bits terms = Ok bits' ->
  withinRange ft bits'.
Proof.
  intros Hft. revert bits.
  induction terms as [|term rest IH]; intros bits Hbits; cbn [parseTerms].
  - now intros [= <-].
  - destruct (parseTerm ft bits term) as [b| |] eqn:Et; cbn [bind]; try discriminate.
    apply IH. exact (parseTerm_withinRange ft bits b term Hft Hbits Et).
Qed.

Lemma parseField_withinRange (ft : fieldType) (token : string) (value : cronFieldBits) :
  In ft cronFieldTypes ->
  parseField token ft = Ok value ->
  Typ value = ft /\ withinRange ft (Bits value).
Proof.
  intros Hft. unfold parseField.
  destruct (len token =? 0); [discriminate|].
  destruct (parseTerms ft (Bits (newFieldBits ft)) (Split (ordinals token ft) ","))
    as [bits| |] eqn:Et; cbn [bind]; try discriminate.
  intros [= <-]. split; [reflexivity|]. cbn [Bits].
  refine (parseTerms_withinRange ft _ _ bits Hft _ Et).
  intros v Hv. cbn in Hv. rewrite Z.testbit_0_l in Hv. discriminate.
Qed.

End WithinRange.

Section ParsedShape.
Open Scope string_scope.
Open Scope Z_scope.

Lemma parseFields_shape (types : list fieldType) (index : nat) (tokens : list string)
    (acc : list cronFieldBits) (expression : CronExpression) :
  (forall ft, In ft types -> In ft cronFieldTypes) ->
  parseFields types index tokens acc = Ok expression ->
  exists added,
    fields expression = (acc ++ added)%list
    /\ map Typ added = types
    /\ Forall (fun value => withinRange (Typ value) (Bits value)) added.
Proof.
  revert index acc.
  induction types as [|ft types IH]; intros index acc Hall; cbn [parseFields].
  - intros [= <-]. exists []. cbn [fields]. rewrite app_nil_r. repeat split. constructor.
  - destruct (nth_error tokens index) as [token|]; [|discriminate].
    destruct (parseField token ft) as [value| |] eqn:Ev; cbn [bind]; try discriminate.
    intros Hrun.
    destruct (parseField_withinRange ft token value (Hall ft (or_introl eq_refl)) Ev)
      as [Htyp Hin].
    destruct (IH (S index) (acc ++ [value])%list
                 (fun f Hf => Hall f (or_intror Hf)) Hrun) as [added [Hf [Hm Hw]]].
    exists (value :: added). rewrite Hf, <- app_assoc. cbn [app map].
    repeat split; [now rewrite Htyp, Hm|].
    constructor; [now rewrite Htyp | exact Hw].
Qed.

(** X8.  An expression that [ParseCronExpression] returns has six fields,
    of the six field types in their order, and every value of every field's
    bit set lies within the legal range of the field. *)
Theorem ParseCronExpression_fields_within_range (s : string)
    (expression : CronExpression) :
  ParseCronExpression s = Ok expression ->
  map Typ (fields expression) = cronFieldTypes
  /\ Forall (fun value => withinRange (Typ value) (Bits value)) (fields expression).
Proof.
  unfold ParseCronExpression.
  destruct (len s =? 0); [discriminate|].
  destruct (negb _); [discriminate|].
  intros Hrun.
  destruct (parseFields_shape cronFieldTypes 0 (Fields s) (fields newCronExpression)
              expression (fun ft H => H) Hrun) as [added [Hf [Hm Hw]]].
  cbn [newCronExpression fields app] in Hf. rewrite Hf. now split.
Qed.

Lemma ParseCronExpression_fields_within_range_witness :
  map Typ (fields (parsed "0/15 10-20 * 1,15 JAN-MAR MON")) = cronFieldTypes
  /\ Forall (fun value => withinRange (Typ value) (Bits value))
            (fields (parsed "0/15 10-20 * 1,15 JAN-MAR MON")).
Proof.
  apply (ParseCronExpression_fields_within_range "0/15 10-20 * 1,15 JAN-MAR MON").
  vm_compute; reflexivity.
Defined.

End ParsedShape.

(** ** Parsing: expressions without a slash *)

Section NoSlash.
Open Scope string_scope.
Open Scope Z_scope.

Lemma occurs_app (c : ascii) (s u : string) :
  occurs c (s ++ u) = occurs c s || occurs c u.
Proof.
  induction s as [|d s IH]; cbn [append occurs]; [reflexivity|].
  now rewrite IH, orb_assoc.
Qed.

Lemma occurs_fields_aux (c : ascii) (s : string) (skip : nat) (cur : option string)
    (f : string) :
  In f (fields_aux s skip cur) -> occurs c f = true ->
  (exists g, cur = Some g /\ occurs c g = true) \/ occurs c s = true.
Proof.
  revert skip cur.
  induction s as [|d s IH]; intros skip cur Hin Hocc; cbn [fields_aux] in Hin.
  - destruct cur as [g|]; [|contradiction].
    destruct Hin as [<-|[]]. left. now exists g.
  - cbn [occurs]. destruct skip as [|k].
    + destruct (spaceWidth (String d s)) as [|w].
      * destruct (IH _ _ Hin Hocc) as [[g [[= <-] Hg]]|Hs].
        -- rewrite occurs_app in Hg. cbn [occurs] in Hg. rewrite orb_false_r in Hg.
           apply orb_true_iff in Hg as [Hg|Hd].
           ++ destruct cur as [g0|]; [left; now exists g0 | discriminate].
           ++ right. now rewrite Hd.
        -- right. now rewrite Hs, orb_true_r.
      * destruct cur as [g|].
        -- destruct Hin as [<-|Hin]; [left; now exists g|].
           destruct (IH _ _ Hin Hocc) as [[g0 [[=] _]]|Hs].
           right. now rewrite Hs, orb_true_r.
        -- destruct (IH _ _ Hin Hocc) as [[g0 [[=] _]]|Hs].
           right. now rewrite Hs, orb_true_r.
    + destruct (IH _ _ Hin Hocc) as [Hc|Hs]; [now left|].
      right. now rewrite Hs, orb_true_r.
Qed.

Lemma occurs_Fields (c : ascii) (s f : string) :
  In f (Fields s) -> occurs c f = true -> occurs c s = true.
Proof.
  intros Hin Hocc.
  destruct (occurs_fields_aux c s 0 None f Hin Hocc) as [[g [[=] _]]|H]. exact H.
Qed.

Lemma occurs_split_aux (c : ascii) (sep s : string) (skip : nat) (cur term : string) :
  In term (split_aux sep s skip cur) -> occurs c term = true ->
  occurs c cur = true \/ occurs c s = true.
Proof.
  revert skip cur.
  induction s as [|d s IH]; intros skip cur Hin Hocc; cbn [split_aux] in Hin.
  - destruct Hin as [<-|[]]. now left.
  - cbn [occurs]. destruct skip as [|k].
    + destruct (prefix sep (String d s)).
      * destruct Hin as [<-|Hin]; [now left|].
        destruct (IH _ _ Hin Hocc) as [Hc|Hs]; [discriminate|].
        right. now rewrite Hs, orb_true_r.
      * destruct (IH _ _ Hin Hocc) as [Hc|Hs].
        -- rewrite occurs_app in Hc. cbn [occurs] in Hc. rewrite orb_false_r in Hc.
           apply orb_true_iff in Hc as [Hc|Hd]; [now left|right; now rewrite Hd].
        -- right. now rewrite Hs, orb_true_r.
    + destruct (IH _ _ Hin Hocc) as [Hc|Hs]; [now left|].
      right. now rewrite Hs, orb_true_r.
Qed.

Lemma occurs_Split (c : ascii) (s sep term : string) :
  In term (Split s sep) -> occurs c term = true -> occurs c s = true.
Proof.
  intros Hin Hocc.
  destruct (occurs_split_aux c sep s 0 EmptyString term Hin Hocc) as [H|H];
    [discriminate | exact H].
Qed.

Lemma occurs_replaceAll_aux (c : ascii) (old new s : string) (skip : nat) :
  occurs c (replaceAll_aux old new s skip) = true ->
  occurs c new = true \/ occurs c s = true.
Proof.
  revert skip. induction s as [|d s IH]; intros skip; cbn [replaceAll_aux occurs].
  - discriminate.
  - destruct skip as [|k].
    + destruct (prefix old (String d s)).
      * rewrite occurs_app. intros H. apply orb_true_iff in H as [H|H]; [now left|].
        destruct (IH _ H) as [Hn|Hs]; [now left|right; now rewrite Hs, orb_true_r].
      * cbn [occurs]. intros H. apply orb_true_iff in H as [H|H].
        -- right. now rewrite H.
        -- destruct (IH _ H) as [Hn|Hs]; [now left|right; now rewrite Hs, orb_true_r].
    + intros H. destruct (IH _ H) as [Hn|Hs]; [now left|right; now rewrite Hs, orb_true_r].
Qed.

Lemma digit_not_slash (k : nat) :
  (k <= 9)%nat -> Ascii.eqb (ascii_of_nat (48 + k)) "/" = false.
Proof.
  intros Hk. do 10 (destruct k as [|k]; [reflexivity|]). lia.
Qed.

Lemma occurs_digits_aux (fuel : nat) (n : Z) (acc : string) :
  occurs "/" acc = false -> occurs "/" (digits_aux fuel n acc) = false.
Proof.
  revert n acc. induction fuel as [|fuel IH]; intros n acc Hacc; cbn [digits_aux].
  - exact Hacc.
  - assert (Hd : occurs "/" (String (ascii_of_nat (48 + Z.to_nat (n mod 10))) acc) = false).
    { cbn [occurs]. rewrite Hacc, orb_false_r. apply digit_not_slash.
      pose proof (Z.mod_pos_bound n 10 ltac:(lia)). lia. }
    destruct (n <? 10); [exact Hd | now apply IH].
Qed.

Lemma occurs_Itoa (n : Z) : occurs "/" (Itoa n) = false.
Proof.
  unfold Itoa. destruct (n <? 0).
  - cbn [append occurs]. now apply occurs_digits_aux.
  - now apply occurs_digits_aux.
Qed.

Lemma upperByte_slash (d : ascii) : Ascii.eqb (upperByte d) "/" = Ascii.eqb d "/".
Proof.
  destruct d as [[] [] [] [] [] [] [] []]; reflexivity.
Qed.

Lemma occurs_ToUpper (s : string) : occurs "/" (ToUpper s) = occurs "/" s.
Proof.
  induction s as [|d s IH]; cbn [ToUpper occurs]; [reflexivity|].
  now rewrite upperByte_slash, IH.
Qed.

Lemma occurs_replaceOrdinals_from (list : list string) (index : Z) (value : string) :
  occurs "/" (replaceOrdinals_from index value list) = true ->
  occurs "/" value = true.
Proof.
  revert index value.
  induction list as [|name rest IH]; intros index value; cbn [replaceOrdinals_from].
  - easy.
  - intros H. apply IH in H. unfold ReplaceAll in H.
    destruct (occurs_replaceAll_aux _ _ _ _ _ H) as [Hn|Hs]; [|exact Hs].
    now rewrite occurs_Itoa in Hn.
Qed.

Lemma occurs_ordinals (value : string) (ft : fieldType) :
  occurs "/" (ordinals value ft) = true -> occurs "/" value = true.
Proof.
  unfold ordinals, replaceOrdinals.
  destruct (cronField_eqb (Field ft) cronFieldMonth).
  - intros H%occurs_replaceOrdinals_from. now rewrite occurs_ToUpper in H.
  - destruct (cronField_eqb (Field ft) cronFieldDayOfWeek); [|easy].
    intros H%occurs_replaceOrdinals_from. now rewrite occurs_ToUpper in H.
Qed.

Lemma index_from_absent (c : ascii) (s : string) (i : Z) :
  occurs c s = false -> index_from (String c EmptyString) s i = -1.
Proof.
  revert i. induction s as [|d s IH]; intros i; cbn [occurs index_from prefix].
  - reflexivity.
  - intros H. apply orb_false_iff in H as [Hd Hs].
    destruct (ascii_dec c d) as [->|_].
    + now rewrite Ascii.eqb_refl in Hd.
    + now apply IH.
Qed.

Lemma parseTerm_no_slash (ft : fieldType) (bits : Z) (field : string) :
  In ft cronFieldTypes ->
  Index field "/" = -1 ->
  panics (parseTerm ft bits field) = false.
Proof.
  intros Hft Hslash. destruct (cronFieldTypes_bounds ft Hft) as [Hmin Hmax].
  unfold parseTerm. rewrite Hslash. change (-1 =? -1) with true. cbn [negb].
  pose proof (parseRange_no_panic field ft) as Hnp.
  destruct (parseRange field ft) as [vr| |] eqn:Er; cbn [bind];
    [|reflexivity|discriminate].
  pose proof (parseRange_bounds _ _ _ Hft Er) as [Hlo Hhi].
  cbv beta iota. change (1 <? -1) with false. cbv iota. unfold shift.
  replace (rangeMin vr <? 0) with false by (symmetry; apply Z.ltb_ge; lia).
  rewrite (wrap_small (rangeMax vr + 1)) by (unfold minInt, maxInt; lia).
  replace (rangeMax vr + 1 <? 0) with false by (symmetry; apply Z.ltb_ge; lia).
  destruct (rangeMin vr =? rangeMax vr); reflexivity.
Qed.

Lemma parseTerms_no_slash (ft : fieldType) (terms : list string) (bits : Z) :
  In ft cronFieldTypes ->
  (forall term, In term terms -> Index term "/" = -1) ->
  panics (parseTerms ft bits terms) = false.
Proof.
  intros Hft. revert bits.
  induction terms as [|term rest IH]; intros bits Hall; cbn [parseTerms]; [reflexivity|].
  pose proof (parseTerm_no_slash ft bits term Hft (Hall term (or_introl eq_refl))) as Hnp.
  destruct (parseTerm ft bits term); cbn [bind]; [|reflexivity|discriminate].
  apply IH. intros t Ht. apply Hall. now right.
Qed.

Lemma parseField_no_slash (ft : fieldType) (token : string) :
  In ft cronFieldTypes ->
  occurs "/" token = false ->
  panics (parseField token ft) = false.
Proof.
  intros Hft Hno. unfold parseField.
  destruct (len token =? 0); [reflexivity|].
  assert (Hall : forall term, In term (Split (ordinals token ft) ",") ->
                              Index term "/" = -1).
  { intros term Hin. apply index_from_absent.
    destruct (occurs "/" term) eqn:E; [|reflexivity].
    pose proof (occurs_Split _ _ _ _ Hin E) as H%occurs_ordinals. congruence. }
  pose proof (parseTerms_no_slash ft _ (Bits (newFieldBits ft)) Hft Hall) as Hnp.
  destruct (parseTerms ft (Bits (newFieldBits ft)) (Split (ordinals token ft) ","));
    [reflexivity | reflexivity | discriminate].
Qed.

Lemma parseFields_no_slash (types : list fieldType) (index : nat) (tokens : list string)
    (acc : list cronFieldBits) :
  (forall ft, In ft types -> In ft cronFieldTypes) ->
  (forall token, In token tokens -> occurs "/" token = false) ->
  (index + List.length types <= List.length tokens)%nat ->
  panics (parseFields types index tokens acc) = false.
Proof.
  revert index acc.
  induction types as [|ft types IH]; intros index acc Htypes Htokens Hlen;
    cbn [parseFields]; [reflexivity|].
  cbn [List.length] in Hlen.
  destruct (nth_error tokens index) as [token|] eqn:Etok.
  - pose proof (parseField_no_slash ft token (Htypes ft (or_introl eq_refl))
                  (Htokens token (nth_error_In _ _ Etok))) as Hnp.
    destruct (parseField token ft); cbn [bind]; [|reflexivity|discriminate].
    apply IH; [intros f Hf; apply Htypes; now right | exact Htokens | lia].
  - apply nth_error_None in Etok. lia.
Qed.

(** X9.  An expression in which no slash occurs never makes
    [ParseCronExpression] panic: it parses, or an error is returned. *)
Theorem ParseCronExpression_no_slash_no_panic (expression : string) :
  occurs "/" expression = false ->
  panics (ParseCronExpression expression) = false.
Proof.
  intros Hno. unfold ParseCronExpression.
  destruct (len expression =? 0); [reflexivity|].
  destruct (Z.of_nat (List.length (Fields expression)) =? 6) eqn:Esix;
    cbn [negb]; [|reflexivity].
  apply Z.eqb_eq in Esix.
  apply parseFields_no_slash.
  - easy.
  - intros token Hin. destruct (occurs "/" token) eqn:E; [|reflexivity].
    pose proof (occurs_Fields _ _ _ Hin E). congruence.
  - cbn. lia.
Qed.

Lemma ParseCronExpression_no_slash_no_panic_witness :
  panics (ParseCronExpression "0 0 12 * * MON-FRI,x") = false.
Proof.
  apply (ParseCronExpression_no_slash_no_panic "0 0 12 * * MON-FRI,x").
  reflexivity.
Defined.

End NoSlash.

(** ** Parsing: numbers, ranges and the star *)

Section Tokens.
Open Scope string_scope.
Open Scope Z_scope.

Ltac by_byte c :=
  destruct c as [[] [] [] [] [] [] [] []]; try discriminate; try reflexivity.

Lemma upperByte_noLetter (c : ascii) : isLetter c = false -> upperByte c = c.
Proof. by_byte c. Qed.

Lemma noLetter_not_capital (c : ascii) :
  isLetter c = false ->
  (65 <=? nat_of_ascii c)%nat && (nat_of_ascii c <=? 90)%nat = false.
Proof. by_byte c. Qed.

Lemma isDigit_noLetter (c : ascii) : isDigit c = true -> isLetter c = false.
Proof. by_byte c. Qed.

Lemma isDigit_differs (c d : ascii) : isDigit c = true -> isDigit d = false -> Ascii.eqb c d = false.
Proof.
  intros Hc Hd. destruct (Ascii.eqb c d) eqn:E; [|reflexivity].
  apply Ascii.eqb_eq in E. subst d. congruence.
Qed.

Lemma allDigits_noLetters (s : string) : allDigits s = true -> noLetters s = true.
Proof.
  induction s as [|c s IH]; cbn [allDigits noLetters]; [reflexivity|].
  intros H. apply andb_true_iff in H as [Hc Hs].
  now rewrite (isDigit_noLetter c Hc), IH.
Qed.

Lemma allDigits_occurs (s : string) (d : ascii) :
  allDigits s = true -> isDigit d = false -> occurs d s = false.
Proof.
  intros Hs Hd. induction s as [|c s IH]; cbn [allDigits occurs] in *; [reflexivity|].
  apply andb_true_iff in Hs as [Hc Hs].
  now rewrite (isDigit_differs c d Hc Hd), IH.
Qed.

Lemma noLetters_app (s u : string) :
  noLetters s = true -> noLetters u = true -> noLetters (s ++ u) = true.
Proof.
  induction s as [|c s IH]; cbn [append noLetters]; [easy|].
  intros H Hu. apply andb_true_iff in H as [Hc Hs]. now rewrite Hc, IH.
Qed.

Lemma ToUpper_noLetters (s : string) : noLetters s = true -> ToUpper s = s.
Proof.
  induction s as [|c s IH]; cbn [noLetters ToUpper]; [reflexivity|].
  intros H. apply andb_true_iff in H as [Hc Hs]. apply negb_true_iff in Hc.
  now rewrite (upperByte_noLetter c Hc), IH.
Qed.

Lemma ReplaceAll_noLetters (s name new : string) :
  startsWithLetter name = true -> noLetters s = true -> ReplaceAll s name new = s.
Proof.
  intros Hname. unfold ReplaceAll.
  induction s as [|c s IH]; cbn [noLetters replaceAll_aux]; [reflexivity|].
  intros H. apply andb_true_iff in H as [Hc Hs]. apply negb_true_iff in Hc.
  assert (Hp : prefix name (String c s) = false).
  { destruct name as [|c0 r]; [discriminate|]. cbn [startsWithLetter prefix] in *.
    destruct (ascii_dec c0 c) as [->|]; [|reflexivity].
    rewrite (noLetter_not_capital c Hc) in Hname. discriminate. }
  now rewrite Hp, IH.
Qed.

Lemma replaceOrdinals_from_noLetters (list : list string) (index : Z) (s : string) :
  forallb startsWithLetter list = true -> noLetters s = true ->
  replaceOrdinals_from index s list = s.
Proof.
  revert index. induction list as [|name rest IH]; intros index Hl Hs;
    cbn [replaceOrdinals_from]; [reflexivity|].
  cbn [forallb] in Hl. apply andb_true_iff in Hl as [Hname Hrest].
  rewrite (ReplaceAll_noLetters s name _ Hname Hs). now apply IH.
Qed.

Lemma ordinals_noLetters (s : string) (ft : fieldType) :
  noLetters s = true -> ordinals s ft = s.
Proof.
  intros Hs. unfold ordinals, replaceOrdinals.
  rewrite (ToUpper_noLetters s Hs).
  destruct (cronField_eqb (Field ft) cronFieldMonth);
    [now apply replaceOrdinals_from_noLetters|].
  destruct (cronField_eqb (Field ft) cronFieldDayOfWeek);
    [now apply replaceOrdinals_from_noLetters | reflexivity].
Qed.

Lemma split_aux_no_comma (s cur : string) :
  occurs "," s = false -> split_aux "," s 0 cur = [cur ++ s].
Proof.
  revert cur. induction s as [|c s IH]; intros cur; cbn [occurs split_aux].
  - intros _. now rewrite append_empty_r.
  - intros H. apply orb_false_iff in H as [Hc Hs].
    cbn [prefix]. destruct (ascii_dec "," c) as [<-|_]; [discriminate|].
    rewrite (IH _ Hs). now rewrite append_assoc_char.
Qed.

Lemma Split_no_comma (s : string) : occurs "," s = false -> Split s "," = [s].
Proof.
  intros Hs. unfold Split. now rewrite (split_aux_no_comma s EmptyString Hs).
Qed.

Lemma index_from_at (c : ascii) (sa ss : string) (i : Z) :
  occurs c sa = false ->
  index_from (String c EmptyString) (sa ++ String c ss) i = i + len sa.
Proof.
  revert i. induction sa as [|d sa IH]; intros i; cbn [occurs append index_from prefix].
  - intros _. destruct (ascii_dec c c); [|contradiction].
    destruct ss; unfold len; cbn; lia.
  - intros H. apply orb_false_iff in H as [Hd Hs].
    destruct (ascii_dec c d) as [->|_]; [now rewrite Ascii.eqb_refl in Hd|].
    rewrite (IH _ Hs). unfold len. cbn [String.length]. lia.
Qed.

(** The parts of [sa c ss] around the first [c]. *)
Lemma parts_at (c : ascii) (sa ss : string) :
  occurs c sa = false ->
  Index (sa ++ String c ss) (String c EmptyString) = len sa
  /\ slice (sa ++ String c ss) 0 (len sa) = sa
  /\ slice (sa ++ String c ss) (len sa + 1) (len (sa ++ String c ss)) = ss.
Proof.
  intros Hsa. unfold Index. rewrite (index_from_at c sa ss 0 Hsa).
  split; [lia|]. unfold slice, len. split.
  - rewrite Z.sub_0_r, Nat2Z.id. cbn [Z.to_nat]. apply substring_front.
  - rewrite length_append_char.
    replace (Z.to_nat (Z.of_nat (String.length sa) + 1)) with (S (String.length sa)) by lia.
    replace (Z.to_nat (Z.of_nat (S (String.length sa + String.length ss))
                       - (Z.of_nat (String.length sa) + 1)))
      with (String.length ss) by lia.
    apply substring_back.
Qed.

Lemma Atoi_nonempty (s : string) (n : Z) : Atoi s = inl n -> s <> EmptyString.
Proof. intros H ->. discriminate. Qed.

Lemma parseField_single_term (ft : fieldType) (token : string) :
  token <> EmptyString -> noLetters token = true -> occurs "," token = false ->
  parseField token ft
  = (bits <- parseTerm ft 0 token ;; Ok (mkFieldBits ft bits)).
Proof.
  intros Hne Hnl Hnc. unfold parseField.
  destruct (len token =? 0) eqn:E; [apply len_zero in E; contradiction|].
  rewrite (ordinals_noLetters token ft Hnl), (Split_no_comma token Hnc).
  cbn [parseTerms newFieldBits Bits].
  destruct (parseTerm ft 0 token); reflexivity.
Qed.

Lemma parseField_number_range (ft : fieldType) (sa sb : string) (a b : Z) :
  In ft cronFieldTypes ->
  allDigits sa = true -> allDigits sb = true ->
  Atoi sa = inl a -> Atoi sb = inl b ->
  MinValue ft <= a <= MaxValue ft -> MinValue ft <= b <= MaxValue ft ->
  (exists bits,
      parseField sa ft = Ok (mkFieldBits ft bits)
      /\ forall v, 0 <= v -> Z.testbit bits v = (v =? a))
  /\ (exists bits,
         parseField (sa ++ String "-" sb) ft = Ok (mkFieldBits ft bits)
         /\ (forall v, 0 <= v -> Z.testbit bits v = (a <=? v) && (v <=? b))
         /\ (b < a -> bits = 0)).
Proof.
  intros Hft Hsa Hsb Ha Hb Hra Hrb.
  destruct (cronFieldTypes_bounds ft Hft) as [Hmin Hmax].
  pose proof (Atoi_nonempty sa a Ha) as Hne.
  split.
  - rewrite parseField_single_term;
      [| exact Hne | now apply allDigits_noLetters | now apply allDigits_occurs].
    unfold parseTerm, Index.
    rewrite (index_from_absent "/" sa 0) by now apply allDigits_occurs.
    change (-1 =? -1) with true. cbn [negb].
    rewrite (parseRange_number sa ft a Hsa Ha Hra). cbn [bind rangeMin rangeMax].
    change (1 <? -1) with false. cbv iota. rewrite Z.eqb_refl. unfold shift.
    replace (a <? 0) with false by (symmetry; apply Z.ltb_ge; lia).
    cbn [bind]. eexists. split; [reflexivity|].
    intros v Hv. rewrite Z.lor_0_l. apply testbit_shl64_one; lia.
  - assert (Hnl : noLetters (sa ++ String "-" sb) = true).
    { apply noLetters_app; [now apply allDigits_noLetters|].
      cbn [noLetters]. now rewrite (allDigits_noLetters sb Hsb). }
    assert (Hnc : occurs "," (sa ++ String "-" sb) = false).
    { rewrite occurs_app. cbn [occurs].
      now rewrite !allDigits_occurs. }
    assert (Hns : occurs "/" (sa ++ String "-" sb) = false).
    { rewrite occurs_app. cbn [occurs].
      now rewrite !allDigits_occurs. }
    rewrite parseField_single_term; [| now destruct sa | exact Hnl | exact Hnc].
    unfold parseTerm, Index at 1.
    rewrite (index_from_absent "/" _ 0 Hns).
    change (-1 =? -1) with true. cbn [negb].
    assert (Hrange : parseRange (sa ++ String "-" sb) ft = Ok (newValueRange a b)).
    { unfold parseRange.
      assert (Hstar : String.eqb (sa ++ String "-" sb) "*" = false).
      { destruct sa as [|c sa]; [contradiction|]. cbn [append String.eqb].
        cbn [allDigits] in Hsa. apply andb_true_iff in Hsa as [Hc _].
        now rewrite (isDigit_not_star c Hc). }
      rewrite Hstar.
      destruct (parts_at "-" sa sb) as [Hidx [Hfront Hback]];
        [now apply allDigits_occurs|].
      rewrite Hidx, Hfront, Hback.
      replace (len sa =? -1) with false
        by (symmetry; apply Z.eqb_neq; unfold len; lia).
      rewrite (checkValidValue_in_range sa ft a Ha Hra),
              (checkValidValue_in_range sb ft b Hb Hrb).
      cbn [bind].
      replace (cronField_eqb (Field ft) cronFieldDayOfWeek && (a =? 7)) with false;
        [reflexivity|].
      symmetry. apply andb_false_iff.
      destruct (a =? 7) eqn:E7; [left|now right]. apply Z.eqb_eq in E7. subst a.
      unfold cronFieldTypes in Hft. cbn [In] in Hft.
      destruct Hft as [<-|[<-|[<-|[<-|[<-|[<-|[]]]]]]]; cbn in *; try reflexivity; lia. }
    rewrite Hrange. cbn [bind rangeMin rangeMax].
    change (1 <? -1) with false. cbv iota. unfold shift.
    replace (a <? 0) with false by (symmetry; apply Z.ltb_ge; lia).
    rewrite (wrap_small (b + 1)) by (unfold minInt, maxInt; lia).
    replace (b + 1 <? 0) with false by (symmetry; apply Z.ltb_ge; lia).
    destruct (a =? b) eqn:Eab; cbn [bind].
    + apply Z.eqb_eq in Eab. subst b. eexists. split; [reflexivity|]. split.
      * intros v Hv. rewrite Z.lor_0_l, testbit_shl64_one by lia.
        destruct (Z.eqb_spec v a) as [->|Hne'].
        -- now rewrite Z.leb_refl.
        -- destruct (Z.leb_spec a v), (Z.leb_spec v a); try reflexivity; lia.
      * lia.
    + eexists. split; [reflexivity|]. split.
      * intros v Hv. apply testbit_range_mask; lia.
      * intros Hlt. apply Z.bits_inj_0. intros v.
        destruct (Z.ltb_spec v 0) as [Hneg|Hpos]; [now apply Z.testbit_neg_r|].
        rewrite testbit_range_mask by lia.
        destruct (Z.leb_spec a v), (Z.leb_spec v b); try reflexivity; lia.
Qed.

(** X10.  For each of the six fields and two numbers [a] and [b] legal for
    it, the token [a] parses to the set of [a] alone and the token [a-b] to
    the set of the values from [a] to [b]; when [b] is below [a] the token
    is accepted all the same and the set is empty. *)
Theorem parseField_number_and_range (ft : fieldType) (sa sb : string) (a b : Z) :
  In ft cronFieldTypes ->
  allDigits sa = true -> allDigits sb = true ->
  Atoi sa = inl a -> Atoi sb = inl b ->
  MinValue ft <= a <= MaxValue ft -> MinValue ft <= b <= MaxValue ft ->
  (exists bits,
      parseField sa ft = Ok (mkFieldBits ft bits)
      /\ forall v, 0 <= v -> Z.testbit bits v = (v =? a))
  /\ (exists bits,
         parseField (sa ++ String "-" sb) ft = Ok (mkFieldBits ft bits)
         /\ (forall v, 0 <= v -> Z.testbit bits v = (a <=? v) && (v <=? b))
         /\ (b < a -> bits = 0)).
Proof.
  exact (parseField_number_range ft sa sb a b).
Qed.

Lemma parseField_number_and_range_witness :
  (exists bits,
      parseField "30" minute = Ok (mkFieldBits minute bits)
      /\ forall v, 0 <= v -> Z.testbit bits v = (v =? 30))
  /\ (exists bits,
         parseField "30-10" minute = Ok (mkFieldBits minute bits)
         /\ (forall v, 0 <= v -> Z.testbit bits v = (30 <=? v) && (v <=? 10))
         /\ (10 < 30 -> bits = 0)).
Proof.
  apply (parseField_number_and_range minute "30" "10" 30 10); try reflexivity.
  - right. now left.
  - cbn. lia.
  - cbn. lia.
Defined.

End Tokens.

Section StarStepList.
Open Scope string_scope.
Open Scope Z_scope.

Lemma parseField_star_mask (ft : fieldType) :
  In ft cronFieldTypes ->
  parseField "*" ft
  = Ok (mkFieldBits ft (Z.land (not64 (shl64 maxUint64 (MaxValue ft + 1)))
                               (shl64 maxUint64 (MinValue ft)))).
Proof.
  unfold cronFieldTypes. cbn [In].
  intros [<-|[<-|[<-|[<-|[<-|[<-|[]]]]]]]; vm_compute; reflexivity.
Qed.

(** X11.  For each of the six fields, "*" parses to the set of all the
    values from the minimum to the maximum of the field. *)
Theorem parseField_star (ft : fieldType) :
  In ft cronFieldTypes ->
  exists bits,
    parseField "*" ft = Ok (mkFieldBits ft bits)
    /\ forall v, 0 <= v ->
         Z.testbit bits v = (MinValue ft <=? v) && (v <=? MaxValue ft).
Proof.
  intros Hft. eexists. split; [exact (parseField_star_mask ft Hft)|].
  intros v Hv. apply testbit_range_mask; [lia| |];
    unfold cronFieldTypes in Hft; cbn [In] in Hft;
    destruct Hft as [<-|[<-|[<-|[<-|[<-|[<-|[]]]]]]]; cbn; lia.
Qed.

Lemma parseField_star_witness :
  exists bits,
    parseField "*" dayOfMonth = Ok (mkFieldBits dayOfMonth bits)
    /\ forall v, 0 <= v ->
         Z.testbit bits v = (MinValue dayOfMonth <=? v) && (v <=? MaxValue dayOfMonth).
Proof.
  apply (parseField_star dayOfMonth). do 3 right. now left.
Defined.

(** X12.  For each of the six fields, a term [a/step] of two numbers, [a]
    legal for the field and [step] at least 1, parses to the set of [a],
    [a + step], [a + 2 step], ... up to the maximum of the field, provided
    [a + step] does not exceed the largest [int]. *)
Theorem parseField_start_and_step (ft : fieldType) (sa ss : string) (a step : Z) :
  In ft cronFieldTypes ->
  allDigits sa = true -> allDigits ss = true ->
  Atoi sa = inl a -> Atoi ss = inl step ->
  MinValue ft <= a <= MaxValue ft ->
  1 <= step -> a + step <= maxInt ->
  exists bits,
    parseField (sa ++ String "/" ss) ft = Ok (mkFieldBits ft bits)
    /\ forall v, 0 <= v -> Z.testbit bits v = onStep a (MaxValue ft) step v.
Proof.
  exact (parseField_step ft sa ss a step).
Qed.

Lemma parseField_start_and_step_witness :
  exists bits,
    parseField "3/4" hour = Ok (mkFieldBits hour bits)
    /\ forall v, 0 <= v -> Z.testbit bits v = onStep 3 (MaxValue hour) 4 v.
Proof.
  apply (parseField_start_and_step hour "3" "4" 3 4); try reflexivity.
  - do 2 right. now left.
  - cbn. lia.
  - lia.
  - unfold maxInt. lia.
Defined.

Lemma parseTerm_range_overwrites (ft : fieldType) (bits : Z) (field : string)
    (vr : valueRange) :
  Index field "/" = -1 ->
  parseRange field ft = Ok vr ->
  rangeMin vr <> rangeMax vr ->
  parseTerm ft bits field = parseTerm ft 0 field.
Proof.
  intros Hslash Hrange Hne. unfold parseTerm. rewrite Hslash, Hrange.
  change (-1 =? -1) with true. cbn [negb bind].
  change (1 <? -1) with false. cbv iota.
  now replace (rangeMin vr =? rangeMax vr) with false
    by (symmetry; now apply Z.eqb_neq).
Qed.

(** X13.  In a comma separated list, a range term (one without a slash,
    from a minimum to a different maximum) does not add to the set read so
    far but replaces it: whatever stands before it in the list is lost. *)
Theorem range_term_replaces_earlier_terms (ft : fieldType) (bits earlier : Z)
    (pre post : list string) (field : string) (vr : valueRange) :
  parseTerms ft bits pre = Ok earlier ->
  Index field "/" = -1 ->
  parseRange field ft = Ok vr ->
  rangeMin vr <> rangeMax vr ->
  parseTerms ft bits (pre ++ field :: post) = parseTerms ft 0 (field :: post).
Proof.
  intros Hpre Hslash Hrange Hne. revert bits Hpre.
  induction pre as [|term pre IH]; intros bits Hpre.
  - cbn [app parseTerms].
    now rewrite (parseTerm_range_overwrites ft bits field vr Hslash Hrange Hne).
  - cbn [app parseTerms] in *.
    destruct (parseTerm ft bits term); cbn [bind] in *; try discriminate.
    now apply IH.
Qed.

Lemma range_term_replaces_earlier_terms_witness :
  parseTerms minute 0 (["1"; "2"] ++ "30-40" :: ["50"])
  = parseTerms minute 0 ("30-40" :: ["50"]).
Proof.
  apply (range_term_replaces_earlier_terms minute 0 (bitsOf [1; 2]) ["1"; "2"] ["50"]
           "30-40" (newValueRange 30 40)).
  - reflexivity.
  - reflexivity.
  - reflexivity.
  - cbn. discriminate.
Defined.

End StarStepList.

(** ** The engine: submitting tasks *)

Section Submit.
Open Scope Z_scope.

Lemma insertByTriggerTime_perm (h : store) (p : ptr) (queue : ScheduledTaskQueue) :
  Permutation (p :: queue) (insertByTriggerTime h p queue).
Proof.
  induction queue as [|q rest IH]; cbn [insertByTriggerTime]; [reflexivity|].
  destruct (Less h q p); [|reflexivity].
  rewrite perm_swap. now apply perm_skip.
Qed.

Lemma SorByTriggerTime_perm (h : store) (queue : ScheduledTaskQueue) :
  Permutation queue (SorByTriggerTime h queue).
Proof.
  unfold SorByTriggerTime.
  induction queue as [|p rest IH]; cbn [fold_right]; [reflexivity|].
  rewrite <- insertByTriggerTime_perm. now apply perm_skip.
Qed.

Lemma insertByTriggerTime_ordered (h : store) (p : ptr) (queue : ScheduledTaskQueue) :
  ordered h queue -> ordered h (insertByTriggerTime h p queue).
Proof.
  unfold ordered. induction queue as [|q rest IH]; intros Hq; cbn [insertByTriggerTime].
  - repeat constructor.
  - apply StronglySorted_inv in Hq as [Hrest Hall].
    unfold Less, time.Before. destruct (triggerOf h q <? triggerOf h p) eqn:E.
    + apply Z.ltb_lt in E. constructor; [now apply IH|].
      rewrite <- insertByTriggerTime_perm. constructor; [lia | exact Hall].
    + apply Z.ltb_ge in E. constructor; [now constructor|].
      constructor; [exact E|].
      rewrite Forall_forall in *. intros x Hx. specialize (Hall x Hx). lia.
Qed.

Lemma SorByTriggerTime_ordered (h : store) (queue : ScheduledTaskQueue) :
  ordered h (SorByTriggerTime h queue).
Proof.
  unfold SorByTriggerTime.
  induction queue as [|p rest IH]; cbn [fold_right]; [constructor|].
  now apply insertByTriggerTime_ordered.
Qed.

(** X14.  When the loop takes a task from the submit channel, the queue
    afterwards holds the tasks it held and the new one, each as often as
    before, in the order of their trigger times; so its head is a task with
    the earliest trigger time. *)
Theorem onNewTask_keeps_queue_ordered (w : system) (p : ptr) :
  exists w',
    onNewTask w p = Ok w'
    /\ Permutation (p :: taskQueue w) (taskQueue w')
    /\ ordered (heap w') (taskQueue w')
    /\ forall head rest q,
         taskQueue w' = head :: rest -> In q (taskQueue w') ->
         triggerOf (heap w') head <= triggerOf (heap w') q.
Proof.
  eexists. split; [reflexivity|]. cbn [taskQueue heap].
  assert (Hperm : Permutation (p :: taskQueue w)
                    (SorByTriggerTime (heap w) (taskQueue w ++ [p]))).
  { rewrite <- SorByTriggerTime_perm.
    change (p :: taskQueue w) with ([p] ++ taskQueue w). apply Permutation_app_comm. }
  pose proof (SorByTriggerTime_ordered (heap w) (taskQueue w ++ [p])) as Hord.
  repeat split; [exact Hperm | exact Hord |].
  intros head rest q Hq Hin. rewrite Hq in Hord, Hin.
  apply StronglySorted_inv in Hord as [_ Hall].
  destruct Hin as [<-|Hin]; [lia|].
  rewrite Forall_forall in Hall. now apply Hall.
Qed.

(** X15.  The three scheduling calls panic on a nil task.  On any other
    task they allocate a task with [id] 0 at the next free address and offer
    it to the loop without touching the queue; a negative delay counts as
    0, so the trigger time is never before the present, and a negative
    period counts as 0, which makes the task one-shot. *)
Theorem scheduling_calls (w : system) (body : nat)
    (delay initialDelay period : time.Duration) :
  (Schedule w None delay = Panic (PanicMsg "task cannot be nil")
   /\ ScheduleWithFixedDelay w None initialDelay period
      = Panic (PanicMsg "task cannot be nil")
   /\ ScheduleAtWithRate w None initialDelay period
      = Panic (PanicMsg "task cannot be nil"))
  /\ handedOver w (Schedule w (Some body) delay)
       (mkScheduledTask 0 (Some body) (time.Add (now w) (Z.max delay 0)) 0 false)
  /\ handedOver w (ScheduleWithFixedDelay w (Some body) initialDelay period)
       (mkScheduledTask 0 (Some body) (time.Add (now w) (Z.max initialDelay 0))
                        (Z.max period 0) false)
  /\ handedOver w (ScheduleAtWithRate w (Some body) initialDelay period)
       (mkScheduledTask 0 (Some body) (time.Add (now w) (Z.max initialDelay 0))
                        (Z.max period 0) true).
Proof.
  assert (Hclamp : forall d, (if d <? 0 then 0 else d) = Z.max d 0).
  { intros d. destruct (Z.ltb_spec d 0); lia. }
  split; [repeat split|].
  repeat split; unfold handedOver, Schedule, ScheduleWithFixedDelay, ScheduleAtWithRate,
    NewScheduledTask, calculateTriggerTime, allocate, addNewTask;
    cbn [heap taskQueue sending]; rewrite ?Hclamp;
    (eexists; split; [reflexivity|]); cbn [heap taskQueue sending]; repeat split.
Qed.

End Submit.

(** ** The engine: timer events *)

Section Timer.
Open Scope Z_scope.

Lemma scanQueue_cons (index : nat) (rest : list nat) (lastClock clock : time.Time)
    (s : scan) (p : ptr) (scheduledTask : ScheduledTask) :
  nth_error (scanArr s) index = Some p ->
  nth_error (scanHeap s) p = Some scheduledTask ->
  scanQueue (index :: rest) lastClock clock s
  = if passedOver lastClock scheduledTask then scanQueue rest lastClock clock s
    else if notYetDue clock scheduledTask then Ok s
    else
      let scheduledTask' :=
        if IsFixedRate scheduledTask
        then setTriggerTime scheduledTask
               (time.Add (triggerTime scheduledTask) (period scheduledTask))
        else scheduledTask in
      q <- (if leavesQueue scheduledTask'
            then removeAt (scanArr s) (scanLen s) (Z.of_nat index)
            else Ok (scanArr s, scanLen s)) ;;
      scanQueue rest lastClock clock
        (mkScan (assign (scanHeap s) p scheduledTask') (fst q) (snd q)
                (scanRunning s ++ [p]) (scanStarted s ++ [p])).
Proof.
  intros Harr Hheap. cbn [scanQueue]. rewrite Harr. unfold deref. rewrite Hheap.
  reflexivity.
Qed.

Ltac scan_side :=
  cbn [scanArr scanHeap nth_error]; first [reflexivity | assumption].

Lemma assign_same (h : store) (p : ptr) (scheduledTask : ScheduledTask) :
  nth_error h p = Some scheduledTask -> assign h p scheduledTask = h.
Proof.
  revert p. induction h as [|x h IH]; intros [|p]; cbn [nth_error assign]; try easy.
  - now intros [= ->].
  - intros H. now rewrite IH.
Qed.

Lemma nth_error_assign_other (h : store) (p q : ptr) (x : ScheduledTask) :
  p <> q -> nth_error (assign h q x) p = nth_error h p.
Proof.
  revert p q. induction h as [|y h IH]; intros [|p] [|q] Hne;
    cbn [nth_error assign]; try easy.
  apply IH. congruence.
Qed.

Lemma nth_error_assign_same (h : store) (p : ptr) (x y : ScheduledTask) :
  nth_error h p = Some y -> nth_error (assign h p x) p = Some x.
Proof.
  revert p. induction h as [|z h IH]; intros [|p]; cbn [nth_error assign]; try easy.
  apply IH.
Qed.

(** A task that leaves the queue when started is stored back unchanged. *)
Lemma leaving_task_unchanged (scheduledTask : ScheduledTask) :
  leavesQueue scheduledTask = true ->
  (if IsFixedRate scheduledTask
   then setTriggerTime scheduledTask
          (time.Add (triggerTime scheduledTask) (period scheduledTask))
   else scheduledTask) = scheduledTask.
Proof.
  unfold leavesQueue, IsPeriodic, IsFixedRate, setTriggerTime, time.Add.
  destruct scheduledTask as [i t tr pe fr]. cbn [fixedRate period triggerTime id task].
  destruct fr; [|reflexivity]. rewrite orb_false_r, negb_involutive.
  intros H%Z.eqb_eq. subst pe. now rewrite Z.add_0_r.
Qed.

Lemma due_cases (lastClock clock : time.Time) (scheduledTask : ScheduledTask) :
  due lastClock clock scheduledTask = true ->
  passedOver lastClock scheduledTask = false /\ notYetDue clock scheduledTask = false.
Proof.
  unfold due. intros H. apply andb_true_iff in H as [H1 H2].
  now apply negb_true_iff in H1, H2.
Qed.

(** X16.  A timer event whose clock lies before the trigger time of the
    head of the queue, that trigger time not lying before the clock of the
    previous timer event, starts no task: the queue is sorted again and the
    clock of the event is recorded, nothing else changes.  (A head with the
    zero trigger time is another matter: it lies before any earlier clock,
    so the loop passes over it before it tests for the zero time.) *)
Theorem onTimer_before_head_is_due (w : system) (clock : time.Time)
    (head : ptr) (rest : list ptr) (scheduledTask : ScheduledTask) :
  taskQueue w = head :: rest ->
  nth_error (heap w) head = Some scheduledTask ->
  passedOver (lastClock w) scheduledTask = false ->
  time.After (triggerTime scheduledTask) clock = true ->
  onTimer w clock
  = Ok (mkSystem (nextSequence w) (SorByTriggerTime (heap w) (taskQueue w)) clock
                 (heap w) (sending w) (running w) (started w) (now w)).
Proof.
  intros Hq Hhead Hpassed Hafter.
  assert (Hnot : notYetDue clock scheduledTask = true).
  { unfold notYetDue. now rewrite Hafter. }
  unfold onTimer. rewrite Hq.
  cbn [List.length seq].
  rewrite (scanQueue_cons 0 _ _ _ _ head scheduledTask) by scan_side.
  rewrite Hpassed, Hnot.
  cbn [bind scanHeap scanArr scanLen scanRunning scanStarted firstn].
  now rewrite firstn_all.
Qed.

Lemma onTimer_starts_due_task_lemma (w : system) (clock : time.Time) (p : ptr)
    (scheduledTask : ScheduledTask) :
  taskQueue w = [p] ->
  nth_error (heap w) p = Some scheduledTask ->
  due (lastClock w) clock scheduledTask = true ->
  leavesQueue scheduledTask = true ->
  onTimer w clock
  = Ok (mkSystem (nextSequence w) [] clock (heap w) (sending w)
                 (running w ++ [p]) (started w ++ [p]) (now w)).
Proof.
  intros Hq Hp Hdue Hleaves. destruct (due_cases _ _ _ Hdue) as [Hpassed Hnot].
  unfold onTimer. rewrite Hq. cbn [List.length seq].
  rewrite (scanQueue_cons 0 _ _ _ _ p scheduledTask) by scan_side.
  rewrite Hpassed, Hnot. cbv zeta.
  rewrite (leaving_task_unchanged scheduledTask Hleaves), Hleaves.
  cbn [scanHeap scanArr scanLen scanRunning scanStarted].
  rewrite (assign_same _ _ _ Hp). reflexivity.
Qed.

(** X17.  A timer event that finds a single task in the queue, due and
    one-shot or fixed-delay, starts it and leaves the queue empty; the task
    itself is not changed. *)
Theorem onTimer_starts_due_task (w : system) (clock : time.Time) (p : ptr)
    (scheduledTask : ScheduledTask) :
  taskQueue w = [p] ->
  nth_error (heap w) p = Some scheduledTask ->
  due (lastClock w) clock scheduledTask = true ->
  leavesQueue scheduledTask = true ->
  onTimer w clock
  = Ok (mkSystem (nextSequence w) [] clock (heap w) (sending w)
                 (running w ++ [p]) (started w ++ [p]) (now w)).
Proof.
  exact (onTimer_starts_due_task_lemma w clock p scheduledTask).
Qed.

Lemma onTimer_keeps_fixed_rate_task_lemma (w : system) (clock : time.Time) (p : ptr)
    (scheduledTask : ScheduledTask) :
  taskQueue w = [p] ->
  nth_error (heap w) p = Some scheduledTask ->
  due (lastClock w) clock scheduledTask = true ->
  IsFixedRate scheduledTask = true ->
  IsPeriodic scheduledTask = true ->
  onTimer w clock
  = Ok (mkSystem (nextSequence w) [p] clock
                 (assign (heap w) p
                    (setTriggerTime scheduledTask
                       (time.Add (triggerTime scheduledTask) (period scheduledTask))))
                 (sending w) (running w ++ [p]) (started w ++ [p]) (now w)).
Proof.
  intros Hq Hp Hdue Hfixed Hperiodic. destruct (due_cases _ _ _ Hdue) as [Hpassed Hnot].
  unfold onTimer. rewrite Hq. cbn [List.length seq].
  rewrite (scanQueue_cons 0 _ _ _ _ p scheduledTask) by scan_side.
  rewrite Hpassed, Hnot, Hfixed. cbv zeta.
  unfold leavesQueue, IsPeriodic, IsFixedRate, setTriggerTime in *.
  cbn [period fixedRate]. rewrite Hperiodic, Hfixed.
  cbn [negb orb bind fst snd scanHeap scanArr scanLen scanRunning scanStarted scanQueue].
  reflexivity.
Qed.

(** X18.  A timer event that finds a single task in the queue, due,
    fixed-rate and periodic, starts it and keeps it in the queue with its
    trigger time moved on by one period. *)
Theorem onTimer_keeps_fixed_rate_task (w : system) (clock : time.Time) (p : ptr)
    (scheduledTask : ScheduledTask) :
  taskQueue w = [p] ->
  nth_error (heap w) p = Some scheduledTask ->
  due (lastClock w) clock scheduledTask = true ->
  IsFixedRate scheduledTask = true ->
  IsPeriodic scheduledTask = true ->
  onTimer w clock
  = Ok (mkSystem (nextSequence w) [p] clock
                 (assign (heap w) p
                    (setTriggerTime scheduledTask
                       (time.Add (triggerTime scheduledTask) (period scheduledTask))))
                 (sending w) (running w ++ [p]) (started w ++ [p]) (now w)).
Proof.
  exact (onTimer_keeps_fixed_rate_task_lemma w clock p scheduledTask).
Qed.

(** X19.  A timer event that finds exactly two tasks in the queue, both
    due and both one-shot or fixed-delay, makes the control loop panic: the
    first is taken out of the queue, and the loop then removes at index 1
    from a queue of length 1, where [taskQueue[2:]] is out of range. *)
Theorem onTimer_two_due_tasks_panic (w : system) (clock : time.Time) (p q : ptr)
    (first second : ScheduledTask) :
  taskQueue w = [p; q] ->
  nth_error (heap w) p = Some first ->
  nth_error (heap w) q = Some second ->
  due (lastClock w) clock first = true -> leavesQueue first = true ->
  due (lastClock w) clock second = true -> leavesQueue second = true ->
  onTimer w clock = Panic (PanicRuntime "slice bounds out of range [2:1]").
Proof.
  intros Hq Hp Hsecond Hdue1 Hleaves1 Hdue2 Hleaves2.
  destruct (due_cases _ _ _ Hdue1) as [Hpassed1 Hnot1].
  destruct (due_cases _ _ _ Hdue2) as [Hpassed2 Hnot2].
  unfold onTimer. rewrite Hq. cbn [List.length seq].
  rewrite (scanQueue_cons 0 _ _ _ _ p first) by scan_side.
  rewrite Hpassed1, Hnot1. cbv zeta.
  rewrite (leaving_task_unchanged first Hleaves1), Hleaves1.
  cbn [scanHeap scanArr scanLen scanRunning scanStarted].
  rewrite (assign_same _ _ _ Hp).
  change (removeAt [p; q] 2 (Z.of_nat 0)) with (Ok ([q; q], 1%nat)).
  cbn [bind fst snd].
  rewrite (scanQueue_cons 1 _ _ _ _ q second) by scan_side.
  rewrite Hpassed2, Hnot2. cbv zeta.
  rewrite (leaving_task_unchanged second Hleaves2), Hleaves2.
  reflexivity.
Qed.

(** X20.  The task that follows a started one-shot or fixed-delay task in
    the queue is not looked at: after the first task is taken out, the loop
    goes on at index 1 of the shortened queue.  With a queue of a due task,
    any second task and a third that is not yet due, only the first is
    started, whether the second is due or not. *)
Theorem onTimer_passes_over_next_task (w : system) (clock : time.Time) (p q r : ptr)
    (rest : list ptr) (first third : ScheduledTask) :
  taskQueue w = p :: q :: r :: rest ->
  nth_error (heap w) p = Some first ->
  nth_error (heap w) r = Some third ->
  due (lastClock w) clock first = true -> leavesQueue first = true ->
  passedOver (lastClock w) third = false -> notYetDue clock third = true ->
  onTimer w clock
  = Ok (mkSystem (nextSequence w) (SorByTriggerTime (heap w) (q :: r :: rest)) clock
                 (heap w) (sending w) (running w ++ [p]) (started w ++ [p]) (now w)).
Proof.
  intros Hq Hp Hr Hdue1 Hleaves1 Hpassed3 Hnot3.
  destruct (due_cases _ _ _ Hdue1) as [Hpassed1 Hnot1].
  unfold onTimer. rewrite Hq. cbn [List.length seq].
  rewrite (scanQueue_cons 0 _ _ _ _ p first) by scan_side.
  rewrite Hpassed1, Hnot1. cbv zeta.
  rewrite (leaving_task_unchanged first Hleaves1), Hleaves1.
  cbn [scanHeap scanArr scanLen scanRunning scanStarted].
  rewrite (assign_same _ _ _ Hp).
  unfold removeAt. change (Z.of_nat 0 <? 0) with false.
  replace (Z.of_nat (S (S (S (List.length rest)))) <? Z.of_nat 0 + 1) with false
    by (symmetry; apply Z.ltb_ge; lia).
  cbn [bind fst snd Z.of_nat Z.to_nat firstn skipn app Nat.sub].
  rewrite (scanQueue_cons 1 _ _ _ _ r third) by scan_side.
  rewrite Hpassed3, Hnot3.
  cbn [bind scanHeap scanArr scanLen scanRunning scanStarted firstn].
  rewrite (firstn_all rest), firstn_app, firstn_all, Nat.sub_diag. cbn [firstn].
  now rewrite app_nil_r.
Qed.

End Timer.

Section TimerWitnesses.
Open Scope Z_scope.

Lemma onTimer_before_head_is_due_witness :
  onTimer (stateAfter twoTasksRun) (startOfYear + 5 * time.Second)
  = Ok (mkSystem (nextSequence (stateAfter twoTasksRun))
                 (SorByTriggerTime (heap (stateAfter twoTasksRun))
                                   (taskQueue (stateAfter twoTasksRun)))
                 (startOfYear + 5 * time.Second)
                 (heap (stateAfter twoTasksRun)) (sending (stateAfter twoTasksRun))
                 (running (stateAfter twoTasksRun)) (started (stateAfter twoTasksRun))
                 (now (stateAfter twoTasksRun))).
Proof.
  apply (onTimer_before_head_is_due (stateAfter twoTasksRun)
           (startOfYear + 5 * time.Second) 0%nat [1%nat]
           (mkScheduledTask 0 (Some 1%nat) (startOfYear + 10 * time.Second) 0 false)).
  - vm_compute; reflexivity.
  - vm_compute; reflexivity.
  - vm_compute; reflexivity.
  - vm_compute; reflexivity.
Defined.

Lemma onTimer_starts_due_task_witness :
  onTimer (stateAfter oneDueRun) startOfYear
  = Ok (mkSystem (nextSequence (stateAfter oneDueRun)) [] startOfYear
                 (heap (stateAfter oneDueRun)) (sending (stateAfter oneDueRun))
                 (running (stateAfter oneDueRun) ++ [0%nat])
                 (started (stateAfter oneDueRun) ++ [0%nat])
                 (now (stateAfter oneDueRun))).
Proof.
  apply (onTimer_starts_due_task (stateAfter oneDueRun) startOfYear 0%nat
           (mkScheduledTask 0 (Some 1%nat) startOfYear 0 false)).
  - vm_compute; reflexivity.
  - vm_compute; reflexivity.
  - vm_compute; reflexivity.
  - vm_compute; reflexivity.
Defined.

Lemma onTimer_keeps_fixed_rate_task_witness :
  onTimer (stateAfter fixedRateRun) startOfYear
  = Ok (mkSystem (nextSequence (stateAfter fixedRateRun)) [0%nat] startOfYear
                 (assign (heap (stateAfter fixedRateRun)) 0%nat
                    (setTriggerTime
                       (mkScheduledTask 0 (Some 1%nat) startOfYear time.Second true)
                       (time.Add startOfYear time.Second)))
                 (sending (stateAfter fixedRateRun))
                 (running (stateAfter fixedRateRun) ++ [0%nat])
                 (started (stateAfter fixedRateRun) ++ [0%nat])
                 (now (stateAfter fixedRateRun))).
Proof.
  apply (onTimer_keeps_fixed_rate_task (stateAfter fixedRateRun) startOfYear 0%nat
           (mkScheduledTask 0 (Some 1%nat) startOfYear time.Second true)).
  - vm_compute; reflexivity.
  - vm_compute; reflexivity.
  - vm_compute; reflexivity.
  - vm_compute; reflexivity.
  - vm_compute; reflexivity.
Defined.

Lemma onTimer_two_due_tasks_panic_witness :
  onTimer (stateAfter twoDueRun) startOfYear
  = Panic (PanicRuntime "slice bounds out of range [2:1]").
Proof.
  apply (onTimer_two_due_tasks_panic (stateAfter twoDueRun) startOfYear 0%nat 1%nat
           (mkScheduledTask 0 (Some 1%nat) startOfYear 0 false)
           (mkScheduledTask 0 (Some 2%nat) startOfYear 0 false)).
  - vm_compute; reflexivity.
  - vm_compute; reflexivity.
  - vm_compute; reflexivity.
  - vm_compute; reflexivity.
  - vm_compute; reflexivity.
  - vm_compute; reflexivity.
  - vm_compute; reflexivity.
Defined.

Lemma onTimer_passes_over_next_task_witness :
  onTimer (stateAfter threeTasksRun) startOfYear
  = Ok (mkSystem (nextSequence (stateAfter threeTasksRun))
                 (SorByTriggerTime (heap (stateAfter threeTasksRun)) [1%nat; 2%nat])
                 startOfYear
                 (heap (stateAfter threeTasksRun)) (sending (stateAfter threeTasksRun))
                 (running (stateAfter threeTasksRun) ++ [0%nat])
                 (started (stateAfter threeTasksRun) ++ [0%nat])
                 (now (stateAfter threeTasksRun))).
Proof.
  apply (onTimer_passes_over_next_task (stateAfter threeTasksRun) startOfYear
           0%nat 1%nat 2%nat []
           (mkScheduledTask 0 (Some 1%nat) startOfYear 0 false)
           (mkScheduledTask 0 (Some 3%nat) (startOfYear + 10 * time.Second) 0 false)).
  - vm_compute; reflexivity.
  - vm_compute; reflexivity.
  - vm_compute; reflexivity.
  - vm_compute; reflexivity.
  - vm_compute; reflexivity.
  - vm_compute; reflexivity.
  - vm_compute; reflexivity.
Defined.

End TimerWitnesses.

(** ** The engine: tasks passed over, completion, removal *)

Section PassedOver.
Open Scope Z_scope.

Lemma filter_app_other (p q : ptr) (l : list ptr) :
  p <> q -> filter (Nat.eqb p) (l ++ [q]) = filter (Nat.eqb p) l.
Proof.
  intros Hne. rewrite filter_app. cbn [filter].
  replace (Nat.eqb p q) with false by (symmetry; now apply Nat.eqb_neq).
  apply app_nil_r.
Qed.

Lemma scanQueue_passed_over (indices : list nat) (lastClock clock : time.Time)
    (s s' : scan) (p : ptr) (scheduledTask : ScheduledTask) :
  scanQueue indices lastClock clock s = Ok s' ->
  nth_error (scanHeap s) p = Some scheduledTask ->
  passedOver lastClock scheduledTask = true ->
  nth_error (scanHeap s') p = Some scheduledTask
  /\ filter (Nat.eqb p) (scanStarted s') = filter (Nat.eqb p) (scanStarted s).
Proof.
  revert s. induction indices as [|index rest IH]; intros s Hrun Hp Hpassed.
  - cbn in Hrun. injection Hrun as <-. now split.
  - destruct (nth_error (scanArr s) index) as [q|] eqn:Earr.
    + destruct (nth_error (scanHeap s) q) as [other|] eqn:Eq.
      * rewrite (scanQueue_cons index rest _ _ s q other Earr Eq) in Hrun.
        destruct (passedOver lastClock other) eqn:Eother; [now apply (IH s)|].
        destruct (notYetDue clock other); [injection Hrun as <-; now split|].
        cbv zeta in Hrun.
        assert (Hne : p <> q).
        { intros ->. rewrite Hp in Eq. injection Eq as ->. congruence. }
        match type of Hrun with
        | bind ?m _ = _ => destruct m as [removed| |]; cbn [bind] in Hrun;
                           try discriminate
        end.
        apply IH in Hrun.
        -- cbn [scanStarted] in Hrun. destruct Hrun as [Hheap Hstarted].
           split; [exact Hheap|]. rewrite Hstarted. now apply filter_app_other.
        -- cbn [scanHeap]. now rewrite nth_error_assign_other.
        -- exact Hpassed.
      * cbn [scanQueue] in Hrun. rewrite Earr in Hrun. unfold deref in Hrun.
        rewrite Eq in Hrun. discriminate.
    + cbn [scanQueue] in Hrun. rewrite Earr in Hrun. injection Hrun as <-. now split.
Qed.

(** X21.  A task whose trigger time lies before the clock of the previous
    timer event is not started by a timer event, wherever it stands in the
    queue, and its trigger time is left as it is. *)
Theorem onTimer_never_starts_passed_over_task (w w' : system) (clock : time.Time)
    (p : ptr) (scheduledTask : ScheduledTask) :
  onTimer w clock = Ok w' ->
  nth_error (heap w) p = Some scheduledTask ->
  passedOver (lastClock w) scheduledTask = true ->
  timesStarted w' p = timesStarted w p
  /\ nth_error (heap w') p = Some scheduledTask.
Proof.
  unfold onTimer. intros Hrun Hp Hpassed.
  destruct (scanQueue _ _ _ _) as [s| |] eqn:Escan; cbn [bind] in Hrun; try discriminate.
  injection Hrun as <-.
  destruct (scanQueue_passed_over _ _ _ _ s p scheduledTask Escan Hp Hpassed)
    as [Hheap Hstarted].
  unfold timesStarted. cbn [started heap scanStarted] in *.
  now rewrite Hstarted.
Qed.

End PassedOver.

Section Completion.
Open Scope Z_scope.

Lemma onTimer_never_starts_passed_over_task_witness :
  timesStarted (afterTimer (stateAfter lostTaskRun) (startOfYear + 2 * Millisecond)) 1%nat
  = timesStarted (stateAfter lostTaskRun) 1%nat
  /\ nth_error (heap (afterTimer (stateAfter lostTaskRun) (startOfYear + 2 * Millisecond)))
               1%nat
     = Some (mkScheduledTask 0 (Some 2%nat) startOfYear 0 false).
Proof.
  apply (onTimer_never_starts_passed_over_task (stateAfter lostTaskRun)
           (afterTimer (stateAfter lostTaskRun) (startOfYear + 2 * Millisecond))
           (startOfYear + 2 * Millisecond) 1%nat
           (mkScheduledTask 0 (Some 2%nat) startOfYear 0 false)).
  - vm_compute; reflexivity.
  - vm_compute; reflexivity.
  - vm_compute; reflexivity.
Defined.

Lemma step_Elapse (w : system) (d : time.Duration) :
  step w (Elapse d) = Ok (elapsed w d).
Proof. reflexivity. Qed.

Lemma onTaskDone_result (w : system) (p : ptr) (scheduledTask : ScheduledTask) :
  nth_error (heap w) p = Some scheduledTask ->
  0 <= period scheduledTask ->
  onTaskDone w p
  = Ok (mkSystem (nextSequence w) (taskQueue w) (lastClock w)
                 (assign (heap w) p
                    (setTriggerTime scheduledTask
                       (time.Add (now w) (period scheduledTask))))
                 (if IsFixedRate scheduledTask then sending w
                  else (sending w ++ [p])%list)
                 (removeFirst p (running w)) (started w) (now w)).
Proof.
  intros Hp Hperiod. unfold onTaskDone, deref. rewrite Hp. cbn [bind].
  unfold calculateTriggerTime.
  replace (period scheduledTask <? 0) with false by (symmetry; apply Z.ltb_ge; lia).
  unfold IsFixedRate, setTriggerTime. cbn [fixedRate].
  now destruct (fixedRate scheduledTask).
Qed.

Lemma setTriggerTime_twice (scheduledTask : ScheduledTask) (t u : time.Time) :
  setTriggerTime (setTriggerTime scheduledTask t) u = setTriggerTime scheduledTask u.
Proof. reflexivity. Qed.

(** X22.  A task alone in the queue is started by a timer event and its
    body returns after a time [d]: its trigger time is then the instant of
    the return plus its period, whatever it was before.  A task that is
    not fixed-rate is out of the queue and offered to the loop again; a
    periodic fixed-rate task has stayed in the queue and is not offered. *)
Theorem completion_sets_trigger_time (w : system) (clock : time.Time) (p : ptr)
    (scheduledTask : ScheduledTask) (d : time.Duration) :
  taskQueue w = [p] ->
  nth_error (heap w) p = Some scheduledTask ->
  due (lastClock w) clock scheduledTask = true ->
  0 <= period scheduledTask ->
  exists w1 w2,
    onTimer w clock = Ok w1
    /\ onTaskDone (elapsed w1 d) p = Ok w2
    /\ nth_error (heap w2) p
       = Some (setTriggerTime scheduledTask
                 (time.Add (time.Add (now w) d) (period scheduledTask)))
    /\ (IsFixedRate scheduledTask = false ->
        taskQueue w2 = [] /\ sending w2 = (sending w ++ [p])%list)
    /\ (IsFixedRate scheduledTask = true -> IsPeriodic scheduledTask = true ->
        taskQueue w2 = [p] /\ sending w2 = sending w).
Proof.
  intros Hq Hp Hdue Hperiod.
  destruct (IsFixedRate scheduledTask && IsPeriodic scheduledTask) eqn:Ekeep.
  - apply andb_true_iff in Ekeep as [Efixed Eperiodic].
    rewrite (onTimer_keeps_fixed_rate_task_lemma w clock p scheduledTask
               Hq Hp Hdue Efixed Eperiodic).
    eexists. eexists. split; [reflexivity|].
    rewrite (onTaskDone_result _ p
               (setTriggerTime scheduledTask
                  (time.Add (triggerTime scheduledTask) (period scheduledTask))));
      [| cbn [elapsed heap]; now apply (nth_error_assign_same _ _ _ scheduledTask)
       | exact Hperiod].
    split; [reflexivity|]. cbn [heap taskQueue sending elapsed now].
    rewrite setTriggerTime_twice. cbn [setTriggerTime period].
    split; [|split].
    + eapply nth_error_assign_same.
      now apply (nth_error_assign_same _ _ _ scheduledTask).
    + intros Hf. congruence.
    + intros _ _. split; [reflexivity|].
      unfold IsFixedRate in *. cbn [fixedRate setTriggerTime]. now rewrite Efixed.
  - assert (Hleaves : leavesQueue scheduledTask = true).
    { unfold leavesQueue. apply andb_false_iff in Ekeep as [->| ->]; cbn;
        [apply orb_true_r | reflexivity]. }
    rewrite (onTimer_starts_due_task_lemma w clock p scheduledTask Hq Hp Hdue Hleaves).
    eexists. eexists. split; [reflexivity|].
    rewrite (onTaskDone_result _ p scheduledTask); [| exact Hp | exact Hperiod].
    split; [reflexivity|]. cbn [heap taskQueue sending elapsed now].
    split; [|split].
    + now apply (nth_error_assign_same _ _ _ scheduledTask).
    + intros ->. now split.
    + intros Hf Hpe. rewrite Hf, Hpe in Ekeep. discriminate.
Qed.

End Completion.

Section Removal.
Open Scope Z_scope.

Lemma completion_sets_trigger_time_witness :
  exists w1 w2,
    onTimer (stateAfter fixedRateRun) startOfYear = Ok w1
    /\ onTaskDone (elapsed w1 (3 * time.Second)) 0%nat = Ok w2
    /\ nth_error (heap w2) 0%nat
       = Some (setTriggerTime
                 (mkScheduledTask 0 (Some 1%nat) startOfYear time.Second true)
                 (time.Add (time.Add (now (stateAfter fixedRateRun)) (3 * time.Second))
                           (period (mkScheduledTask 0 (Some 1%nat) startOfYear
                                                    time.Second true))))
    /\ (IsFixedRate (mkScheduledTask 0 (Some 1%nat) startOfYear time.Second true) = false ->
        taskQueue w2 = []
        /\ sending w2 = (sending (stateAfter fixedRateRun) ++ [0%nat])%list)
    /\ (IsFixedRate (mkScheduledTask 0 (Some 1%nat) startOfYear time.Second true) = true ->
        IsPeriodic (mkScheduledTask 0 (Some 1%nat) startOfYear time.Second true) = true ->
        taskQueue w2 = [0%nat] /\ sending w2 = sending (stateAfter fixedRateRun)).
Proof.
  apply (completion_sets_trigger_time (stateAfter fixedRateRun) startOfYear 0%nat
           (mkScheduledTask 0 (Some 1%nat) startOfYear time.Second true)
           (3 * time.Second)).
  - vm_compute; reflexivity.
  - vm_compute; reflexivity.
  - vm_compute; reflexivity.
  - vm_compute. discriminate.
Defined.

Lemma findTaskIndex_first_match (h : store) (pre post : list ptr) (p task : ptr)
    (wanted scheduledTask : ScheduledTask) (index : Z) :
  nth_error h task = Some wanted ->
  idAbsent h pre (id wanted) = true ->
  nth_error h p = Some scheduledTask ->
  id scheduledTask = id wanted ->
  findTaskIndex h (pre ++ p :: post) task index
  = Ok (index + Z.of_nat (List.length pre)).
Proof.
  intros Htask Habsent Hp Hid. revert index Habsent.
  induction pre as [|q pre IH]; intros index Habsent; cbn [app findTaskIndex].
  - unfold deref. rewrite Hp, Htask. cbn [bind]. rewrite Hid, Z.eqb_refl.
    cbn [List.length]. f_equal. lia.
  - cbn [idAbsent forallb] in Habsent. apply andb_true_iff in Habsent as [Hq Hrest].
    unfold deref. rewrite Htask.
    destruct (nth_error h q) as [other|]; [|discriminate].
    cbn [bind]. apply negb_true_iff in Hq. rewrite Hq.
    rewrite (IH (index + 1) Hrest). cbn [List.length]. f_equal. lia.
Qed.

Lemma firstn_front (A : Type) (l rest : list A) :
  firstn (List.length l) (l ++ rest) = l.
Proof.
  induction l as [|x l IH]; cbn [List.length app firstn].
  - now destruct rest.
  - now rewrite IH.
Qed.

Lemma skipn_past (A : Type) (l post : list A) (x : A) :
  skipn (S (List.length l)) (l ++ x :: post) = post.
Proof.
  induction l as [|y l IH]; cbn [List.length app skipn] in *; [reflexivity | exact IH].
Qed.

Lemma removeAt_middle (pre post : list ptr) (p : ptr) :
  exists arr,
    removeAt (pre ++ p :: post) (List.length (pre ++ p :: post))
             (Z.of_nat (List.length pre))
    = Ok (arr, List.length (pre ++ post))
    /\ firstn (List.length (pre ++ post)) arr = (pre ++ post)%list.
Proof.
  unfold removeAt.
  replace (Z.of_nat (List.length pre) <? 0) with false
    by (symmetry; apply Z.ltb_ge; lia).
  replace (Z.of_nat (List.length (pre ++ p :: post))
           <? Z.of_nat (List.length pre) + 1) with false
    by (symmetry; apply Z.ltb_ge; rewrite length_app; cbn [List.length]; lia).
  rewrite Nat2Z.id, firstn_front, skipn_past.
  replace (List.length (pre ++ p :: post) - List.length pre - 1)%nat
    with (List.length post) by (rewrite length_app; cbn [List.length]; lia).
  replace (List.length (pre ++ p :: post) - 1)%nat
    with (List.length (pre ++ post)) by (rewrite !length_app; cbn [List.length]; lia).
  rewrite firstn_all.
  eexists. split; [reflexivity|].
  rewrite app_assoc. apply firstn_front.
Qed.

(** X23.  A remove event takes out of the queue the first task whose [id]
    equals that of the task sent, and nothing else changes: the tasks
    before it and after it stay, in their order. *)
Theorem onRemoveTask_removes_first_match (w : system) (task p : ptr)
    (pre post : list ptr) (wanted scheduledTask : ScheduledTask) :
  nth_error (heap w) task = Some wanted ->
  taskQueue w = (pre ++ p :: post)%list ->
  idAbsent (heap w) pre (id wanted) = true ->
  nth_error (heap w) p = Some scheduledTask ->
  id scheduledTask = id wanted ->
  onRemoveTask w task
  = Ok (mkSystem (nextSequence w) (pre ++ post) (lastClock w) (heap w)
                 (sending w) (running w) (started w) (now w)).
Proof.
  intros Htask Hq Habsent Hp Hid. unfold onRemoveTask. rewrite Hq.
  rewrite (findTaskIndex_first_match _ _ _ _ _ wanted scheduledTask 0
             Htask Habsent Hp Hid).
  cbn [bind]. rewrite Z.add_0_l.
  destruct (removeAt_middle pre post p) as [arr [Hremove Hfirst]].
  rewrite Hremove. cbn [bind fst snd]. now rewrite Hfirst.
Qed.

Lemma onRemoveTask_removes_first_match_witness :
  onRemoveTask (stateAfter threeTasksRun) 2%nat
  = Ok (mkSystem (nextSequence (stateAfter threeTasksRun)) ([] ++ [1%nat; 2%nat])
                 (lastClock (stateAfter threeTasksRun)) (heap (stateAfter threeTasksRun))
                 (sending (stateAfter threeTasksRun)) (running (stateAfter threeTasksRun))
                 (started (stateAfter threeTasksRun)) (now (stateAfter threeTasksRun))).
Proof.
  apply (onRemoveTask_removes_first_match (stateAfter threeTasksRun) 2%nat 0%nat
           [] [1%nat; 2%nat]
           (mkScheduledTask 0 (Some 3%nat) (startOfYear + 10 * time.Second) 0 false)
           (mkScheduledTask 0 (Some 1%nat) startOfYear 0 false)).
  - vm_compute; reflexivity.
  - vm_compute; reflexivity.
  - reflexivity.
  - vm_compute; reflexivity.
  - reflexivity.
Defined.

End Removal.

(** ** The engine: identities *)

Section Identity.
Open Scope Z_scope.

Lemma assign_Forall (P : ScheduledTask -> Prop) (h : store) (p : ptr)
    (x : ScheduledTask) :
  Forall P h -> P x -> Forall P (assign h p x).
Proof.
  intros Hh Hx. revert p. induction Hh as [|y h Hy Hh IH]; intros [|p];
    cbn [assign]; constructor; auto.
Qed.

Lemma Forall_nth_error (P : ScheduledTask -> Prop) (h : store) (p : ptr)
    (x : ScheduledTask) :
  Forall P h -> nth_error h p = Some x -> P x.
Proof.
  intros Hh Hp. rewrite Forall_forall in Hh. apply Hh. eapply nth_error_In. exact Hp.
Qed.

Lemma scanQueue_ids (indices : list nat) (lastClock clock : time.Time) (s s' : scan) :
  scanQueue indices lastClock clock s = Ok s' ->
  Forall (fun scheduledTask => id scheduledTask = 0) (scanHeap s) ->
  Forall (fun scheduledTask => id scheduledTask = 0) (scanHeap s').
Proof.
  revert s. induction indices as [|index rest IH]; intros s Hrun Hids.
  - cbn in Hrun. now injection Hrun as <-.
  - destruct (nth_error (scanArr s) index) as [q|] eqn:Earr.
    + destruct (nth_error (scanHeap s) q) as [other|] eqn:Eq.
      * rewrite (scanQueue_cons index rest _ _ s q other Earr Eq) in Hrun.
        destruct (passedOver lastClock other); [now apply (IH s)|].
        destruct (notYetDue clock other); [now injection Hrun as <-|].
        cbv zeta in Hrun.
        match type of Hrun with
        | bind ?m _ = _ => destruct m as [removed| |]; cbn [bind] in Hrun;
                           try discriminate
        end.
        apply IH in Hrun; [exact Hrun|]. cbn [scanHeap].
        apply assign_Forall; [exact Hids|].
        pose proof (Forall_nth_error _ _ _ _ Hids Eq) as Hid.
        now destruct (IsFixedRate other).
      * cbn [scanQueue] in Hrun. rewrite Earr in Hrun. unfold deref in Hrun.
        rewrite Eq in Hrun. discriminate.
    + cbn [scanQueue] in Hrun. rewrite Earr in Hrun. now injection Hrun as <-.
Qed.

Lemma step_noIdentity (w w' : system) (a : action) :
  step w a = Ok w' -> noIdentity w -> noIdentity w'.
Proof.
  unfold noIdentity. intros Hstep [Hseq Hids].
  destruct a as [d|task delay|task initialDelay delay|task initialDelay period0| |p|p|p];
    cbn [step] in Hstep.
  - injection Hstep as <-. now split.
  - unfold Schedule in Hstep. destruct task; [|discriminate].
    cbn in Hstep. injection Hstep as <-. cbn [nextSequence heap]. split; [exact Hseq|].
    apply Forall_app. split; [exact Hids|]. now repeat constructor.
  - unfold ScheduleWithFixedDelay in Hstep. destruct task; [|discriminate].
    cbn in Hstep. injection Hstep as <-. cbn [nextSequence heap]. split; [exact Hseq|].
    apply Forall_app. split; [exact Hids|]. now repeat constructor.
  - unfold ScheduleAtWithRate in Hstep. destruct task; [|discriminate].
    cbn in Hstep. injection Hstep as <-. cbn [nextSequence heap]. split; [exact Hseq|].
    apply Forall_app. split; [exact Hids|]. now repeat constructor.
  - unfold onTimer in Hstep.
    destruct (scanQueue _ _ _ _) as [s| |] eqn:Escan; cbn [bind] in Hstep;
      try discriminate.
    injection Hstep as <-. cbn [nextSequence heap]. split; [exact Hseq|].
    exact (scanQueue_ids _ _ _ _ s Escan Hids).
  - cbn in Hstep. injection Hstep as <-. now split.
  - unfold onRemoveTask in Hstep.
    destruct (findTaskIndex _ _ _ _); cbn [bind] in Hstep; try discriminate.
    destruct (removeAt _ _ _); cbn [bind] in Hstep; try discriminate.
    injection Hstep as <-. now split.
  - unfold onTaskDone, deref in Hstep.
    destruct (nth_error (heap w) p) as [scheduledTask|] eqn:Ep; [|discriminate].
    cbn [bind] in Hstep. injection Hstep as <-. cbn [nextSequence heap].
    split; [exact Hseq|]. apply assign_Forall; [exact Hids|].
    exact (Forall_nth_error _ _ _ _ Hids Ep).
Qed.

Lemma execute_noIdentity (trace : list action) (w w' : system) :
  execute w trace = Some (Ok w') -> noIdentity w -> noIdentity w'.
Proof.
  revert w. induction trace as [|a rest IH]; intros w Hrun Hw; cbn [execute] in Hrun.
  - now injection Hrun as <-.
  - destruct (enabled w a); [|discriminate].
    destruct (step w a) as [w1| |] eqn:Estep; try discriminate.
    apply (IH w1 Hrun). exact (step_noIdentity w w1 a Estep Hw).
Qed.

(** X24.  In every state that an execution of the engine reaches from a
    new executor, the sequence counter is still 0 and every task has the
    [id] 0: no step assigns an identity. *)
Theorem no_execution_assigns_identity (t : time.Time) (trace : list action)
    (w : system) :
  execute (NewScheduledTaskExecutor t) trace = Some (Ok w) ->
  noIdentity w.
Proof.
  intros Hrun. apply (execute_noIdentity trace _ w Hrun).
  split; [reflexivity | constructor].
Qed.

Lemma no_execution_assigns_identity_witness :
  noIdentity (stateAfter lostTaskRun).
Proof.
  apply (no_execution_assigns_identity startOfYear lostTaskRun (stateAfter lostTaskRun)).
  vm_compute; reflexivity.
Defined.

End Identity.

(** ** Scheduler tasks *)

Section SchedulerTaskOptions.

Variable Location : Type.
Variable Local : Location.
Variable LoadLocation : string -> Location + string.

Lemma applyOptions_body (options : list (Option Location))
    (runnableTask result : SchedulerTask Location) :
  Forall (packageOption LoadLocation) options ->
  applyOptions options runnableTask = Ok result ->
  body result = body runnableTask.
Proof.
  intros Hall. revert runnableTask.
  induction Hall as [|option rest Hoption Hrest IH]; intros runnableTask;
    cbn [applyOptions].
  - now intros [= <-].
  - destruct Hoption as [f|name].
    + unfold WithStartTime at 1. cbn [bind]. intros H%IH. exact H.
    + unfold WithLocation at 1. destruct (LoadLocation name); [|discriminate].
      cbn [bind]. intros H%IH. exact H.
Qed.

(** X25.  [NewSchedulerTask] panics on a nil task whatever the options
    are; and a task that it returns, built with options of the package,
    carries the task given, which is not nil. *)
Theorem NewSchedulerTask_keeps_task (task : Task) (options : list (Option Location)) :
  NewSchedulerTask Local None options = Panic (PanicMsg "task cannot be nil")
  /\ forall result,
       Forall (packageOption LoadLocation) options ->
       NewSchedulerTask Local task options = Ok result ->
       body result = task /\ task <> None.
Proof.
  split; [reflexivity|].
  intros result Hall. unfold NewSchedulerTask.
  destruct task as [b|]; [|discriminate].
  intros Hrun. split; [|discriminate].
  exact (applyOptions_body options _ result Hall Hrun).
Qed.

End SchedulerTaskOptions.

Lemma NewSchedulerTask_keeps_task_witness :
  body (mkSchedulerTask (Some 1%nat) 5 true) = Some 1%nat /\ Some 1%nat <> None.
Proof.
  apply (proj2 (NewSchedulerTask_keeps_task bool false
                  (fun name => if String.eqb name "UTC" then inl true else inr name)
                  (Some 1%nat)
                  [WithLocation (fun name => if String.eqb name "UTC" then inl true
                                             else inr name) "UTC";
                   WithStartTime (fun _ => 5%Z)])).
  - repeat constructor.
  - reflexivity.
Defined.

(** ** Names of months and days *)

Section Names.
Open Scope string_scope.
Open Scope Z_scope.

Lemma namesParse_months : namesParse month months = true.
Proof. vm_compute; reflexivity. Qed.

Lemma namesParse_days : namesParse dayOfWeek (firstn 6 days) = true.
Proof. vm_compute; reflexivity. Qed.

Lemma namesParse_spec (ft : fieldType) (names : list string) (i : nat)
    (name s : string) :
  namesParse ft names = true ->
  nth_error names i = Some name ->
  In s (casings name) ->
  exists value,
    parseField s ft = Ok value /\ Bits value = bitsOf [Z.of_nat i + 1].
Proof.
  unfold namesParse. intros Hall Hname Hs.
  rewrite forallb_forall in Hall.
  assert (Hi : (i < List.length names)%nat)
    by (apply nth_error_Some; rewrite Hname; discriminate).
  specialize (Hall i ltac:(apply in_seq; lia)).
  rewrite (nth_error_nth names i EmptyString Hname) in Hall.
  rewrite forallb_forall in Hall. specialize (Hall s Hs).
  unfold parsesTo in Hall.
  destruct (parseField s ft) as [value| |]; try discriminate.
  apply andb_true_iff in Hall as [Hbits _]. apply Z.eqb_eq in Hbits.
  now exists value.
Qed.

(** X26.  In the month field each of the names JAN to DEC, and in the
    day-of-week field each of the names MON to SAT, written in any mix of
    capital and small letters, parses to the set that holds the number of
    the name alone, counted from 1. *)
Theorem names_parse_to_their_numbers (i : nat) (name s : string) :
  In s (casings name) ->
  (nth_error months i = Some name ->
   exists value,
     parseField s month = Ok value /\ Bits value = bitsOf [Z.of_nat i + 1])
  /\ (nth_error (firstn 6 days) i = Some name ->
      exists value,
        parseField s dayOfWeek = Ok value /\ Bits value = bitsOf [Z.of_nat i + 1]).
Proof.
  intros Hs. split; intros Hname.
  - exact (namesParse_spec month months i name s namesParse_months Hname Hs).
  - exact (namesParse_spec dayOfWeek (firstn 6 days) i name s namesParse_days Hname Hs).
Qed.

Lemma names_parse_to_their_numbers_witness :
  (exists value,
      parseField "sEp" month = Ok value /\ Bits value = bitsOf [Z.of_nat 8 + 1])
  /\ (exists value,
         parseField "fri" dayOfWeek = Ok value /\ Bits value = bitsOf [Z.of_nat 4 + 1]).
Proof.
  split.
  - apply (proj1 (names_parse_to_their_numbers 8 "SEP" "sEp" ltac:(vm_compute; tauto))).
    reflexivity.
  - apply (proj2 (names_parse_to_their_numbers 4 "FRI" "fri" ltac:(vm_compute; tauto))).
    reflexivity.
Defined.

End Names.
